(** * The live voice session of chat-with-docs-gemini

    A shallow embedding of the voice-conversation core of the application:
    the audio helper functions of [services/geminiService.ts] ([decode],
    [encode], [createBlob], [decodeAudioData]) and the session callbacks of
    the [App] component ([onmessage], [onclose], [onerror], [handleCleanup]);
    then of the WAV writer of [services/audioService.ts] and of the URL
    handlers of the [App] component ([handleAddUrl], [handleRemoveUrl]).

    Conventions.
    - A JavaScript number is a [number]: an exact rational, or one of the
      three non-finite values.  Every 32-bit float is a rational, and the
      only arithmetic the audio helpers perform on samples (a product with
      32768, a quotient of a 16-bit integer by 32768) is exact in binary
      floating point, so no rounding is lost by computing in [Q].
    - A typed array is the list of its elements; the views used by the
      program always span a whole buffer, in little-endian byte order.
    - A string of the program is a [string]: a sequence of characters with
      codes 0..255, which is what [btoa] accepts and [atob] produces.
    - A time, in seconds, is a rational; the rounding of floating-point sums
      of times is not modelled.
    - A function that can throw returns a [result]; a callback is a state
      transformer over the refs and variables it closes over, and runs to
      completion before the next one starts.
    - [chatMessages] is React state.  A function passed to its setter is
      not run by the setter: React queues it and calls the queued
      functions, oldest first, at the next render, after the callback that
      queued them has run.  What such a function reads (a variable it
      closes over, the clock), it reads when it is called. *)

From Stdlib Require Import ZArith NArith QArith Qround Qminmax Qabs List String Ascii Bool
  Lia Lqa.
From Stdlib.Strings Require Import Byte.
From Stdlib.Numbers Require Import DecimalString.
From stdpp Require Import base list.
Import ListNotations.

Local Open Scope Z_scope.

(** ** Exceptions and results *)

Inductive Exception : Type :=
| RangeError
| TypeError
| InvalidCharacterError
| NotSupportedError.

Inductive result (A : Type) : Type :=
| Ok (a : A)
| Throw (e : Exception).

Arguments Ok {A} a.
Arguments Throw {A} e.

Definition bind_result {A B : Type} (r : result A) (k : A -> result B) : result B :=
  match r with
  | Ok a => k a
  | Throw e => Throw e
  end.

(** A counted [for (let i = 0; i < n; i++)] loop over a state. *)
Definition for_loop {S : Type} (n : nat) (body : nat -> S -> S) (s : S) : S :=
  fold_left (fun acc i => body i acc) (seq 0 n) s.

(** ** The platform: numbers, typed arrays, base64 text, audio buffers *)

Module Platform.

(** *** Numbers *)

Inductive number : Type :=
| Fin (q : Q)
| NaN
| PosInf
| NegInf.

(** [x * k] for a positive finite constant [k]. *)
Definition mul_const (x : number) (k : Q) : number :=
  match x with
  | Fin q => Fin (q * k)%Q
  | other => other
  end.

(** [a / b] for two array lengths. *)
Definition div_lengths (a b : nat) : number :=
  match b with
  | O => match a with O => NaN | _ => PosInf end
  | _ => Fin (Z.of_nat a # Pos.of_nat b)
  end.

(** [v / 32768.0] where [v] is an element read from an [Int16Array], or
    [undefined] when the index is out of range. *)
Definition div_32768 (v : option Z) : number :=
  match v with
  | Some z => Fin (z # 32768)
  | None => NaN
  end.

(** Truncation toward zero. *)
Definition Qtrunc (q : Q) : Z := Z.quot (Qnum q) (Zpos (Qden q)).

(** ECMAScript ToInt16, the conversion applied by a store into an
    [Int16Array]: non-finite values become 0, finite ones are truncated
    and reduced modulo 2^16 into [-32768, 32767]. *)
Definition ToInt16 (x : number) : Z :=
  match x with
  | Fin q =>
      let int16bit := Qtrunc q mod 65536 in
      if 32768 <=? int16bit then int16bit - 65536 else int16bit
  | _ => 0
  end.

(** WebIDL conversion to [unsigned long] of a [createBuffer] argument
    (array lengths stay below 2^32, so the reduction modulo 2^32 is the
    identity and is left out). *)
Definition to_unsigned_long (x : number) : nat :=
  match x with
  | Fin q => Z.to_nat (Qtrunc q)
  | _ => 0%nat
  end.

(** Number of iterations of [for (let i = 0; i < x; i++)]; the loop on
    [PosInf] is never entered by the program. *)
Definition iterations (x : number) : nat :=
  match x with
  | Fin q => Z.to_nat (Qceiling q)
  | _ => 0%nat
  end.

(** *** Typed arrays *)

Definition byte_of_Z (z : Z) : byte :=
  byte_of_ascii (ascii_of_N (Z.to_N (z mod 256))).

Definition Z_of_byte (b : byte) : Z := Z.of_N (Byte.to_N b).

(** [new Uint8Array(int16.buffer)]: the two bytes of each element, low
    byte first, negative elements in two's complement. *)
Definition Uint8Array_of_Int16Array (a : list Z) : list byte :=
  flat_map (fun v => [byte_of_Z (v mod 256); byte_of_Z ((v / 256) mod 256)]) a.

Definition int16_of_bytes (lo hi : byte) : Z :=
  let u := Z_of_byte lo + 256 * Z_of_byte hi in
  if 32768 <=? u then u - 65536 else u.

Fixpoint int16_elements (buf : list byte) : list Z :=
  match buf with
  | lo :: hi :: rest => int16_of_bytes lo hi :: int16_elements rest
  | _ => []
  end.

(** [new Int16Array(buffer)]: a [RangeError] unless the byte length is a
    multiple of 2. *)
Definition Int16Array_of_buffer (buf : list byte) : result (list Z) :=
  if Nat.even (length buf) then Ok (int16_elements buf) else Throw RangeError.

(** A [Uint8Array] in general is a window on a buffer: [byteLength] bytes
    of [buffer], from [byteOffset] on. *)
Record Uint8Array : Type := {
  buffer : list byte;
  byteOffset : nat;
  byteLength : nat
}.

(** The array that [new Uint8Array(len)] and [new Uint8Array(buffer)]
    make: it spans its whole buffer.  The arrays the program makes are of
    this kind and are written as the list of their bytes. *)
Definition spanning (bytes : list byte) : Uint8Array :=
  {| buffer := bytes; byteOffset := 0; byteLength := length bytes |}.

(** *** Base64 text: [btoa] and [atob] *)

Definition b64_alphabet : list ascii :=
  list_ascii_of_string
    "ABCDEFGHIJKLMNOPQRSTUVWXYZabcdefghijklmnopqrstuvwxyz0123456789+/".

Definition pad : ascii := "="%char.

Definition b64_char (n : N) : ascii := nth (N.to_nat n) b64_alphabet pad.

Fixpoint index_of (c : ascii) (l : list ascii) : option nat :=
  match l with
  | [] => None
  | x :: r => if Ascii.eqb c x then Some O else option_map S (index_of c r)
  end.

Definition b64_value (c : ascii) : option N :=
  option_map N.of_nat (index_of c b64_alphabet).

Fixpoint btoa_groups (l : list N) : list ascii :=
  match l with
  | [] => []
  | [a] =>
      [b64_char (a / 4); b64_char ((a mod 4) * 16); pad; pad]
  | [a; b] =>
      [b64_char (a / 4); b64_char ((a mod 4) * 16 + b / 16);
       b64_char ((b mod 16) * 4); pad]
  | a :: b :: c :: rest =>
      b64_char (a / 4) :: b64_char ((a mod 4) * 16 + b / 16)
      :: b64_char ((b mod 16) * 4 + c / 64) :: b64_char (c mod 64)
      :: btoa_groups rest
  end%N.

Definition btoa (binary : string) : string :=
  string_of_list_ascii (btoa_groups (map N_of_ascii (list_ascii_of_string binary))).

(** The forgiving base64 decoding of [atob]. *)

Definition is_ascii_whitespace (c : ascii) : bool :=
  let n := N_of_ascii c in
  ((n =? 9) || (n =? 10) || (n =? 12) || (n =? 13) || (n =? 32))%N.

Definition strip_padding (l : list ascii) : list ascii :=
  match rev l with
  | p1 :: p2 :: r =>
      if Ascii.eqb p1 pad
      then if Ascii.eqb p2 pad then rev r else rev (p2 :: r)
      else l
  | [p1] => if Ascii.eqb p1 pad then [] else l
  | [] => l
  end.

Fixpoint b64_values (l : list ascii) : option (list N) :=
  match l with
  | [] => Some []
  | c :: r =>
      match b64_value c, b64_values r with
      | Some v, Some vs => Some (v :: vs)
      | _, _ => None
      end
  end.

Fixpoint atob_groups (l : list N) : list N :=
  match l with
  | s1 :: s2 :: s3 :: s4 :: rest =>
      (s1 * 4 + s2 / 16) :: ((s2 mod 16) * 16 + s3 / 4)
      :: ((s3 mod 4) * 64 + s4) :: atob_groups rest
  | [s1; s2; s3] => [s1 * 4 + s2 / 16; (s2 mod 16) * 16 + s3 / 4]
  | [s1; s2] => [s1 * 4 + s2 / 16]
  | _ => []
  end%N.

Definition atob (text : string) : result string :=
  let data := filter (fun c => is_ascii_whitespace c = false) (list_ascii_of_string text) in
  let data := if (length data mod 4 =? 0)%nat then strip_padding data else data in
  if (length data mod 4 =? 1)%nat then Throw InvalidCharacterError
  else
    match b64_values data with
    | None => Throw InvalidCharacterError
    | Some sextets => Ok (string_of_list_ascii (map ascii_of_N (atob_groups sextets)))
    end.

(** *** Audio buffers and contexts *)

Record AudioBuffer : Type := {
  numberOfChannels : nat;
  frames : nat;
  sampleRate : positive;
  channels : list (list number)
}.

(** [buffer.duration], in seconds. *)
Definition duration (b : AudioBuffer) : Q := Z.of_nat (frames b) # sampleRate b.

Inductive AudioContextState : Type :=
| suspended
| running
| closed.

(** An audio context.  Which buffer shapes [createBuffer] accepts (its
    nominal ranges) is the context's own business: [supports]. *)
Record AudioContext : Type := {
  ctx_id : nat;
  ctx_state : AudioContextState;
  supports : nat -> nat -> positive -> bool
}.

(** [ctx.createBuffer(numChannels, length, sampleRate)]: a buffer of
    silence of the requested shape, or [NotSupportedError]. *)
Definition createBuffer (ctx : AudioContext) (numChannels : nat) (length : number)
    (rate : positive) : result AudioBuffer :=
  let len := to_unsigned_long length in
  if supports ctx numChannels len rate
  then Ok {| numberOfChannels := numChannels;
             frames := len;
             sampleRate := rate;
             channels := replicate numChannels (replicate len (Fin 0)) |}
  else Throw NotSupportedError.

(** A running context with the nominal ranges every implementation of the
    Web Audio API supports: 1 to 32 channels, at least one frame, a rate
    from 8000 to 96000 Hz. *)
Definition standardContext (n : nat) : AudioContext :=
  {| ctx_id := n;
     ctx_state := running;
     supports := fun numChannels len rate =>
       ((1 <=? numChannels)%nat && (numChannels <=? 32)%nat && (1 <=? len)%nat
        && (8000 <=? rate)%positive && (rate <=? 96000)%positive) |}.

(** [buffer.getChannelData(channel)]. *)
Definition getChannelData (b : AudioBuffer) (channel : nat) : list number :=
  default [] (channels b !! channel).

(** The buffer after the program has written [data] through the array
    returned by [getChannelData(channel)], which aliases the buffer. *)
Definition setChannelData (b : AudioBuffer) (channel : nat) (data : list number)
    : AudioBuffer :=
  {| numberOfChannels := numberOfChannels b;
     frames := frames b;
     sampleRate := sampleRate b;
     channels := <[channel := data]> (channels b) |}.

End Platform.

(** ** services/geminiService.ts: audio helper functions for the live API *)

Module GeminiService.
Import Platform.

(** [binaryString.charCodeAt(i)] stored into a [Uint8Array]. *)
Definition charCodeAt_u8 (s : string) (i : nat) : byte :=
  match String.get i s with
  | Some c => byte_of_ascii c
  | None => x00
  end.

(** [String.fromCharCode(bytes[i])]. *)
Definition fromCharCode_u8 (bytes : list byte) (i : nat) : string :=
  String (ascii_of_byte (default x00 (bytes !! i))) EmptyString.

Definition decode (base64 : string) : result (list byte) :=
  bind_result (atob base64) (fun binaryString =>
    let len := String.length binaryString in
    let bytes := replicate len x00 in
    Ok (for_loop len
          (fun i bytes => <[i := charCodeAt_u8 binaryString i]> bytes)
          bytes)).

Definition encode (bytes : list byte) : string :=
  let len := length bytes in
  let binary :=
    for_loop len (fun i binary => (binary ++ fromCharCode_u8 bytes i)%string)
             EmptyString in
  btoa binary.

(** The [int16] array of [createBlob] after its loop. *)
Definition createBlob_int16 (data : list number) : list Z :=
  let l := length data in
  let int16 := replicate l 0 in
  for_loop l
    (fun i int16 =>
       <[i := ToInt16 (mul_const (default NaN (data !! i)) 32768)]> int16)
    int16.

Record Blob : Type := {
  data : string;
  mimeType : string
}.

Definition createBlob (samples : list number) : Blob :=
  {| data := encode (Uint8Array_of_Int16Array (createBlob_int16 samples));
     mimeType := "audio/pcm;rate=16000" |}.

(** The inner loop of [decodeAudioData] over one channel. *)
Definition fill_channel (dataInt16 : list Z) (numChannels channel : nat)
    (frameCount : number) (channelData : list number) : list number :=
  for_loop (iterations frameCount)
    (fun i channelData =>
       <[i := div_32768 (dataInt16 !! (i * numChannels + channel)%nat)]> channelData)
    channelData.

(** [decodeAudioData(data, ctx, sampleRate, numChannels)] reads its input
    through [data.buffer] only: [bytes] is that buffer, all of it, which is
    the input itself when the input spans its buffer. *)
Definition decodeAudioData (bytes : list byte) (ctx : AudioContext)
    (rate : positive) (numChannels : nat) : result AudioBuffer :=
  bind_result (Int16Array_of_buffer bytes) (fun dataInt16 =>
    let frameCount := div_lengths (length dataInt16) numChannels in
    bind_result (createBuffer ctx numChannels frameCount rate) (fun buffer =>
      Ok (for_loop numChannels
            (fun channel buffer =>
               let channelData := getChannelData buffer channel in
               setChannelData buffer channel
                 (fill_channel dataInt16 numChannels channel frameCount channelData))
            buffer))).

End GeminiService.

(** ** App.tsx: the voice session callbacks of the [App] component *)

Module App.
Import Platform GeminiService.

(** *** types.ts *)

Inductive MessageSender : Type :=
| USER
| MODEL
| SYSTEM.

Record ChatMessage : Type := {
  id : string;
  text : string;
  sender : MessageSender;
  timestamp : N
}.

(** *** Messages of the live session ([LiveServerMessage]) *)

(** Every field is optional in the session's message type; [None] is
    [undefined]. *)
Record Transcription : Type := { transcript : option string }.

Record Part : Type := { inlineData : option (option string) }.

Record Content : Type := { parts : option (list Part) }.

Record ServerContent : Type := {
  inputTranscription : option Transcription;
  outputTranscription : option Transcription;
  turnComplete : bool;
  modelTurn : option Content;
  interrupted : bool
}.

Record LiveServerMessage : Type := { serverContent : option ServerContent }.

(** *** Functions passed to [setChatMessages]

    What a function [prev => ...] of the session callbacks reads when React
    calls it: [Date.now()] and the two transcript variables it closes
    over. *)
Record Reads : Type := {
  read_Date_now : N;
  read_currentInputTranscription : string;
  read_currentOutputTranscription : string
}.

Definition Updater : Type := Reads -> list ChatMessage -> list ChatMessage.

(** [prev => [...prev, message]], the message being built when the
    function is called. *)
Definition appendMessage (message : Reads -> ChatMessage) : Updater :=
  fun reads prev => prev ++ [message reads].

(** *** The session state

    The conversation React holds and the functions queued for it, the refs
    and variables the callbacks close over, followed by the part of the
    outside world they act on: the next audio source node that
    [createBufferSource] hands out and the calls made on media tracks,
    audio contexts and source nodes so far.  [isRecording] is React state
    as well; its setter is only given a value, which is the same whenever
    React applies it, so the flag is recorded when the setter is called. *)

Record MediaStream : Type := { tracks : list nat }.

Inductive Effect : Type :=
| TrackStop (track : nat)
| ContextClose (ctx : nat)
| SourceStart (source : nat) (buffer : AudioBuffer) (when : Q)
| SourceStop (source : nat)
| ConsoleError (message : string).

Record VoiceState : Type := {
  chatMessages : list ChatMessage;
  queuedChatUpdates : list Updater;
  isRecording : bool;
  sessionPromiseRef : option nat;
  outputAudioContextRef : option AudioContext;
  inputAudioContextRef : option AudioContext;
  mediaStreamRef : option MediaStream;
  nextStartTimeRef : Q;
  audioSourcesRef : list nat;
  currentInputTranscription : string;
  currentOutputTranscription : string;
  nextSource : nat;
  effects : list Effect
}.

Definition set_chatMessages (v : list ChatMessage) (s : VoiceState) : VoiceState :=
  {| chatMessages := v; queuedChatUpdates := queuedChatUpdates s;
     isRecording := isRecording s;
     sessionPromiseRef := sessionPromiseRef s;
     outputAudioContextRef := outputAudioContextRef s;
     inputAudioContextRef := inputAudioContextRef s;
     mediaStreamRef := mediaStreamRef s;
     nextStartTimeRef := nextStartTimeRef s;
     audioSourcesRef := audioSourcesRef s;
     currentInputTranscription := currentInputTranscription s;
     currentOutputTranscription := currentOutputTranscription s;
     nextSource := nextSource s; effects := effects s |}.

Definition set_queuedChatUpdates (v : list Updater) (s : VoiceState) : VoiceState :=
  {| chatMessages := chatMessages s; queuedChatUpdates := v;
     isRecording := isRecording s;
     sessionPromiseRef := sessionPromiseRef s;
     outputAudioContextRef := outputAudioContextRef s;
     inputAudioContextRef := inputAudioContextRef s;
     mediaStreamRef := mediaStreamRef s;
     nextStartTimeRef := nextStartTimeRef s;
     audioSourcesRef := audioSourcesRef s;
     currentInputTranscription := currentInputTranscription s;
     currentOutputTranscription := currentOutputTranscription s;
     nextSource := nextSource s; effects := effects s |}.

Definition set_isRecording (v : bool) (s : VoiceState) : VoiceState :=
  {| chatMessages := chatMessages s; queuedChatUpdates := queuedChatUpdates s;
     isRecording := v;
     sessionPromiseRef := sessionPromiseRef s;
     outputAudioContextRef := outputAudioContextRef s;
     inputAudioContextRef := inputAudioContextRef s;
     mediaStreamRef := mediaStreamRef s;
     nextStartTimeRef := nextStartTimeRef s;
     audioSourcesRef := audioSourcesRef s;
     currentInputTranscription := currentInputTranscription s;
     currentOutputTranscription := currentOutputTranscription s;
     nextSource := nextSource s; effects := effects s |}.

Definition set_sessionPromiseRef (v : option nat) (s : VoiceState) : VoiceState :=
  {| chatMessages := chatMessages s; queuedChatUpdates := queuedChatUpdates s;
     isRecording := isRecording s;
     sessionPromiseRef := v;
     outputAudioContextRef := outputAudioContextRef s;
     inputAudioContextRef := inputAudioContextRef s;
     mediaStreamRef := mediaStreamRef s;
     nextStartTimeRef := nextStartTimeRef s;
     audioSourcesRef := audioSourcesRef s;
     currentInputTranscription := currentInputTranscription s;
     currentOutputTranscription := currentOutputTranscription s;
     nextSource := nextSource s; effects := effects s |}.

Definition set_outputAudioContextRef (v : option AudioContext) (s : VoiceState)
    : VoiceState :=
  {| chatMessages := chatMessages s; queuedChatUpdates := queuedChatUpdates s;
     isRecording := isRecording s;
     sessionPromiseRef := sessionPromiseRef s;
     outputAudioContextRef := v;
     inputAudioContextRef := inputAudioContextRef s;
     mediaStreamRef := mediaStreamRef s;
     nextStartTimeRef := nextStartTimeRef s;
     audioSourcesRef := audioSourcesRef s;
     currentInputTranscription := currentInputTranscription s;
     currentOutputTranscription := currentOutputTranscription s;
     nextSource := nextSource s; effects := effects s |}.

Definition set_inputAudioContextRef (v : option AudioContext) (s : VoiceState)
    : VoiceState :=
  {| chatMessages := chatMessages s; queuedChatUpdates := queuedChatUpdates s;
     isRecording := isRecording s;
     sessionPromiseRef := sessionPromiseRef s;
     outputAudioContextRef := outputAudioContextRef s;
     inputAudioContextRef := v;
     mediaStreamRef := mediaStreamRef s;
     nextStartTimeRef := nextStartTimeRef s;
     audioSourcesRef := audioSourcesRef s;
     currentInputTranscription := currentInputTranscription s;
     currentOutputTranscription := currentOutputTranscription s;
     nextSource := nextSource s; effects := effects s |}.

Definition set_mediaStreamRef (v : option MediaStream) (s : VoiceState) : VoiceState :=
  {| chatMessages := chatMessages s; queuedChatUpdates := queuedChatUpdates s;
     isRecording := isRecording s;
     sessionPromiseRef := sessionPromiseRef s;
     outputAudioContextRef := outputAudioContextRef s;
     inputAudioContextRef := inputAudioContextRef s;
     mediaStreamRef := v;
     nextStartTimeRef := nextStartTimeRef s;
     audioSourcesRef := audioSourcesRef s;
     currentInputTranscription := currentInputTranscription s;
     currentOutputTranscription := currentOutputTranscription s;
     nextSource := nextSource s; effects := effects s |}.

Definition set_nextStartTimeRef (v : Q) (s : VoiceState) : VoiceState :=
  {| chatMessages := chatMessages s; queuedChatUpdates := queuedChatUpdates s;
     isRecording := isRecording s;
     sessionPromiseRef := sessionPromiseRef s;
     outputAudioContextRef := outputAudioContextRef s;
     inputAudioContextRef := inputAudioContextRef s;
     mediaStreamRef := mediaStreamRef s;
     nextStartTimeRef := v;
     audioSourcesRef := audioSourcesRef s;
     currentInputTranscription := currentInputTranscription s;
     currentOutputTranscription := currentOutputTranscription s;
     nextSource := nextSource s; effects := effects s |}.

Definition set_audioSourcesRef (v : list nat) (s : VoiceState) : VoiceState :=
  {| chatMessages := chatMessages s; queuedChatUpdates := queuedChatUpdates s;
     isRecording := isRecording s;
     sessionPromiseRef := sessionPromiseRef s;
     outputAudioContextRef := outputAudioContextRef s;
     inputAudioContextRef := inputAudioContextRef s;
     mediaStreamRef := mediaStreamRef s;
     nextStartTimeRef := nextStartTimeRef s;
     audioSourcesRef := v;
     currentInputTranscription := currentInputTranscription s;
     currentOutputTranscription := currentOutputTranscription s;
     nextSource := nextSource s; effects := effects s |}.

Definition set_currentInputTranscription (v : string) (s : VoiceState) : VoiceState :=
  {| chatMessages := chatMessages s; queuedChatUpdates := queuedChatUpdates s;
     isRecording := isRecording s;
     sessionPromiseRef := sessionPromiseRef s;
     outputAudioContextRef := outputAudioContextRef s;
     inputAudioContextRef := inputAudioContextRef s;
     mediaStreamRef := mediaStreamRef s;
     nextStartTimeRef := nextStartTimeRef s;
     audioSourcesRef := audioSourcesRef s;
     currentInputTranscription := v;
     currentOutputTranscription := currentOutputTranscription s;
     nextSource := nextSource s; effects := effects s |}.

Definition set_currentOutputTranscription (v : string) (s : VoiceState) : VoiceState :=
  {| chatMessages := chatMessages s; queuedChatUpdates := queuedChatUpdates s;
     isRecording := isRecording s;
     sessionPromiseRef := sessionPromiseRef s;
     outputAudioContextRef := outputAudioContextRef s;
     inputAudioContextRef := inputAudioContextRef s;
     mediaStreamRef := mediaStreamRef s;
     nextStartTimeRef := nextStartTimeRef s;
     audioSourcesRef := audioSourcesRef s;
     currentInputTranscription := currentInputTranscription s;
     currentOutputTranscription := v;
     nextSource := nextSource s; effects := effects s |}.

Definition set_nextSource (v : nat) (s : VoiceState) : VoiceState :=
  {| chatMessages := chatMessages s; queuedChatUpdates := queuedChatUpdates s;
     isRecording := isRecording s;
     sessionPromiseRef := sessionPromiseRef s;
     outputAudioContextRef := outputAudioContextRef s;
     inputAudioContextRef := inputAudioContextRef s;
     mediaStreamRef := mediaStreamRef s;
     nextStartTimeRef := nextStartTimeRef s;
     audioSourcesRef := audioSourcesRef s;
     currentInputTranscription := currentInputTranscription s;
     currentOutputTranscription := currentOutputTranscription s;
     nextSource := v; effects := effects s |}.

(** Record the calls [es] made on the outside world. *)
Definition perform (es : list Effect) (s : VoiceState) : VoiceState :=
  {| chatMessages := chatMessages s; queuedChatUpdates := queuedChatUpdates s;
     isRecording := isRecording s;
     sessionPromiseRef := sessionPromiseRef s;
     outputAudioContextRef := outputAudioContextRef s;
     inputAudioContextRef := inputAudioContextRef s;
     mediaStreamRef := mediaStreamRef s;
     nextStartTimeRef := nextStartTimeRef s;
     audioSourcesRef := audioSourcesRef s;
     currentInputTranscription := currentInputTranscription s;
     currentOutputTranscription := currentOutputTranscription s;
     nextSource := nextSource s;
     effects := effects s ++ es |}.

(** *** Callbacks as state transformers that may throw

    A callback runs to completion on the state; when it throws, the
    assignments made before the throw stay. *)

Definition M (A : Type) : Type := VoiceState -> VoiceState * result A.

Definition ret {A : Type} (a : A) : M A := fun s => (s, Ok a).

Definition bind {A B : Type} (m : M A) (k : A -> M B) : M B :=
  fun s =>
    match m s with
    | (s', Ok a) => k a s'
    | (s', Throw e) => (s', Throw e)
    end.

Definition get : M VoiceState := fun s => (s, Ok s).

Definition modify (f : VoiceState -> VoiceState) : M unit := fun s => (f s, Ok tt).

Definition lift {A : Type} (r : result A) : M A := fun s => (s, r).

Definition when_ (b : bool) (m : M unit) : M unit := if b then m else ret tt.

Notation "x <- m ;; k" := (bind m (fun x => k))
  (at level 100, m at next level, right associativity).
Notation "m ;;; k" := (bind m (fun _ => k))
  (at level 100, right associativity).

(** What is read from the outside: the clock of the output audio context,
    in seconds, by a callback when it runs, and [Date.now()], by the
    functions React calls when it renders. *)
Record Env : Type := {
  currentTime : Q;
  dateNow : N
}.

Definition string_of_N (n : N) : string := NilEmpty.string_of_uint (N.to_uint n).

(** A string in a condition: true unless empty. *)
Definition truthy (s : string) : bool :=
  match s with
  | EmptyString => false
  | _ => true
  end.

(** A possibly undefined string appended to a string. *)
Definition to_text (t : option string) : string :=
  match t with
  | Some s => s
  | None => "undefined"
  end.

(** [setChatMessages(updater)]: the function is queued, not called. *)
Definition setChatMessages (updater : Updater) : M unit :=
  modify (fun s => set_queuedChatUpdates (queuedChatUpdates s ++ [updater]) s).

(** A render: React calls the queued functions, oldest first, each on the
    conversation the one before returned.  They read the clock and the
    transcript variables as they are now. *)
Definition render (env : Env) (s : VoiceState) : VoiceState :=
  let reads :=
    {| read_Date_now := dateNow env;
       read_currentInputTranscription := currentInputTranscription s;
       read_currentOutputTranscription := currentOutputTranscription s |} in
  set_queuedChatUpdates []
    (set_chatMessages
       (fold_left (fun prev (updater : Updater) => updater reads prev)
          (queuedChatUpdates s) (chatMessages s))
       s).

(** *** handleCleanup *)

Definition is_closed (st : AudioContextState) : bool :=
  match st with
  | closed => true
  | _ => false
  end.

(** [ctx.close()] on a context that is not closed already. *)
Definition close_context (ref : option AudioContext) (s : VoiceState) : VoiceState :=
  match ref with
  | Some ctx => if is_closed (ctx_state ctx) then s else perform [ContextClose (ctx_id ctx)] s
  | None => s
  end.

Definition handleCleanup (s : VoiceState) : VoiceState :=
  let s :=
    match mediaStreamRef s with
    | Some stream => set_mediaStreamRef None (perform (map TrackStop (tracks stream)) s)
    | None => s
    end in
  let s := close_context (inputAudioContextRef s) s in
  let s := set_inputAudioContextRef None s in
  let s := close_context (outputAudioContextRef s) s in
  let s := set_outputAudioContextRef None s in
  let s := perform (map SourceStop (audioSourcesRef s)) s in
  let s := set_audioSourcesRef [] s in
  let s := set_nextStartTimeRef 0%Q s in
  let s := set_sessionPromiseRef None s in
  set_isRecording false s.

(** *** onmessage *)

(** [message.serverContent?.modelTurn?.parts[0]?.inlineData?.data]: the
    access [parts[0]] is not optional and throws when [parts] is
    undefined. *)
Definition base64Audio (message : LiveServerMessage) : result (option string) :=
  match serverContent message with
  | None => Ok None
  | Some content =>
      match modelTurn content with
      | None => Ok None
      | Some turn =>
          match parts turn with
          | None => Throw TypeError
          | Some ps =>
              match ps !! 0%nat with
              | None => Ok None
              | Some part =>
                  match inlineData part with
                  | None => Ok None
                  | Some blobData => Ok blobData
                  end
              end
          end
      end
  end.

Definition field {A : Type} (f : ServerContent -> option A) (message : LiveServerMessage)
    : option A :=
  match serverContent message with
  | Some content => f content
  | None => None
  end.

Definition flag (f : ServerContent -> bool) (message : LiveServerMessage) : bool :=
  match serverContent message with
  | Some content => f content
  | None => false
  end.

(** The body of [if (base64Audio && outputAudioContextRef.current)]. *)
Definition schedule (env : Env) (audio : string) (ctx : AudioContext) : M unit :=
  modify (fun s => set_nextStartTimeRef (Qmax (nextStartTimeRef s) (currentTime env)) s) ;;;
  bytes <- lift (decode audio) ;;
  audioBuffer <- lift (decodeAudioData bytes ctx 24000 1) ;;
  s <- get ;;
  let source := nextSource s in
  modify (set_nextSource (S source)) ;;;
  modify (perform [SourceStart source audioBuffer (nextStartTimeRef s)]) ;;;
  modify (fun s => set_nextStartTimeRef (nextStartTimeRef s + duration audioBuffer)%Q s) ;;;
  modify (fun s => set_audioSourcesRef (audioSourcesRef s ++ [source]) s).

(** The body of [if (message.serverContent?.interrupted)]. *)
Definition interrupt : M unit :=
  modify (fun s => perform (map SourceStop (audioSourcesRef s)) s) ;;;
  modify (set_audioSourcesRef []) ;;;
  modify (set_nextStartTimeRef 0%Q).

(** The object literals of the two functions the turn-completion branch
    passes to [setChatMessages]: [text: currentInputTranscription] and
    [Date.now()] are evaluated when React calls the function. *)
Definition userVoiceMessage (reads : Reads) : ChatMessage :=
  {| id := "user-voice-" ++ string_of_N (read_Date_now reads);
     text := read_currentInputTranscription reads;
     sender := USER;
     timestamp := read_Date_now reads |}.

Definition modelVoiceMessage (reads : Reads) : ChatMessage :=
  {| id := "model-voice-" ++ string_of_N (read_Date_now reads);
     text := read_currentOutputTranscription reads;
     sender := MODEL;
     timestamp := read_Date_now reads |}.

Definition onmessage (env : Env) (message : LiveServerMessage) : M unit :=
  match field inputTranscription message with
  | Some t =>
      modify (fun s =>
        set_currentInputTranscription
          (currentInputTranscription s ++ to_text (transcript t))%string s)
  | None => ret tt
  end ;;;
  match field outputTranscription message with
  | Some t =>
      modify (fun s =>
        set_currentOutputTranscription
          (currentOutputTranscription s ++ to_text (transcript t))%string s)
  | None => ret tt
  end ;;;
  when_ (flag turnComplete message)
    (s <- get ;;
     when_ (truthy (currentInputTranscription s))
       (setChatMessages (appendMessage userVoiceMessage)) ;;;
     when_ (truthy (currentOutputTranscription s))
       (setChatMessages (appendMessage modelVoiceMessage)) ;;;
     modify (set_currentInputTranscription "") ;;;
     modify (set_currentOutputTranscription "")) ;;;
  audio <- lift (base64Audio message) ;;
  s <- get ;;
  match audio, outputAudioContextRef s with
  | Some audio, Some ctx => when_ (truthy audio) (schedule env audio ctx)
  | _, _ => ret tt
  end ;;;
  when_ (flag interrupted message) interrupt.

(** The ['ended'] listener of a source node. *)
Definition onended (source : nat) (s : VoiceState) : VoiceState :=
  set_audioSourcesRef (filter (fun x => x <> source) (audioSourcesRef s)) s.

(** The status messages of [onclose] and [onerror]; their text is fixed
    when the callback runs, their id and time when React calls the
    function. *)
Definition statusMessage (prefix text : string) (reads : Reads) : ChatMessage :=
  {| id := prefix ++ string_of_N (read_Date_now reads);
     text := text;
     sender := SYSTEM;
     timestamp := read_Date_now reads |}.

Definition onclose (env : Env) (s : VoiceState) : VoiceState :=
  let s :=
    set_queuedChatUpdates
      (queuedChatUpdates s ++ [appendMessage (statusMessage "status-" "Voice session closed.")])
      s in
  handleCleanup s.

Definition onerror (env : Env) (message : string) (s : VoiceState) : VoiceState :=
  let s := perform [ConsoleError "Live session error:"] s in
  let s :=
    set_queuedChatUpdates
      (queuedChatUpdates s
       ++ [appendMessage (statusMessage "err-" ("Voice session error: " ++ message))])
      s in
  handleCleanup s.

(** *** The events of a session

    The session delivers its messages one at a time, each callback
    running to completion before the next; a callback that throws leaves
    the session running. *)

Inductive InboundEvent : Type :=
| InputTranscriptChunk (t : string)
| OutputTranscriptChunk (t : string)
| TurnComplete
| AudioChunk (payload : string)
| Interrupted.

(** The message that carries exactly one event. *)
Definition message_of (e : InboundEvent) : LiveServerMessage :=
  {| serverContent := Some
     match e with
     | InputTranscriptChunk t =>
         {| inputTranscription := Some {| transcript := Some t |};
            outputTranscription := None;
            turnComplete := false; modelTurn := None; interrupted := false |}
     | OutputTranscriptChunk t =>
         {| inputTranscription := None;
            outputTranscription := Some {| transcript := Some t |};
            turnComplete := false; modelTurn := None; interrupted := false |}
     | TurnComplete =>
         {| inputTranscription := None; outputTranscription := None;
            turnComplete := true; modelTurn := None; interrupted := false |}
     | AudioChunk payload =>
         {| inputTranscription := None; outputTranscription := None;
            turnComplete := false;
            modelTurn := Some {| parts := Some [{| inlineData := Some (Some payload) |}] |};
            interrupted := false |}
     | Interrupted =>
         {| inputTranscription := None; outputTranscription := None;
            turnComplete := false; modelTurn := None; interrupted := true |}
     end |}.

(** The state after the session has delivered the messages [ms], each
    with what the callback reads from the outside. *)
Definition deliver (ms : list (Env * LiveServerMessage)) (s : VoiceState) : VoiceState :=
  fold_left (fun s em => fst (onmessage (fst em) (snd em) s)) ms s.

(** The state of a session that has just opened: recording, both contexts
    running, nothing transcribed and nothing scheduled yet. *)
Definition sessionOpened : VoiceState :=
  {| chatMessages := [];
     queuedChatUpdates := [];
     isRecording := true;
     sessionPromiseRef := Some 1%nat;
     outputAudioContextRef := Some (standardContext 2);
     inputAudioContextRef := Some (standardContext 1);
     mediaStreamRef := Some {| tracks := [1%nat] |};
     nextStartTimeRef := 0;
     audioSourcesRef := [];
     currentInputTranscription := "";
     currentOutputTranscription := "";
     nextSource := 0;
     effects := [] |}.

(** The chunks started so far, each with its start time and duration. *)
Definition scheduled (es : list Effect) : list (Q * Q) :=
  flat_map
    (fun e =>
       match e with
       | SourceStart _ buffer when => [(when, duration buffer)]
       | _ => []
       end) es.

End App.

(** ** services/audioService.ts: WAV files from recorded audio

    The samples are 32-bit floats: their products with [0x8000] and
    [0x7FFF] are exact in double precision, and so is the product of a
    sample rate with 2 unless it overflows (a rate that large is a multiple
    of 2^32 and is written as 0 either way), so the arithmetic is done in
    [Q]. *)

Module AudioService.
Import Platform.

(** *** The platform: [Math.min], [Math.max], typed-array [set], [DataView] *)

Definition Math_min (a b : number) : number :=
  match a, b with
  | NaN, _ | _, NaN => NaN
  | NegInf, _ | _, NegInf => NegInf
  | PosInf, x | x, PosInf => x
  | Fin p, Fin q => Fin (Qmin p q)
  end.

Definition Math_max (a b : number) : number :=
  match a, b with
  | NaN, _ | _, NaN => NaN
  | PosInf, _ | _, PosInf => PosInf
  | NegInf, x | x, NegInf => x
  | Fin p, Fin q => Fin (Qmax p q)
  end.

(** [x < 0]. *)
Definition negative (x : number) : bool :=
  match x with
  | Fin q => negb (Qle_bool 0 q)
  | NegInf => true
  | _ => false
  end.

(** ECMAScript ToUint32, ToUint16 and ToUint8: non-finite values become 0,
    finite ones are truncated and reduced modulo 2^bits. *)
Definition ToUint (bits : Z) (x : number) : Z :=
  match x with
  | Fin q => Qtrunc q mod 2 ^ bits
  | _ => 0
  end.

(** [target.set(source, offset)] on typed arrays: a [RangeError] when the
    source does not fit. *)
Definition set {A : Type} (target source : list A) (offset : nat) : result (list A) :=
  if (offset + length source <=? length target)%nat
  then Ok (take offset target ++ source ++ drop (offset + length source) target)
  else Throw RangeError.

(** The little-endian bytes of an integer. *)
Fixpoint le_bytes (n : nat) (v : Z) : list byte :=
  match n with
  | O => []
  | S n => byte_of_Z (v mod 256) :: le_bytes n (v / 256)
  end.

(** A [DataView] over a whole buffer is the list of the buffer's bytes; its
    setters throw a [RangeError] when the write leaves the buffer. *)
Definition setUint8 (view : list byte) (byteOffset : nat) (value : number)
    : result (list byte) :=
  set view (le_bytes 1 (ToUint 8 value)) byteOffset.

Definition setUint16 (view : list byte) (byteOffset : nat) (value : number)
    : result (list byte) :=
  set view (le_bytes 2 (ToUint 16 value)) byteOffset.

Definition setUint32 (view : list byte) (byteOffset : nat) (value : number)
    : result (list byte) :=
  set view (le_bytes 4 (ToUint 32 value)) byteOffset.

Definition setInt16 (view : list byte) (byteOffset : nat) (value : number)
    : result (list byte) :=
  set view (le_bytes 2 (ToInt16 value)) byteOffset.

(** [str.charCodeAt(i)]. *)
Definition charCodeAt (str : string) (i : nat) : number :=
  match String.get i str with
  | Some c => Fin (inject_Z (Z.of_N (N_of_ascii c)))
  | None => NaN
  end.

(** The number that is the length of an array. *)
Definition of_length (n : nat) : number := Fin (inject_Z (Z.of_nat n)).

(** *** The functions of the file *)

Definition writeString (view : list byte) (offset : nat) (str : string)
    : result (list byte) :=
  for_loop (String.length str)
    (fun i view => bind_result view (fun view =>
       setUint8 view (offset + i) (charCodeAt str i)))
    (Ok view).

(** The value [floatTo16BitPCM] hands to [setInt16] for one sample. *)
Definition scaled (x : number) : number :=
  let s := Math_max (Fin (-1)) (Math_min (Fin 1) x) in
  if negative s then mul_const s 32768 else mul_const s 32767.

Definition floatTo16BitPCM (output : list byte) (offset : nat) (input : list number)
    : result (list byte) :=
  fst
    (for_loop (length input)
       (fun i '(output, offset) =>
          (bind_result output (fun output =>
             setInt16 output offset (scaled (default NaN (input !! i)))),
           (offset + 2)%nat))
       (Ok output, offset)).

Record Blob : Type := {
  bytes : list byte;
  type : string
}.

Definition createWavBlob (audioChunks : list (list number)) (sampleRate : number)
    : result Blob :=
  let totalLength := fold_left (fun acc chunk => (acc + length chunk)%nat) audioChunks 0%nat in
  let pcmData := replicate totalLength (Fin 0) in
  let '(pcmData, _) :=
    fold_left
      (fun '(pcmData, offset) chunk =>
         (bind_result pcmData (fun pcmData => set pcmData chunk offset),
          (offset + length chunk)%nat))
      audioChunks (Ok pcmData, 0%nat) in
  bind_result pcmData (fun pcmData =>
  let numChannels := 1%nat in
  let bitsPerSample := 16%nat in
  let byteRate := mul_const (mul_const sampleRate 1) 2 in
  let blockAlign := (numChannels * (bitsPerSample / 8))%nat in
  let dataSize := (length pcmData * (bitsPerSample / 8))%nat in
  let fileSize := (36 + dataSize)%nat in
  let view := replicate (44 + dataSize) x00 in
  bind_result (writeString view 0 "RIFF") (fun view =>
  bind_result (setUint32 view 4 (of_length fileSize)) (fun view =>
  bind_result (writeString view 8 "WAVE") (fun view =>
  bind_result (writeString view 12 "fmt ") (fun view =>
  bind_result (setUint32 view 16 (Fin 16)) (fun view =>
  bind_result (setUint16 view 20 (Fin 1)) (fun view =>
  bind_result (setUint16 view 22 (of_length numChannels)) (fun view =>
  bind_result (setUint32 view 24 sampleRate) (fun view =>
  bind_result (setUint32 view 28 byteRate) (fun view =>
  bind_result (setUint16 view 32 (of_length blockAlign)) (fun view =>
  bind_result (setUint16 view 34 (of_length bitsPerSample)) (fun view =>
  bind_result (writeString view 36 "data") (fun view =>
  bind_result (setUint32 view 40 (of_length dataSize)) (fun view =>
  bind_result (floatTo16BitPCM view 44 pcmData) (fun view =>
  Ok {| bytes := view; type := "audio/wav" |}))))))))))))))).

End AudioService.

(** ** App.tsx: the URL groups of the knowledge base *)

Module KnowledgeBase.

Record URLGroup : Type := {
  id : string;
  name : string;
  urls : list string
}.

Definition GEMINI_DOCS_URLS : list string := [
  "https://ai.google.dev/gemini-api/docs";
  "https://ai.google.dev/gemini-api/docs/quickstart";
  "https://ai.google.dev/gemini-api/docs/api-key";
  "https://ai.google.dev/gemini-api/docs/libraries";
  "https://ai.google.dev/gemini-api/docs/models";
  "https://ai.google.dev/gemini-api/docs/pricing";
  "https://ai.google.dev/gemini-api/docs/rate-limits";
  "https://ai.google.dev/gemini-api/docs/billing";
  "https://ai.google.dev/gemini-api/docs/changelog"
]%string.

Definition MODEL_CAPABILITIES_URLS : list string := [
  "https://ai.google.dev/gemini-api/docs/text-generation";
  "https://ai.google.dev/gemini-api/docs/image-generation";
  "https://ai.google.dev/gemini-api/docs/video";
  "https://ai.google.dev/gemini-api/docs/speech-generation";
  "https://ai.google.dev/gemini-api/docs/music-generation";
  "https://ai.google.dev/gemini-api/docs/long-context";
  "https://ai.google.dev/gemini-api/docs/structured-output";
  "https://ai.google.dev/gemini-api/docs/thinking";
  "https://ai.google.dev/gemini-api/docs/function-calling";
  "https://ai.google.dev/gemini-api/docs/document-processing";
  "https://ai.google.dev/gemini-api/docs/image-understanding";
  "https://ai.google.dev/gemini-api/docs/video-understanding";
  "https://ai.google.dev/gemini-api/docs/audio";
  "https://ai.google.dev/gemini-api/docs/code-execution";
  "https://ai.google.dev/gemini-api/docs/grounding"
]%string.

Definition INITIAL_URL_GROUPS : list URLGroup := [
  {| id := "gemini-overview"; name := "Gemini Docs Overview"; urls := GEMINI_DOCS_URLS |};
  {| id := "model-capabilities"; name := "Model Capabilities";
     urls := MODEL_CAPABILITIES_URLS |};
  {| id := "custom-docs"; name := "My Custom Docs"; urls := [] |}
].

Definition MAX_URLS : nat := 20.

(** [array.includes(x)] on an array of strings. *)
Definition includes (l : list string) (x : string) : bool := existsb (String.eqb x) l.

(** [urlGroups.find(group => group.id === activeUrlGroupId)], then
    [activeGroup ? activeGroup.urls : []]. *)
Definition activeGroup (urlGroups : list URLGroup) (activeUrlGroupId : string)
    : option URLGroup :=
  find (fun group => String.eqb (id group) activeUrlGroupId) urlGroups.

Definition currentUrlsForChat (urlGroups : list URLGroup) (activeUrlGroupId : string)
    : list string :=
  match activeGroup urlGroups activeUrlGroupId with
  | Some group => urls group
  | None => []
  end.

(** The two handlers, as the functions they hand to [setUrlGroups]. *)
Definition handleAddUrl (activeUrlGroupId url : string) (prevGroups : list URLGroup)
    : list URLGroup :=
  map (fun group =>
         if String.eqb (id group) activeUrlGroupId
         then
           if (length (urls group) <? MAX_URLS)%nat && negb (includes (urls group) url)
           then {| id := id group; name := name group; urls := urls group ++ [url] |}
           else group
         else group)
      prevGroups.

Definition handleRemoveUrl (activeUrlGroupId urlToRemove : string)
    (prevGroups : list URLGroup) : list URLGroup :=
  map (fun group =>
         if String.eqb (id group) activeUrlGroupId
         then {| id := id group; name := name group;
                 urls := List.filter (fun url => negb (String.eqb url urlToRemove))
                           (urls group) |}
         else group)
      prevGroups.

End KnowledgeBase.

(** ** Notions used to state the properties *)

Import Platform GeminiService App.

(** *** Base64 *)

(** The 6-bit groups [btoa] writes, and the padding that follows them. *)
Fixpoint sextets (l : list N) : list N :=
  match l with
  | [] => []
  | [a] => [a / 4; (a mod 4) * 16]
  | [a; b] => [a / 4; (a mod 4) * 16 + b / 16; (b mod 16) * 4]
  | a :: b :: c :: rest =>
      a / 4 :: (a mod 4) * 16 + b / 16 :: (b mod 16) * 4 + c / 64 :: c mod 64
      :: sextets rest
  end%N.

Fixpoint padding (l : list N) : list ascii :=
  match l with
  | [] => []
  | [_] => [pad; pad]
  | [_; _] => [pad]
  | _ :: _ :: _ :: rest => padding rest
  end.

(** *** The frame codec *)

(** The frame encoder as the specification words it: the sample is clamped
    to [-1, 1], then scaled by 32767 when it is not negative and by 32768
    when it is, and rounded to the nearest integer. *)
Definition encodeFrame_sample (s : Q) : Z :=
  let clamped := Qmax (-1) (Qmin 1 s) in
  if Qle_bool 0 clamped
  then Qfloor (clamped * 32767 + (1 # 2))
  else Qfloor (clamped * 32768 + (1 # 2)).

(** [decodeAudioData] applied to the bytes of the text [createBlob]
    produced. *)
Definition codec_round_trip (samples : list number) (ctx : AudioContext)
    (rate : positive) (numChannels : nat) : result AudioBuffer :=
  bind_result (decode (data (createBlob samples)))
    (fun bytes => decodeAudioData bytes ctx rate numChannels).

(** *** Cleanup, transcripts and the playback cursor *)

(** The release calls [handleCleanup] makes for a context reference. *)
Definition closes (ref : option AudioContext) : list Effect :=
  match ref with
  | Some ctx => if is_closed (ctx_state ctx) then [] else [ContextClose (ctx_id ctx)]
  | None => []
  end.

(** The release calls [handleCleanup] makes for a media stream. *)
Definition stops (stream : option MediaStream) : list Effect :=
  match stream with
  | Some stream => map TrackStop (tracks stream)
  | None => []
  end.

(** The functions a turn completion queues for the conversation. *)
Definition flushed (s : VoiceState) : list Updater :=
  (if truthy (currentInputTranscription s) then [appendMessage userVoiceMessage] else [])
  ++ (if truthy (currentOutputTranscription s) then [appendMessage modelVoiceMessage] else []).

(** The text of the input chunks [ts], in order. *)
Definition chunks_text (ts : list string) : string :=
  fold_left (fun acc t => (acc ++ t)%string) ts EmptyString.

(** Chunks that follow one another: each starts no earlier than [lo], the
    end of the one before, and the last one ends no later than [hi]. *)
Fixpoint contiguous (lo : Q) (l : list (Q * Q)) (hi : Q) : Prop :=
  match l with
  | [] => (lo <= hi)%Q
  | (start, len) :: rest =>
      (lo <= start)%Q /\ (0 <= len)%Q /\ contiguous (start + len) rest hi
  end.

(** [s'] comes after [s] with no interruption in between: the chunks
    started since then follow one another from the cursor of [s] to the
    cursor of [s']. *)
Definition follows (s s' : VoiceState) : Prop :=
  exists new,
    scheduled (effects s') = scheduled (effects s) ++ new
    /\ contiguous (nextStartTimeRef s) new (nextStartTimeRef s').

(** A computation all of whose runs, whether they return or throw, take a
    state to a state related to it by [R]. *)
Definition preserved (R : VoiceState -> VoiceState -> Prop) {A : Type} (m : M A) : Prop :=
  forall s, R s (fst (m s)).

(** While the output context is released, the playback state stays as it
    is: the context reference, the cursor, the active set, the source nodes
    handed out and the calls made. *)
Definition playback_untouched (s s' : VoiceState) : Prop :=
  outputAudioContextRef s = None ->
  outputAudioContextRef s' = None
  /\ nextStartTimeRef s' = nextStartTimeRef s
  /\ audioSourcesRef s' = audioSourcesRef s
  /\ nextSource s' = nextSource s
  /\ effects s' = effects s.

(** *** The callbacks of a session, in the order they run *)

Inductive Callback : Type :=
| Message (env : Env) (message : LiveServerMessage)
| Ended (source : nat)
| Closed (env : Env)
| Failed (env : Env) (message : string)
| Rendered (env : Env).

Definition step (s : VoiceState) (c : Callback) : VoiceState :=
  match c with
  | Message env message => fst (onmessage env message s)
  | Ended source => onended source s
  | Closed env => onclose env s
  | Failed env message => onerror env message s
  | Rendered env => render env s
  end.

Definition run (cs : list Callback) (s : VoiceState) : VoiceState :=
  fold_left step cs s.

(** *** The calls made on source nodes *)

Definition started (es : list Effect) (source : nat) : Prop :=
  exists buffer when, In (SourceStart source buffer when) es.

Definition stopped (es : list Effect) (source : nat) : Prop :=
  In (SourceStop source) es.

(** A call that is not on a source node. *)
Definition quiet (e : Effect) : Prop :=
  match e with
  | SourceStart _ _ _ | SourceStop _ => False
  | _ => True
  end.

(** A trace in which every source is started at most once, and [stop] is
    only ever called on a source that was started before and has not been
    stopped yet. *)
Inductive orderly : list Effect -> Prop :=
| orderly_nil : orderly []
| orderly_start es source buffer when :
    orderly es -> ~ started es source ->
    orderly (es ++ [SourceStart source buffer when])
| orderly_stop es source :
    orderly es -> started es source -> ~ stopped es source ->
    orderly (es ++ [SourceStop source])
| orderly_quiet es e :
    orderly es -> quiet e -> orderly (es ++ [e]).

(** The active set agrees with the trace: its members are distinct, each
    has been started and not stopped, and the nodes handed out so far are
    the ones below [nextSource]. *)
Record sources_consistent (s : VoiceState) : Prop := {
  active_distinct : NoDup (audioSourcesRef s);
  active_playing :
    forall source, In source (audioSourcesRef s) ->
      started (effects s) source /\ ~ stopped (effects s) source;
  started_below : forall source, started (effects s) source -> (source < nextSource s)%nat;
  trace_orderly : orderly (effects s)
}.

(** The relation between the states before and after a callback that keeps
    that agreement. *)
Definition keeps_consistent (s s' : VoiceState) : Prop :=
  sources_consistent s -> sources_consistent s'.

(** The calls that release something. *)
Definition releases (es : list Effect) : list Effect :=
  List.filter
    (fun e => match e with ConsoleError _ | SourceStart _ _ _ => false | _ => true end) es.

(** The transcript text a message carries. *)
Definition input_text (message : LiveServerMessage) : string :=
  match field inputTranscription message with
  | Some t => to_text (transcript t)
  | None => EmptyString
  end.

Definition output_text (message : LiveServerMessage) : string :=
  match field outputTranscription message with
  | Some t => to_text (transcript t)
  | None => EmptyString
  end.


(** An audio payload that [onmessage] can decode for the context [ctx]. *)
Definition decodes (ctx : AudioContext) (payload : string) : Prop :=
  truthy payload = true
  /\ exists bytes audioBuffer,
      decode payload = Ok bytes /\ decodeAudioData bytes ctx 24000 1 = Ok audioBuffer.

(** The message [message] without its audio and its interruption. *)
Definition without_audio (message : LiveServerMessage) : LiveServerMessage :=
  {| serverContent :=
       match serverContent message with
       | Some content =>
           Some {| inputTranscription := inputTranscription content;
                   outputTranscription := outputTranscription content;
                   turnComplete := turnComplete content;
                   modelTurn := None;
                   interrupted := false |}
       | None => None
       end |}.

(** *** The audio of a message, transcripts, released sessions *)

(** What [onmessage] does after the transcripts and the turn: the audio of
    the message, then its interruption. *)
Definition audio_part (env : Env) (message : LiveServerMessage) : M unit :=
  audio <- lift (base64Audio message) ;;
  s <- get ;;
  match audio, outputAudioContextRef s with
  | Some audio, Some ctx => when_ (truthy audio) (schedule env audio ctx)
  | _, _ => ret tt
  end ;;;
  when_ (flag interrupted message) interrupt.

(** The state with the transcripts of [message] appended to the two
    transcript variables. *)
Definition transcribed (message : LiveServerMessage) (s : VoiceState) : VoiceState :=
  set_currentOutputTranscription
    (currentOutputTranscription s ++ output_text message)%string
    (set_currentInputTranscription
       (currentInputTranscription s ++ input_text message)%string s).

(** Two states with the same conversation, the same functions queued for
    it and the same transcripts. *)
Definition same_text (s s' : VoiceState) : Prop :=
  chatMessages s' = chatMessages s
  /\ queuedChatUpdates s' = queuedChatUpdates s
  /\ currentInputTranscription s' = currentInputTranscription s
  /\ currentOutputTranscription s' = currentOutputTranscription s.

(** Two states with the same session resources and playback state. *)
Definition same_playback (s s' : VoiceState) : Prop :=
  isRecording s' = isRecording s
  /\ sessionPromiseRef s' = sessionPromiseRef s
  /\ outputAudioContextRef s' = outputAudioContextRef s
  /\ inputAudioContextRef s' = inputAudioContextRef s
  /\ mediaStreamRef s' = mediaStreamRef s
  /\ nextStartTimeRef s' = nextStartTimeRef s
  /\ audioSourcesRef s' = audioSourcesRef s
  /\ nextSource s' = nextSource s
  /\ effects s' = effects s.

(** A session whose resources have all been released. *)
Definition released (s : VoiceState) : Prop :=
  mediaStreamRef s = None
  /\ inputAudioContextRef s = None
  /\ outputAudioContextRef s = None
  /\ audioSourcesRef s = [].

(** Calls that only write to the console. *)
Definition log_only (es : list Effect) : Prop :=
  Forall (fun e => match e with ConsoleError _ => True | _ => False end) es.

(** From a released session, [s'] is released too and only console output
    has been produced in between. *)
Definition stays_released (s s' : VoiceState) : Prop :=
  released s ->
  released s' /\ exists logs, effects s' = effects s ++ logs /\ log_only logs.

(** From a state in which the node [source] has been handed out and is
    not active, [s'] is such a state too, and no call in between starts or
    stops [source]. *)
Definition leaves_alone (source : nat) (s s' : VoiceState) : Prop :=
  (source < nextSource s)%nat -> ~ In source (audioSourcesRef s) ->
  (source < nextSource s')%nat
  /\ ~ In source (audioSourcesRef s')
  /\ exists new,
      effects s' = effects s ++ new /\ ~ started new source /\ ~ stopped new source.

(** *** Decoded samples *)

(** A sample of an audio buffer within the nominal range. *)
Definition nominal (x : number) : Prop :=
  exists q, x = Fin q /\ (-1 <= q)%Q /\ (q < 1)%Q.

(** *** WAV files *)

(** The bytes of a string of the program. *)
Definition string_bytes (str : string) : list byte :=
  map byte_of_ascii (list_ascii_of_string str).

(** The 16-bit sample [floatTo16BitPCM] writes for [x]. *)
Definition pcm16 (x : number) : Z := ToInt16 (AudioService.scaled x).

(** [view.getUint32(byteOffset, true)] and [view.getUint16(byteOffset, true)]
    on a view that holds the bytes. *)
Definition getUint (n : nat) (view : list byte) (byteOffset : nat) : Z :=
  fold_right (fun b acc => Z_of_byte b + 256 * acc) 0 (take n (drop byteOffset view)).

(** The 44 bytes [createWavBlob] puts before the samples. *)
Definition wav_header (samples : nat) (sampleRate : number) : list byte :=
  string_bytes "RIFF"
  ++ AudioService.le_bytes 4 (AudioService.ToUint 32 (AudioService.of_length (36 + 2 * samples)))
  ++ string_bytes "WAVE"
  ++ string_bytes "fmt "
  ++ AudioService.le_bytes 4 16
  ++ AudioService.le_bytes 2 1
  ++ AudioService.le_bytes 2 1
  ++ AudioService.le_bytes 4 (AudioService.ToUint 32 sampleRate)
  ++ AudioService.le_bytes 4 (AudioService.ToUint 32 (mul_const (mul_const sampleRate 1) 2))
  ++ AudioService.le_bytes 2 2
  ++ AudioService.le_bytes 2 16
  ++ string_bytes "data"
  ++ AudioService.le_bytes 4 (AudioService.ToUint 32 (AudioService.of_length (2 * samples))).

(** The number [AudioService.scaled] returns for a finite sample. *)
Definition scaled_Q (q : Q) : Q :=
  let s := Qmax (-1) (Qmin 1 q) in
  if negb (Qle_bool 0 s) then (s * 32768)%Q else (s * 32767)%Q.

(** *** URL groups *)

(** What the user does to the URL lists, with the group that is active at
    the time. *)
Inductive UrlAction : Type :=
| AddUrl (activeUrlGroupId url : string)
| RemoveUrl (activeUrlGroupId url : string).

Definition url_step (groups : list KnowledgeBase.URLGroup) (a : UrlAction)
    : list KnowledgeBase.URLGroup :=
  match a with
  | AddUrl active url => KnowledgeBase.handleAddUrl active url groups
  | RemoveUrl active url => KnowledgeBase.handleRemoveUrl active url groups
  end.

(** A group whose list respects the limit and holds no URL twice. *)
Definition tidy (group : KnowledgeBase.URLGroup) : Prop :=
  (length (KnowledgeBase.urls group) <= KnowledgeBase.MAX_URLS)%nat
  /\ List.NoDup (KnowledgeBase.urls group).


(** * Properties *)

(** ** The platform on known values *)

Example btoa_rfc4648 :
  map btoa ["f"; "fo"; "foo"; "foob"; "fooba"; "foobar"]%string
  = ["Zg=="; "Zm8="; "Zm9v"; "Zm9vYg=="; "Zm9vYmE="; "Zm9vYmFy"]%string.
Proof. reflexivity. Qed.

Example atob_forgiving :
  atob "Zm9v YmE=" = Ok "fooba"%string
  /\ atob "Zg" = Ok "f"%string
  /\ atob "Zg=" = Throw InvalidCharacterError
  /\ atob "Z" = Throw InvalidCharacterError
  /\ atob "Zm9v*mFy" = Throw InvalidCharacterError.
Proof. repeat split. Qed.

Example ToInt16_values :
  map ToInt16 [Fin 32767; Fin 32768; Fin (-32768); Fin (-32769); Fin (3 # 2);
               Fin (- (3 # 2)); Fin 65536; NaN; PosInf; NegInf]
  = [32767; -32768; -32768; 32767; 1; -1; 0; 0; 0; 0].
Proof. reflexivity. Qed.

Example Int16Array_little_endian :
  Int16Array_of_buffer [x34; x12; xff; xff; x00; x80] = Ok [4660; -1; -32768]
  /\ Uint8Array_of_Int16Array [4660; -1; -32768] = [x34; x12; xff; xff; x00; x80]
  /\ Int16Array_of_buffer [x34; x12; xff] = Throw RangeError.
Proof. repeat split. Qed.

(** ** Counted loops *)

Lemma for_loop_S {S : Type} (n : nat) (body : nat -> S -> S) (s : S) :
  for_loop (Datatypes.S n) body s = body n (for_loop n body s).
Proof.
  unfold for_loop. rewrite seq_S, fold_left_app. reflexivity.
Qed.

(** A loop that stores [f i] at index [i] for every [i] below [k] has
    rewritten the first [k] cells and left the others. *)
Lemma for_loop_insert_prefix {A : Type} (f : nat -> A) (init : list A) (k : nat) :
  (k <= length init)%nat ->
  for_loop k (fun i a => <[i := f i]> a) init = map f (seq 0 k) ++ drop k init.
Proof.
  induction k as [|k IH]; intros Hk.
  - reflexivity.
  - rewrite for_loop_S, IH by lia.
    destruct (lookup_lt_is_Some_2 init k ltac:(lia)) as [x Hx].
    rewrite (drop_S _ _ _ Hx).
    rewrite insert_app_r_alt by (rewrite length_map, length_seq; lia).
    rewrite length_map, length_seq, Nat.sub_diag.
    rewrite seq_S, map_app, <- app_assoc. reflexivity.
Qed.

Lemma for_loop_insert {A : Type} (f : nat -> A) (init : list A) :
  for_loop (length init) (fun i a => <[i := f i]> a) init
  = map f (seq 0 (length init)).
Proof.
  rewrite for_loop_insert_prefix by lia.
  rewrite drop_all. apply app_nil_r.
Qed.

(** Reading every cell of a list in turn gives the list back. *)
Lemma map_lookup_seq {A B : Type} (g : option A -> B) (l : list A) :
  map (fun i => g (l !! i)) (seq 0 (length l)) = map (fun x => g (Some x)) l.
Proof.
  induction l as [|x l IH] using rev_ind.
  - reflexivity.
  - rewrite length_app. change (length [x]) with 1%nat.
    rewrite Nat.add_1_r, seq_S, !map_app. cbn [map Nat.add].
    rewrite lookup_app_r, Nat.sub_diag by lia. cbn [lookup list_lookup]. f_equal.
    rewrite <- IH. apply map_ext_in. intros i Hi. apply in_seq in Hi.
    rewrite lookup_app_l by lia. reflexivity.
Qed.

(** ** Base64 text *)

(** Linear arithmetic with division and remainder by constants. *)
Ltac div_lia := zify; Z.to_euclidean_division_equations; lia.

Section Base64.

(** Induction over a list three elements at a time, the way [btoa] reads
    its input. *)
Lemma list_ind_triples {A : Type} (P : list A -> Prop) :
  P [] ->
  (forall a, P [a]) ->
  (forall a b, P [a; b]) ->
  (forall a b c rest, P rest -> P (a :: b :: c :: rest)) ->
  forall l, P l.
Proof.
  intros H0 H1 H2 H3 l.
  assert (H : P l /\ (forall a, P (a :: l)) /\ (forall a b, P (a :: b :: l))).
  { induction l as [|x l (IH0 & IH1 & IH2)]; [auto|].
    split; [apply IH1|]. split; [intros; apply IH2|].
    intros a b. apply H3, IH0. }
  apply H.
Qed.

Lemma btoa_groups_split (l : list N) :
  btoa_groups l = map b64_char (sextets l) ++ padding l.
Proof.
  induction l as [| a | a b | a b c rest IH] using list_ind_triples;
    try reflexivity.
  cbn [btoa_groups sextets padding map app]. rewrite IH. reflexivity.
Qed.

Lemma sextets_bound (l : list N) :
  Forall (fun n => (n < 256)%N) l -> Forall (fun n => (n < 64)%N) (sextets l).
Proof.
  induction l as [| a | a b | a b c rest IH] using list_ind_triples;
    intros H; cbn [sextets].
  - constructor.
  - inversion_clear H. repeat (constructor; [div_lia|]). constructor.
  - inversion_clear H as [|? ? Ha H']. inversion_clear H'.
    repeat (constructor; [div_lia|]). constructor.
  - inversion_clear H as [|? ? Ha H']. inversion_clear H' as [|? ? Hb H''].
    inversion_clear H'' as [|? ? Hc Hr].
    repeat (constructor; [div_lia|]). auto.
Qed.

Lemma atob_groups_sextets (l : list N) :
  Forall (fun n => (n < 256)%N) l -> atob_groups (sextets l) = l.
Proof.
  induction l as [| a | a b | a b c rest IH] using list_ind_triples;
    intros H; cbn [sextets atob_groups].
  - reflexivity.
  - inversion_clear H. f_equal. div_lia.
  - inversion_clear H as [|? ? Ha H']. inversion_clear H'.
    f_equal; [div_lia|]. f_equal. div_lia.
  - inversion_clear H as [|? ? Ha H']. inversion_clear H' as [|? ? Hb H''].
    inversion_clear H'' as [|? ? Hc Hr].
    rewrite IH by assumption.
    f_equal; [div_lia|]. f_equal; [div_lia|]. f_equal. div_lia.
Qed.

Lemma length_sextets_padding (l : list N) :
  ((length (sextets l) + length (padding l)) mod 4 = 0
   /\ length (sextets l) mod 4 <> 1)%nat.
Proof.
  induction l as [| a | a b | a b c rest IH] using list_ind_triples;
    cbn [sextets padding length]; try (split; [reflexivity | discriminate]).
  destruct IH as [IH1 IH2].
  replace (S (S (S (S (length (sextets rest))))) + length (padding rest))%nat
    with (length (sextets rest) + length (padding rest) + 1 * 4)%nat by lia.
  replace (S (S (S (S (length (sextets rest))))))
    with (length (sextets rest) + 1 * 4)%nat by lia.
  rewrite !Nat.Div0.mod_add. auto.
Qed.

Lemma padding_cases (l : list N) :
  padding l = [] \/ padding l = [pad] \/ padding l = [pad; pad].
Proof.
  induction l using list_ind_triples; cbn [padding]; auto.
Qed.

(** A boolean property of the 64 digit values is checked by running it. *)
Lemma below_64 (P : N -> bool) :
  forallb P (map N.of_nat (seq 0 64)) = true ->
  forall n, (n < 64)%N -> P n = true.
Proof.
  intros H n Hn. rewrite forallb_forall in H. apply H.
  apply in_map_iff. exists (N.to_nat n). split; [apply N2Nat.id|].
  apply in_seq. lia.
Qed.

Lemma b64_value_char (n : N) : (n < 64)%N -> b64_value (b64_char n) = Some n.
Proof.
  intros Hn.
  pose proof (below_64
    (fun n => match b64_value (b64_char n) with
              | Some m => N.eqb m n
              | None => false
              end) eq_refl n Hn) as H.
  cbv beta in H. destruct (b64_value (b64_char n)) as [m|]; [|discriminate].
  apply N.eqb_eq in H. congruence.
Qed.

Lemma b64_char_not_whitespace (n : N) :
  (n < 64)%N -> is_ascii_whitespace (b64_char n) = false.
Proof.
  intros Hn.
  pose proof (below_64 (fun n => negb (is_ascii_whitespace (b64_char n))) eq_refl n Hn) as H.
  cbv beta in H. apply negb_true_iff in H. exact H.
Qed.

Lemma b64_char_not_pad (n : N) : (n < 64)%N -> Ascii.eqb (b64_char n) pad = false.
Proof.
  intros Hn.
  pose proof (below_64 (fun n => negb (Ascii.eqb (b64_char n) pad)) eq_refl n Hn) as H.
  cbv beta in H. apply negb_true_iff in H. exact H.
Qed.

Lemma b64_values_chars (sx : list N) :
  Forall (fun n => (n < 64)%N) sx -> b64_values (map b64_char sx) = Some sx.
Proof.
  induction 1 as [|n sx Hn _ IH]; [reflexivity|].
  cbn [map b64_values]. rewrite b64_value_char, IH by assumption. reflexivity.
Qed.

Lemma filter_all {A : Type} (P : A -> Prop) `{forall x, Decision (P x)} (l : list A) :
  Forall P l -> filter P l = l.
Proof.
  induction 1 as [|x l Hx _ IH]; [reflexivity|].
  rewrite filter_cons_True by assumption. congruence.
Qed.

(** Removing the padding of a padded text leaves its digits. *)
Lemma strip_padding_digits (body pads : list ascii) :
  Forall (fun c => Ascii.eqb c pad = false) body ->
  pads = [] \/ pads = [pad] \/ pads = [pad; pad] ->
  strip_padding (body ++ pads) = body.
Proof.
  intros Hbody Hpads. unfold strip_padding. rewrite rev_app_distr.
  assert (Hhead : forall p r, rev body = p :: r -> Ascii.eqb p pad = false).
  { intros p r E. rewrite Forall_forall in Hbody. apply Hbody.
    apply list_elem_of_In, in_rev. rewrite E. left. reflexivity. }
  assert (Hnil : rev body = [] -> body = []).
  { intros E. rewrite <- (rev_involutive body), E. reflexivity. }
  destruct Hpads as [-> | [-> | ->]]; cbn [rev app].
  - rewrite app_nil_r.
    destruct (rev body) as [|p1 [|p2 r]] eqn:E; [reflexivity| |];
      rewrite (Hhead _ _ eq_refl); reflexivity.
  - destruct (rev body) as [|p2 r] eqn:E; cbn [app].
    + rewrite (Hnil eq_refl). reflexivity.
    + change (Ascii.eqb pad pad) with true. cbv iota.
      rewrite (Hhead _ _ eq_refl).
      change (rev r ++ [p2]) with (rev (p2 :: r)). rewrite <- E. apply rev_involutive.
  - change (Ascii.eqb pad pad) with true. cbv iota. apply rev_involutive.
Qed.

(** [atob] reads back what [btoa] wrote. *)
Lemma atob_btoa (binary : string) : atob (btoa binary) = Ok binary.
Proof.
  unfold atob, btoa.
  set (l := map N_of_ascii (list_ascii_of_string binary)).
  assert (Hl : Forall (fun n => (n < 256)%N) l).
  { apply Forall_forall. intros n Hn. apply list_elem_of_In, in_map_iff in Hn.
    destruct Hn as (c & <- & _). apply N_ascii_bounded. }
  pose proof (sextets_bound l Hl) as Hsx.
  rewrite list_ascii_of_string_of_list_ascii, btoa_groups_split.
  rewrite filter_all.
  2:{ apply Forall_app. split.
      - apply Forall_forall. intros c Hc.
        apply list_elem_of_In, in_map_iff in Hc. destruct Hc as (n & <- & Hn).
        apply b64_char_not_whitespace. rewrite Forall_forall in Hsx.
        apply Hsx, list_elem_of_In, Hn.
      - destruct (padding_cases l) as [-> | [-> | ->]];
          repeat constructor. }
  destruct (length_sextets_padding l) as [Hlen0 Hlen1].
  rewrite length_app, length_map, Hlen0. cbn [Nat.eqb].
  rewrite strip_padding_digits.
  2:{ apply Forall_forall. intros c Hc.
      apply list_elem_of_In, in_map_iff in Hc. destruct Hc as (n & <- & Hn).
      apply b64_char_not_pad. rewrite Forall_forall in Hsx.
      apply Hsx, list_elem_of_In, Hn. }
  2:{ apply padding_cases. }
  rewrite length_map.
  destruct (Nat.eqb_spec (length (sextets l) mod 4) 1) as [E|_]; [contradiction|].
  rewrite b64_values_chars, atob_groups_sextets by assumption.
  unfold l. rewrite map_map.
  rewrite (map_ext _ (fun c => c)) by apply ascii_N_embedding.
  rewrite map_id. f_equal. apply string_of_list_ascii_of_string.
Qed.

End Base64.

(** ** The transport encoding: [encode] and [decode] *)

Section Transport.

Lemma string_of_list_ascii_app (a b : list ascii) :
  string_of_list_ascii (a ++ b)
  = (string_of_list_ascii a ++ string_of_list_ascii b)%string.
Proof.
  induction a as [|c a IH]; [reflexivity|].
  cbn [app string_of_list_ascii String.append]. rewrite IH. reflexivity.
Qed.

Lemma get_list_ascii (s : string) (i : nat) :
  String.get i s = list_ascii_of_string s !! i.
Proof.
  revert i. induction s as [|c s IH]; intros [|i]; try reflexivity.
  cbn [String.get list_ascii_of_string]. apply IH.
Qed.

Lemma length_list_ascii (s : string) :
  length (list_ascii_of_string s) = String.length s.
Proof.
  induction s as [|c s IH]; [reflexivity|].
  cbn [list_ascii_of_string String.length length]. congruence.
Qed.

(** The string [encode] has built after [k] turns of its loop. *)
Lemma encode_loop_prefix (bytes : list byte) (k : nat) :
  (k <= length bytes)%nat ->
  for_loop k (fun i binary => (binary ++ fromCharCode_u8 bytes i)%string) EmptyString
  = string_of_list_ascii (map ascii_of_byte (take k bytes)).
Proof.
  induction k as [|k IH]; intros Hk; [reflexivity|].
  rewrite for_loop_S, IH by lia.
  destruct (lookup_lt_is_Some_2 bytes k ltac:(lia)) as [b Hb].
  rewrite (take_S_r _ _ _ Hb), map_app, string_of_list_ascii_app.
  unfold fromCharCode_u8. rewrite Hb. reflexivity.
Qed.

Lemma encode_binary (bytes : list byte) :
  encode bytes = btoa (string_of_list_ascii (map ascii_of_byte bytes)).
Proof.
  unfold encode. rewrite encode_loop_prefix, take_ge by lia. reflexivity.
Qed.

(** The array [decode] has filled once its loop is over. *)
Lemma decode_loop (binaryString : string) :
  for_loop (String.length binaryString)
    (fun i bytes => <[i := charCodeAt_u8 binaryString i]> bytes)
    (replicate (String.length binaryString) x00)
  = map byte_of_ascii (list_ascii_of_string binaryString).
Proof.
  pose proof (for_loop_insert (charCodeAt_u8 binaryString)
                (replicate (String.length binaryString) x00)) as H.
  rewrite length_replicate in H. rewrite H.
  rewrite <- length_list_ascii.
  rewrite <- (map_lookup_seq
                (fun o => match o with Some c => byte_of_ascii c | None => x00 end)).
  apply map_ext. intros i. unfold charCodeAt_u8.
  rewrite get_list_ascii. reflexivity.
Qed.

Lemma decode_atob (base64 : string) :
  decode base64
  = bind_result (atob base64)
      (fun binaryString => Ok (map byte_of_ascii (list_ascii_of_string binaryString))).
Proof.
  unfold decode. destruct (atob base64) as [binaryString|e]; [|reflexivity].
  cbn [bind_result]. rewrite decode_loop. reflexivity.
Qed.

End Transport.

(** C9.  Transport round trip: for every byte sequence, of any length,
    decoding the text that [encode] produces gives the bytes back, and does
    not throw. *)
Theorem decode_encode (bytes : list byte) : decode (encode bytes) = Ok bytes.
Proof.
  rewrite decode_atob, encode_binary, atob_btoa. cbn [bind_result].
  rewrite list_ascii_of_string_of_list_ascii, map_map.
  rewrite (map_ext _ (fun b => b)) by apply byte_of_ascii_of_byte.
  rewrite map_id. reflexivity.
Qed.

(** ** 16-bit samples *)

Section Int16.

(** Truncation toward zero: the quotient lies between zero and the
    fraction, less than one away from it. *)
Lemma quot_bounds (n : Z) (d : positive) :
  (0 <= n -> Z.pos d * Z.quot n (Z.pos d) <= n < Z.pos d * (Z.quot n (Z.pos d) + 1))
  /\ (n <= 0 -> Z.pos d * (Z.quot n (Z.pos d) - 1) < n <= Z.pos d * Z.quot n (Z.pos d)).
Proof.
  pose proof (Z.quot_rem' n (Z.pos d)) as E.
  split; intros Hn.
  - pose proof (Z.rem_bound_pos n (Z.pos d) Hn ltac:(lia)). lia.
  - pose proof (Z.rem_bound_pos_neg n (Z.pos d) ltac:(lia) Hn). lia.
Qed.

Lemma Qtrunc_scaled_range (s : Q) :
  (-1 <= s)%Q -> (s < 1)%Q -> -32768 <= Qtrunc (s * 32768) <= 32767.
Proof.
  destruct s as [n d]. unfold Qle, Qlt, Qtrunc. cbn [Qnum Qden Qmult].
  intros H1 H2. rewrite Pos.mul_1_r.
  destruct (quot_bounds (n * 32768) d) as [Hp Hn].
  destruct (Z_le_gt_dec 0 n).
  - specialize (Hp ltac:(lia)). nia.
  - specialize (Hn ltac:(lia)). nia.
Qed.

(** A store into an [Int16Array] keeps a value that fits in 16 bits. *)
Lemma ToInt16_fits (q : Q) :
  -32768 <= Qtrunc q <= 32767 -> ToInt16 (Fin q) = Qtrunc q.
Proof.
  intros H. unfold ToInt16. cbv zeta.
  destruct (Z.leb_spec 32768 (Qtrunc q mod 65536)); div_lia.
Qed.

Lemma Z_of_byte_of_Z (z : Z) : Z_of_byte (byte_of_Z z) = z mod 256.
Proof.
  unfold Z_of_byte, byte_of_Z.
  assert (Hlt : (Z.to_N (z mod 256) < 256)%N) by div_lia.
  rewrite (Byte.to_of_N (N_of_ascii (ascii_of_N (Z.to_N (z mod 256)))))
    by (symmetry; apply byte_of_ascii_via_N).
  rewrite N_ascii_embedding by exact Hlt. div_lia.
Qed.

Lemma int16_of_bytes_of_Z (v : Z) :
  -32768 <= v <= 32767 ->
  int16_of_bytes (byte_of_Z (v mod 256)) (byte_of_Z ((v / 256) mod 256)) = v.
Proof.
  intros H. unfold int16_of_bytes. rewrite !Z_of_byte_of_Z. cbv zeta.
  destruct (Z.leb_spec 32768 ((v mod 256) mod 256 + 256 * (((v / 256) mod 256) mod 256)));
    div_lia.
Qed.

Lemma int16_elements_of_int16 (a : list Z) :
  Forall (fun v => -32768 <= v <= 32767) a ->
  int16_elements (Uint8Array_of_Int16Array a) = a.
Proof.
  induction 1 as [|v a Hv _ IH]; [reflexivity|].
  cbn [Uint8Array_of_Int16Array flat_map app int16_elements].
  fold (Uint8Array_of_Int16Array a). rewrite IH, int16_of_bytes_of_Z by assumption.
  reflexivity.
Qed.

Lemma length_Uint8Array_of_Int16Array (a : list Z) :
  length (Uint8Array_of_Int16Array a) = (2 * length a)%nat.
Proof.
  induction a as [|v a IH]; [reflexivity|].
  cbn [Uint8Array_of_Int16Array flat_map app length].
  fold (Uint8Array_of_Int16Array a). rewrite IH. lia.
Qed.

Lemma length_int16_elements (buf : list byte) (n : nat) :
  length buf = (2 * n)%nat -> length (int16_elements buf) = n.
Proof.
  revert buf. induction n as [|n IH]; intros buf H.
  - destruct buf; [reflexivity | discriminate].
  - destruct buf as [|lo [|hi rest]]; try (cbn [length] in H; lia).
    cbn [int16_elements length]. f_equal. apply IH. cbn [length] in H. lia.
Qed.

(** The 16-bit view of the bytes of a 16-bit array is that array. *)
Lemma Int16Array_of_Uint8Array (a : list Z) :
  Forall (fun v => -32768 <= v <= 32767) a ->
  Int16Array_of_buffer (Uint8Array_of_Int16Array a) = Ok a.
Proof.
  intros H. unfold Int16Array_of_buffer.
  rewrite length_Uint8Array_of_Int16Array.
  replace (2 * length a)%nat with (0 + 2 * length a)%nat by lia.
  rewrite Nat.even_add_mul_2. cbn [Nat.even].
  rewrite int16_elements_of_int16 by assumption. reflexivity.
Qed.

(** The loop of [createBlob] converts its samples one by one. *)
Lemma createBlob_int16_map (samples : list number) :
  createBlob_int16 samples = map (fun x => ToInt16 (mul_const x 32768)) samples.
Proof.
  unfold createBlob_int16. cbv zeta.
  pose proof (for_loop_insert
                (fun i => ToInt16 (mul_const (default NaN (samples !! i)) 32768))
                (replicate (length samples) 0)) as H.
  rewrite length_replicate in H. rewrite H.
  apply (map_lookup_seq (fun o => ToInt16 (mul_const (default NaN o) 32768))).
Qed.

(** Below full scale the product with 32768 fits in 16 bits: the store
    truncates and does not wrap. *)
Lemma createBlob_int16_in_range (samples : list Q) :
  Forall (fun s => -1 <= s /\ s < 1)%Q samples ->
  createBlob_int16 (map Fin samples) = map (fun s => Qtrunc (s * 32768)) samples
  /\ Forall (fun v => -32768 <= v <= 32767) (map (fun s => Qtrunc (s * 32768)) samples).
Proof.
  intros Hrange. rewrite createBlob_int16_map, map_map. cbn [mul_const].
  induction Hrange as [|s samples [Hlo Hhi] _ [IHmap IHfits]].
  - split; [reflexivity | constructor].
  - pose proof (Qtrunc_scaled_range s Hlo Hhi) as Hs.
    cbn [map]. rewrite ToInt16_fits, IHmap by exact Hs.
    split; [reflexivity | constructor; assumption].
Qed.

(** The text of a blob decodes to the bytes of the 16-bit array. *)
Lemma createBlob_data (samples : list number) :
  decode (data (createBlob samples))
  = Ok (Uint8Array_of_Int16Array (createBlob_int16 samples)).
Proof.
  unfold createBlob. cbn [data].
  rewrite decode_atob, encode_binary, atob_btoa. cbn [bind_result].
  rewrite list_ascii_of_string_of_list_ascii, map_map.
  rewrite (map_ext _ (fun b => b)) by apply byte_of_ascii_of_byte.
  rewrite map_id. reflexivity.
Qed.

End Int16.

(** ** The inbound decoder: [decodeAudioData] *)

Section DecodeAudioData.

Lemma lookup_map_seq {A : Type} (f : nat -> A) (n i : nat) :
  (i < n)%nat -> map f (seq 0 n) !! i = Some (f i).
Proof.
  induction n as [|n IH]; intros Hi; [lia|].
  rewrite seq_S, map_app.
  destruct (Nat.eq_dec i n) as [->|Hne].
  - rewrite lookup_app_r by (rewrite length_map, length_seq; lia).
    rewrite length_map, length_seq, Nat.sub_diag. reflexivity.
  - rewrite lookup_app_l by (rewrite length_map, length_seq; lia).
    apply IH. lia.
Qed.

(** The frame count of [n * k] samples over [n] channels is [k], as a
    buffer length and as a loop bound. *)
Lemma frameCount_exact (n k : nat) :
  (0 < n)%nat ->
  to_unsigned_long (div_lengths (n * k) n) = k
  /\ iterations (div_lengths (n * k) n) = k.
Proof.
  intros Hn. destruct n as [|n]; [lia|]. cbn [div_lengths].
  assert (E : Z.pos (Pos.of_nat (S n)) = Z.of_nat (S n)).
  { rewrite <- positive_nat_Z, Nat2Pos.id by lia. reflexivity. }
  unfold to_unsigned_long, iterations, Qtrunc, Qceiling, Qfloor, Qopp.
  cbn [Qnum Qden]. rewrite E. split.
  - rewrite Nat2Z.inj_mul, Z.mul_comm, Z.quot_mul by lia. apply Nat2Z.id.
  - rewrite Nat2Z.inj_mul, Z.mul_comm, <- Z.mul_opp_l, Z.div_mul by lia.
    rewrite Z.opp_involutive. apply Nat2Z.id.
Qed.

(** The inner loop writes every frame of its channel. *)
Lemma fill_channel_full (dataInt16 : list Z) (numChannels channel : nat)
    (frameCount : number) (channelData : list number) :
  iterations frameCount = length channelData ->
  fill_channel dataInt16 numChannels channel frameCount channelData
  = map (fun i => div_32768 (dataInt16 !! (i * numChannels + channel)%nat))
        (seq 0 (length channelData)).
Proof.
  intros H. unfold fill_channel. rewrite H. apply for_loop_insert.
Qed.

(** The outer loop after [c] channels: those are filled, the others are
    still silent. *)
Lemma decode_channels_prefix (dataInt16 : list Z) (numChannels k : nat)
    (frameCount : number) (rate : positive) (c : nat) :
  iterations frameCount = k ->
  (c <= numChannels)%nat ->
  for_loop c
    (fun channel buffer =>
       setChannelData buffer channel
         (fill_channel dataInt16 numChannels channel frameCount
            (getChannelData buffer channel)))
    {| numberOfChannels := numChannels; frames := k; sampleRate := rate;
       channels := replicate numChannels (replicate k (Fin 0)) |}
  = {| numberOfChannels := numChannels; frames := k; sampleRate := rate;
       channels :=
         map (fun channel =>
                map (fun i => div_32768 (dataInt16 !! (i * numChannels + channel)%nat))
                    (seq 0 k))
             (seq 0 c)
         ++ replicate (numChannels - c) (replicate k (Fin 0)) |}.
Proof.
  intros Hk. induction c as [|c IH]; intros Hc.
  - cbn [seq map app]. rewrite Nat.sub_0_r. reflexivity.
  - rewrite for_loop_S, IH by lia.
    unfold setChannelData, getChannelData.
    cbn [numberOfChannels frames sampleRate channels].
    f_equal.
    replace (numChannels - c)%nat with (S (numChannels - S c)) by lia.
    cbn [replicate].
    rewrite lookup_app_r by (rewrite length_map, length_seq; lia).
    rewrite insert_app_r_alt by (rewrite length_map, length_seq; lia).
    rewrite length_map, length_seq, Nat.sub_diag.
    cbn [lookup list_lookup default insert list_insert]. unfold Datatypes.id.
    rewrite fill_channel_full by (rewrite length_replicate; exact Hk).
    rewrite length_replicate, seq_S, map_app, <- app_assoc. reflexivity.
Qed.

Lemma decodeAudioData_whole_frames (bytes : list byte) (ctx : AudioContext)
    (rate : positive) (numChannels k : nat) :
  (0 < numChannels)%nat ->
  length bytes = (2 * numChannels * k)%nat ->
  supports ctx numChannels k rate = true ->
  decodeAudioData bytes ctx rate numChannels
  = Ok {| numberOfChannels := numChannels; frames := k; sampleRate := rate;
          channels :=
            map (fun channel =>
                   map (fun i =>
                          div_32768
                            (int16_elements bytes !! (i * numChannels + channel)%nat))
                       (seq 0 k))
                (seq 0 numChannels) |}.
Proof.
  intros Hn Hlen Hsup. unfold decodeAudioData, Int16Array_of_buffer.
  replace (length bytes) with (0 + 2 * (numChannels * k))%nat by lia.
  rewrite Nat.even_add_mul_2. cbn [Nat.even bind_result].
  rewrite (length_int16_elements bytes (numChannels * k)) by lia.
  destruct (frameCount_exact numChannels k Hn) as [Hlength Hiter].
  unfold createBuffer. rewrite Hlength, Hsup. cbn [bind_result].
  rewrite (decode_channels_prefix _ _ k) by (assumption || lia).
  rewrite Nat.sub_diag. cbn [replicate]. rewrite app_nil_r. reflexivity.
Qed.

Lemma decodeAudioData_odd (bytes : list byte) (ctx : AudioContext)
    (rate : positive) (numChannels : nat) :
  Nat.odd (length bytes) = true ->
  decodeAudioData bytes ctx rate numChannels = Throw RangeError.
Proof.
  intros H. unfold decodeAudioData, Int16Array_of_buffer.
  rewrite <- Nat.negb_odd, H. reflexivity.
Qed.

End DecodeAudioData.

(** C10, as stated, fails.  The empty input has a byte length that is a
    multiple of [2 * numChannels], yet [decodeAudioData] throws on it: the
    context refuses a buffer of no frames.  And an input that is a window
    on a longer buffer is not decoded by its own byte length: two bytes
    out of a buffer of four give two frames, not one. *)
Lemma decodeAudioData_empty_and_window :
  (byteLength (spanning []) = (2 * 1 * 0)%nat
   /\ decodeAudioData (buffer (spanning [])) (standardContext 1) 24000 1
      = Throw NotSupportedError)
  /\ (let data := {| buffer := [x00; x40; x00; xc0]; byteOffset := 2; byteLength := 2 |} in
      byteLength data = (2 * 1 * 1)%nat
      /\ exists audioBuffer,
          decodeAudioData (buffer data) (standardContext 1) 24000 1 = Ok audioBuffer
          /\ frames audioBuffer = 2%nat
          /\ frames audioBuffer <> (byteLength data / 2 / 1)%nat).
Proof.
  split; [split; reflexivity|]. cbv zeta. split; [reflexivity|].
  eexists. split; [reflexivity|]. split; [reflexivity|]. discriminate.
Qed.

(** C10, amended.  [decodeAudioData] is partial.  For an input that spans
    its whole buffer, when the byte length is a whole number [k] of frames
    of [numChannels] 16-bit samples, with at least one channel, and the
    context grants a buffer of that shape, it returns a buffer of exactly
    [byteLength / 2 / numChannels] frames whose samples are the 16-bit
    integers of the input, interleaved by channel, each divided by 32768.
    When the byte length of the buffer under the input is odd it throws
    [RangeError], whatever the other arguments are: no truncated buffer is
    returned. *)
Theorem decodeAudioData_partial :
  (forall (data : Uint8Array) (ctx : AudioContext) (rate : positive)
          (numChannels k : nat),
      data = spanning (buffer data) ->
      (0 < numChannels)%nat ->
      byteLength data = (2 * numChannels * k)%nat ->
      supports ctx numChannels k rate = true ->
      exists audioBuffer,
        decodeAudioData (buffer data) ctx rate numChannels = Ok audioBuffer
        /\ frames audioBuffer = (byteLength data / 2 / numChannels)%nat
        /\ numberOfChannels audioBuffer = numChannels
        /\ length (channels audioBuffer) = numChannels
        /\ forall channel i,
            (channel < numChannels)%nat -> (i < frames audioBuffer)%nat ->
            exists v,
              int16_elements (buffer data) !! (i * numChannels + channel)%nat = Some v
              /\ getChannelData audioBuffer channel !! i = Some (Fin (v # 32768)))
  /\ (forall (data : Uint8Array) (ctx : AudioContext) (rate : positive)
             (numChannels : nat),
         Nat.odd (length (buffer data)) = true ->
         decodeAudioData (buffer data) ctx rate numChannels = Throw RangeError).
Proof.
  split; [|intros data; apply decodeAudioData_odd].
  intros [bytes offset len] ctx rate numChannels k Hspan Hn Hlen Hsup.
  injection Hspan as -> ->. cbn [buffer byteLength] in *.
  eexists. split; [apply (decodeAudioData_whole_frames _ _ _ _ k); assumption|].
  cbn [frames numberOfChannels channels].
  split.
  { rewrite Hlen, <- Nat.mul_assoc, (Nat.mul_comm 2), Nat.div_mul by lia.
    rewrite Nat.mul_comm, Nat.div_mul by lia. reflexivity. }
  split; [reflexivity|].
  split; [rewrite length_map, length_seq; reflexivity|].
  intros channel i Hc Hi.
  assert (Hidx : (i * numChannels + channel < length (int16_elements bytes))%nat).
  { rewrite (length_int16_elements bytes (numChannels * k)) by lia. nia. }
  destruct (lookup_lt_is_Some_2 _ _ Hidx) as [v Hv].
  exists v. split; [exact Hv|].
  unfold getChannelData. cbn [channels].
  rewrite lookup_map_seq by assumption. cbn [default from_option]. unfold Datatypes.id.
  rewrite lookup_map_seq by assumption. rewrite Hv. reflexivity.
Qed.

Lemma decodeAudioData_partial_witness :
  (exists audioBuffer,
      decodeAudioData (buffer (spanning [x00; x40; x00; xc0; xff; x7f; x00; x80]))
        (standardContext 1) 24000 2
      = Ok audioBuffer
      /\ frames audioBuffer = 2%nat
      /\ getChannelData audioBuffer 1 !! 1%nat = Some (Fin (-32768 # 32768)))
  /\ decodeAudioData (buffer (spanning [x00; x40; x00])) (standardContext 1) 24000 1
     = Throw RangeError.
Proof.
  destruct decodeAudioData_partial as [Hwhole Hodd]. split.
  - destruct (Hwhole (spanning [x00; x40; x00; xc0; xff; x7f; x00; x80])
                (standardContext 1) 24000%positive 2%nat 2%nat
                eq_refl ltac:(lia) eq_refl eq_refl)
      as (audioBuffer & Hok & Hframes & _ & _ & Hsamples).
    exists audioBuffer. split; [exact Hok|]. split; [exact Hframes|].
    destruct (Hsamples 1%nat 1%nat ltac:(lia) ltac:(rewrite Hframes; cbn; lia))
      as (v & Hv & Hsample).
    cbn in Hv. injection Hv as <-. exact Hsample.
  - apply (Hodd (spanning [x00; x40; x00])). reflexivity.
Defined.

(** ** The capture-side encoder: [createBlob] *)

(** C1, as stated, fails.  On the sample 3/4 [createBlob] stores
    24576 = 0.75 * 32768 where the stated mapping gives
    24575 = round (0.75 * 32767); on the sample 1 it stores -32768 where
    the stated mapping gives 32767. *)
Lemma createBlob_not_encodeFrame :
  createBlob_int16 [Fin (3 # 4); Fin 1] = [24576; -32768]
  /\ map encodeFrame_sample [3 # 4; 1%Q] = [24575; 32767]
  /\ createBlob_int16 [Fin (3 # 4); Fin 1] <> map encodeFrame_sample [3 # 4; 1%Q].
Proof.
  split; [reflexivity|]. split; [reflexivity|]. discriminate.
Qed.

(** C1, amended.  For samples [s] with [-1 <= s < 1], [createBlob] maps each
    sample to the 16-bit signed integer [s * 32768] truncated toward zero:
    the same scale factor for both signs, truncation rather than rounding
    to nearest.  Its [data] is the transport text of the bytes of those
    integers, two per sample, low byte first, and its [mimeType] is
    audio/pcm at 16000 Hz.  Being a function of the samples, the result is
    deterministic and nothing else is changed. *)
Theorem createBlob_below_full_scale (samples : list Q) :
  Forall (fun s => -1 <= s /\ s < 1)%Q samples ->
  let int16 := map (fun s => Qtrunc (s * 32768)) samples in
  createBlob_int16 (map Fin samples) = int16
  /\ Forall (fun v => -32768 <= v <= 32767) int16
  /\ decode (data (createBlob (map Fin samples))) = Ok (Uint8Array_of_Int16Array int16)
  /\ Int16Array_of_buffer (Uint8Array_of_Int16Array int16) = Ok int16
  /\ mimeType (createBlob (map Fin samples)) = "audio/pcm;rate=16000"%string.
Proof.
  intros Hrange int16.
  destruct (createBlob_int16_in_range samples Hrange) as [Hint16 Hfits].
  fold int16 in Hint16, Hfits.
  split; [exact Hint16|]. split; [exact Hfits|].
  split; [rewrite createBlob_data, Hint16; reflexivity|].
  split; [apply Int16Array_of_Uint8Array, Hfits | reflexivity].
Qed.

Lemma createBlob_below_full_scale_witness :
  createBlob_int16 (map Fin [3 # 4; - (1); - (3 # 131072); 32767 # 32768]%Q)
  = [24576; -32768; 0; 32767]
  /\ decode (data (createBlob (map Fin [3 # 4; - (1); - (3 # 131072); 32767 # 32768]%Q)))
     = Ok [x00; x60; x00; x80; x00; x00; xff; x7f].
Proof.
  destruct (createBlob_below_full_scale [3 # 4; - (1); - (3 # 131072); 32767 # 32768]%Q)
    as (Hint16 & _ & Hdata & _).
  - repeat constructor; unfold Qle, Qlt; cbn; lia.
  - split; [exact Hint16 | exact Hdata].
Defined.

(** ** Encoding then decoding a frame *)

Lemma truncation_error (s : Q) :
  (Qabs ((Qtrunc (s * 32768) # 32768) - s) < 1 # 32768)%Q.
Proof.
  apply Qabs_Qlt_condition.
  destruct s as [n d]. unfold Qlt, Qminus, Qplus, Qopp, Qtrunc.
  cbn [Qnum Qden Qmult]. rewrite Pos.mul_1_r.
  destruct (quot_bounds (n * 32768) d) as [Hp Hn].
  destruct (Z_le_gt_dec 0 n).
  - specialize (Hp ltac:(lia)). split; nia.
  - specialize (Hn ltac:(lia)). split; nia.
Qed.

(** Below full scale the round trip loses less than one 16-bit step. *)
Lemma round_trip_below_full_scale (samples : list Q) (ctx : AudioContext)
    (rate : positive) :
  Forall (fun s => -1 <= s /\ s < 1)%Q samples ->
  supports ctx 1 (length samples) rate = true ->
  codec_round_trip (map Fin samples) ctx rate 1
  = Ok {| numberOfChannels := 1; frames := length samples; sampleRate := rate;
          channels := [map (fun s => Fin (Qtrunc (s * 32768) # 32768)) samples] |}
  /\ Forall (fun s => Qabs ((Qtrunc (s * 32768) # 32768) - s) <= 1 # 32768)%Q samples.
Proof.
  intros Hrange Hsup. split.
  - destruct (createBlob_int16_in_range samples Hrange) as [Hint16 Hfits].
    unfold codec_round_trip. rewrite createBlob_data, Hint16. cbn [bind_result].
    rewrite (decodeAudioData_whole_frames _ _ _ _ (length samples)); [|lia| |exact Hsup].
    2:{ rewrite length_Uint8Array_of_Int16Array, length_map. lia. }
    rewrite int16_elements_of_int16 by exact Hfits.
    cbn [seq map]. do 3 f_equal.
    rewrite <- (length_map (fun s => Qtrunc (s * 32768)) samples).
    rewrite (map_ext (fun i => div_32768 (map (fun s => Qtrunc (s * 32768)) samples
                                          !! (i * 1 + 0)%nat))
                     (fun i => div_32768 (map (fun s => Qtrunc (s * 32768)) samples !! i))).
    2:{ intros i. rewrite Nat.mul_1_r, Nat.add_0_r. reflexivity. }
    rewrite (map_lookup_seq div_32768), map_map. reflexivity.
  - apply Forall_forall. intros s _. apply Qlt_le_weak, truncation_error.
Qed.

(** C2 at the sample 1.0.  [createBlob] stores 1.0 * 32768 = 32768 into its
    16-bit array, where it wraps to -32768; decoding gives -1.0, which is 2
    away from the sample, not within 1/32768 of it. *)
Theorem round_trip_full_scale :
  codec_round_trip [Fin 1] (standardContext 1) 16000 1
  = Ok {| numberOfChannels := 1; frames := 1; sampleRate := 16000;
          channels := [[Fin (-32768 # 32768)]] |}
  /\ ~ (Qabs ((-32768 # 32768) - 1) <= 1 # 32768)%Q.
Proof.
  split; [reflexivity|]. intros H. apply Qle_bool_iff in H. discriminate H.
Qed.

(** ** The session callbacks *)

Section Cleanup.

Lemma handleCleanup_effects (s : VoiceState) :
  effects (handleCleanup s)
  = effects s ++ stops (mediaStreamRef s) ++ closes (inputAudioContextRef s)
    ++ closes (outputAudioContextRef s) ++ map SourceStop (audioSourcesRef s).
Proof.
  destruct s as [msgs queue rec sess out inp stream cursor sources tin tout next es].
  unfold handleCleanup, close_context, closes, stops.
  destruct stream as [stream|], inp as [[i [] f]|], out as [[o [] g]|];
    cbn; rewrite ?app_nil_r, <- ?app_assoc; reflexivity.
Qed.

Lemma handleCleanup_fields (s : VoiceState) :
  handleCleanup s
  = {| chatMessages := chatMessages s;
       queuedChatUpdates := queuedChatUpdates s;
       isRecording := false;
       sessionPromiseRef := None;
       outputAudioContextRef := None;
       inputAudioContextRef := None;
       mediaStreamRef := None;
       nextStartTimeRef := 0;
       audioSourcesRef := [];
       currentInputTranscription := currentInputTranscription s;
       currentOutputTranscription := currentOutputTranscription s;
       nextSource := nextSource s;
       effects := effects (handleCleanup s) |}.
Proof.
  destruct s as [msgs queue rec sess out inp stream cursor sources tin tout next es].
  unfold handleCleanup, close_context.
  destruct stream as [stream|], inp as [[i [] f]|], out as [[o [] g]|];
    reflexivity.
Qed.

(** Nothing is left to release once every reference is null and the active
    set is empty. *)
Lemma handleCleanup_released (s : VoiceState) :
  mediaStreamRef s = None ->
  inputAudioContextRef s = None ->
  outputAudioContextRef s = None ->
  audioSourcesRef s = [] ->
  effects (handleCleanup s) = effects s.
Proof.
  intros H1 H2 H3 H4. rewrite handleCleanup_effects, H1, H2, H3, H4.
  apply app_nil_r.
Qed.

Lemma handleCleanup_refs (s : VoiceState) :
  mediaStreamRef (handleCleanup s) = None
  /\ inputAudioContextRef (handleCleanup s) = None
  /\ outputAudioContextRef (handleCleanup s) = None
  /\ audioSourcesRef (handleCleanup s) = []
  /\ nextStartTimeRef (handleCleanup s) = 0%Q.
Proof.
  rewrite handleCleanup_fields. repeat split.
Qed.

(** The two terminal callbacks in succession: the second one releases
    nothing more. *)
Lemma onclose_after_onerror (env1 env2 : Env) (message : string) (s : VoiceState) :
  effects (onclose env2 (onerror env1 message s)) = effects (onerror env1 message s)
  /\ audioSourcesRef (onclose env2 (onerror env1 message s)) = []
  /\ nextStartTimeRef (onclose env2 (onerror env1 message s)) = 0%Q.
Proof.
  unfold onclose, onerror. cbv zeta.
  set (t0 := set_queuedChatUpdates _ (perform _ s)).
  destruct (handleCleanup_refs t0) as (H1 & H2 & H3 & H4 & _).
  generalize dependent (handleCleanup t0). intros t H1 H2 H3 H4.
  set (t' := set_queuedChatUpdates _ t).
  destruct (handleCleanup_refs t') as (_ & _ & _ & H5 & H6).
  split; [|split; assumption].
  apply (handleCleanup_released t'); assumption.
Qed.

End Cleanup.

(** C7.  Cleanup is idempotent.  After [handleCleanup] the media stream
    reference, both audio context references and the session reference are
    null, the active source set is empty, the cursor is 0 and the recording
    flag is false; every track of the stream has been stopped, every context
    that was not closed has been closed, every active source has been
    stopped.  A second [handleCleanup] right after changes nothing at all:
    the state is the same and no release call is made a second time. *)
Theorem handleCleanup_idempotent (s : VoiceState) :
  handleCleanup (handleCleanup s) = handleCleanup s
  /\ mediaStreamRef (handleCleanup s) = None
  /\ inputAudioContextRef (handleCleanup s) = None
  /\ outputAudioContextRef (handleCleanup s) = None
  /\ audioSourcesRef (handleCleanup s) = []
  /\ nextStartTimeRef (handleCleanup s) = 0%Q
  /\ sessionPromiseRef (handleCleanup s) = None
  /\ isRecording (handleCleanup s) = false
  /\ effects (handleCleanup s)
     = effects s ++ stops (mediaStreamRef s) ++ closes (inputAudioContextRef s)
       ++ closes (outputAudioContextRef s) ++ map SourceStop (audioSourcesRef s).
Proof.
  pose proof (handleCleanup_fields s) as Hf.
  destruct (handleCleanup_refs s) as (R1 & R2 & R3 & R4 & R5).
  assert (R6 : sessionPromiseRef (handleCleanup s) = None) by (rewrite Hf; reflexivity).
  assert (R7 : isRecording (handleCleanup s) = false) by (rewrite Hf; reflexivity).
  split; [|repeat split; try assumption; apply handleCleanup_effects].
  rewrite (handleCleanup_fields (handleCleanup s)).
  rewrite (handleCleanup_released (handleCleanup s)) by assumption.
  clear Hf. destruct (handleCleanup s). cbn in *. subst. reflexivity.
Qed.

Section Events.

(** What [onmessage] does on each single event. *)

Lemma onmessage_InputTranscriptChunk (env : Env) (t : string) (s : VoiceState) :
  onmessage env (message_of (InputTranscriptChunk t)) s
  = (set_currentInputTranscription (currentInputTranscription s ++ t)%string s, Ok tt).
Proof. reflexivity. Qed.

Lemma onmessage_OutputTranscriptChunk (env : Env) (t : string) (s : VoiceState) :
  onmessage env (message_of (OutputTranscriptChunk t)) s
  = (set_currentOutputTranscription (currentOutputTranscription s ++ t)%string s, Ok tt).
Proof. reflexivity. Qed.

Lemma onmessage_Interrupted (env : Env) (s : VoiceState) :
  onmessage env (message_of Interrupted) s
  = (set_nextStartTimeRef 0%Q
       (set_audioSourcesRef [] (perform (map SourceStop (audioSourcesRef s)) s)),
     Ok tt).
Proof. reflexivity. Qed.

Lemma onmessage_TurnComplete (env : Env) (s : VoiceState) :
  onmessage env (message_of TurnComplete) s
  = (set_currentOutputTranscription ""
       (set_currentInputTranscription ""
          (set_queuedChatUpdates (queuedChatUpdates s ++ flushed s) s)),
     Ok tt).
Proof.
  unfold flushed.
  destruct s as [msgs queue rec sess out inp stream cursor sources tin tout next es].
  destruct tin, tout; cbn; rewrite ?app_nil_r, <- ?app_assoc; reflexivity.
Qed.

Lemma onmessage_AudioChunk_released (env : Env) (payload : string) (s : VoiceState) :
  outputAudioContextRef s = None ->
  onmessage env (message_of (AudioChunk payload)) s = (s, Ok tt).
Proof.
  intros H. unfold onmessage, bind, ret, lift, get, when_. cbn.
  rewrite H. reflexivity.
Qed.

End Events.

(** C5.  Interruption clears the playback state.  From every state,
    [onmessage] on an Interrupted event returns normally, having called
    [stop] on every source of the active set, in the order they were added,
    and on nothing else; the active set is then empty and the cursor is 0.
    When the active set is empty already no call is made and no error is
    raised. *)
Theorem interrupt_clears_playback :
  (forall (env : Env) (s : VoiceState),
      let s' := fst (onmessage env (message_of Interrupted) s) in
      snd (onmessage env (message_of Interrupted) s) = Ok tt
      /\ effects s' = effects s ++ map SourceStop (audioSourcesRef s)
      /\ audioSourcesRef s' = []
      /\ nextStartTimeRef s' = 0%Q)
  /\ (forall (env : Env) (s : VoiceState),
         audioSourcesRef s = [] ->
         onmessage env (message_of Interrupted) s = (set_nextStartTimeRef 0%Q s, Ok tt)).
Proof.
  split.
  - intros env s. rewrite onmessage_Interrupted. cbn. repeat split.
  - intros env s H. rewrite onmessage_Interrupted.
    destruct s as [msgs queue rec sess out inp stream cursor sources tin tout next es].
    cbn in H. subst sources.
    unfold set_nextStartTimeRef, set_audioSourcesRef, perform. cbn.
    rewrite app_nil_r. reflexivity.
Qed.

Lemma interrupt_clears_playback_witness :
  onmessage {| currentTime := 5; dateNow := 1700000001000 |} (message_of Interrupted)
    sessionOpened
  = (sessionOpened, Ok tt).
Proof.
  destruct interrupt_clears_playback as [_ Hempty].
  apply (Hempty {| currentTime := 5; dateNow := 1700000001000 |} sessionOpened).
  reflexivity.
Defined.

Lemma deliver_app (ms1 ms2 : list (Env * LiveServerMessage)) (s : VoiceState) :
  deliver (ms1 ++ ms2) s = deliver ms2 (deliver ms1 s).
Proof. unfold deliver. apply fold_left_app. Qed.

Lemma append_assoc (a b c : string) : ((a ++ b) ++ c = a ++ (b ++ c))%string.
Proof.
  induction a as [|x a IH]; [reflexivity|].
  cbn [String.append]. rewrite IH. reflexivity.
Qed.

Lemma append_empty_r (a : string) : (a ++ "")%string = a.
Proof.
  induction a as [|x a IH]; [reflexivity|].
  cbn [String.append]. rewrite IH. reflexivity.
Qed.

Lemma fold_append (ts : list string) (acc : string) :
  fold_left (fun acc t => (acc ++ t)%string) ts acc = (acc ++ chunks_text ts)%string.
Proof.
  unfold chunks_text. revert acc.
  induction ts as [|t ts IH] using rev_ind; intros acc.
  - cbn [fold_left]. symmetry. apply append_empty_r.
  - rewrite !fold_left_app. cbn [fold_left]. rewrite IH, append_assoc. reflexivity.
Qed.

(** Input chunks only grow the input buffer. *)
Lemma deliver_input_chunks (chunks : list (Env * string)) (s : VoiceState) :
  deliver (map (fun et => (fst et, message_of (InputTranscriptChunk (snd et)))) chunks) s
  = set_currentInputTranscription
      (currentInputTranscription s ++ chunks_text (map snd chunks))%string s.
Proof.
  revert s. induction chunks as [|[env t] chunks IH] using rev_ind; intros s.
  - change (chunks_text (map snd [])) with EmptyString.
    rewrite append_empty_r. destruct s; reflexivity.
  - rewrite !map_app, deliver_app, IH. cbn [map fst snd].
    unfold deliver at 1. cbn [fold_left fst snd].
    rewrite onmessage_InputTranscriptChunk. cbn [fst].
    unfold chunks_text. rewrite fold_left_app. cbn [fold_left].
    fold (chunks_text (map snd chunks)).
    destruct s; cbn. rewrite append_assoc. reflexivity.
Qed.

(** C3, as stated, fails.  After the chunk "partial" and an Interrupted
    event no message has been emitted and none is queued, but the input
    buffer is not empty: it still holds "partial". *)
Lemma interrupted_buffer_not_cleared :
  let env := {| currentTime := 1; dateNow := 1700000000000 |} in
  let s' :=
    deliver [(env, message_of (InputTranscriptChunk "partial"));
             (env, message_of Interrupted)] sessionOpened in
  chatMessages s' = []
  /\ queuedChatUpdates s' = []
  /\ currentInputTranscription s' = "partial"%string
  /\ currentInputTranscription s' <> EmptyString.
Proof.
  cbv zeta. split; [reflexivity|]. split; [reflexivity|]. split; [reflexivity|].
  discriminate.
Qed.

(** C3, amended.  For every state and every sequence of input transcript
    chunks followed by an Interrupted event, with no TurnComplete in
    between, handling the events emits no message (so no USER message):
    the conversation is as it was and nothing has been queued for it.  The
    accumulated text stays in the input buffer: the buffer holds what it
    held before, followed by the chunks in order. *)
Theorem interrupted_keeps_transcript
    (chunks : list (Env * string)) (env : Env) (s : VoiceState) :
  let s' :=
    deliver
      (map (fun et => (fst et, message_of (InputTranscriptChunk (snd et)))) chunks
       ++ [(env, message_of Interrupted)]) s in
  chatMessages s' = chatMessages s
  /\ queuedChatUpdates s' = queuedChatUpdates s
  /\ currentInputTranscription s'
     = (currentInputTranscription s ++ chunks_text (map snd chunks))%string
  /\ snd (onmessage env (message_of Interrupted)
            (deliver
               (map (fun et => (fst et, message_of (InputTranscriptChunk (snd et))))
                    chunks) s))
     = Ok tt.
Proof.
  cbv zeta. rewrite deliver_app, deliver_input_chunks.
  unfold deliver. cbn [fold_left fst snd].
  rewrite onmessage_Interrupted. cbn [fst snd].
  destruct s; repeat split.
Qed.

(** What React makes of the functions a turn completion has queued, once
    the callback has cleared the two buffers: the messages are there, their
    text is not. *)
Lemma render_flushed (now : Env) (s : VoiceState) :
  queuedChatUpdates s = [] ->
  chatMessages
    (render now
       (set_currentOutputTranscription ""
          (set_currentInputTranscription ""
             (set_queuedChatUpdates (queuedChatUpdates s ++ flushed s) s))))
  = chatMessages s
    ++ (if truthy (currentInputTranscription s)
        then [{| id := "user-voice-" ++ string_of_N (dateNow now);
                 text := "";
                 sender := USER;
                 timestamp := dateNow now |}]
        else [])
    ++ (if truthy (currentOutputTranscription s)
        then [{| id := "model-voice-" ++ string_of_N (dateNow now);
                 text := "";
                 sender := MODEL;
                 timestamp := dateNow now |}]
        else []).
Proof.
  intros Hq. unfold render, flushed. cbv zeta.
  cbn [set_queuedChatUpdates set_chatMessages set_currentOutputTranscription
       set_currentInputTranscription queuedChatUpdates chatMessages
       currentInputTranscription currentOutputTranscription].
  rewrite Hq. cbn [app].
  destruct (truthy (currentInputTranscription s)),
    (truthy (currentOutputTranscription s));
    cbn [app fold_left]; unfold appendMessage, userVoiceMessage, modelVoiceMessage;
    cbn [read_Date_now read_currentInputTranscription read_currentOutputTranscription];
    rewrite ?app_nil_r, <- ?app_assoc; reflexivity.
Qed.

(** C6, as the code has it.  From a state whose two transcript buffers are
    empty and for which nothing is queued, the events InputTranscriptChunk
    "Hello ", InputTranscriptChunk "world", TurnComplete leave both buffers
    empty and queue one function for the conversation; when React calls
    it, it appends exactly one message, a USER message, but the text of
    that message is empty, not "Hello world": the function reads the input
    buffer when it is called, after the callback has cleared it.  In
    every state for which nothing is queued, a TurnComplete makes the
    conversation gain a USER message exactly when the input buffer is not
    empty, then a MODEL message exactly when the output buffer is not empty,
    each with an empty text, and clears both buffers. *)
Theorem turn_flush_loses_text :
  (forall (env1 env2 env3 now : Env) (s : VoiceState),
      currentInputTranscription s = EmptyString ->
      currentOutputTranscription s = EmptyString ->
      queuedChatUpdates s = [] ->
      let s' :=
        render now
          (deliver [(env1, message_of (InputTranscriptChunk "Hello "));
                    (env2, message_of (InputTranscriptChunk "world"));
                    (env3, message_of TurnComplete)] s) in
      chatMessages s'
      = chatMessages s
        ++ [{| id := "user-voice-" ++ string_of_N (dateNow now);
               text := "";
               sender := USER;
               timestamp := dateNow now |}]
      /\ queuedChatUpdates s' = []
      /\ currentInputTranscription s' = EmptyString
      /\ currentOutputTranscription s' = EmptyString)
  /\ (forall (env now : Env) (s : VoiceState),
         queuedChatUpdates s = [] ->
         let s' := render now (fst (onmessage env (message_of TurnComplete) s)) in
         snd (onmessage env (message_of TurnComplete) s) = Ok tt
         /\ chatMessages s'
            = chatMessages s
              ++ (if truthy (currentInputTranscription s)
                  then [{| id := "user-voice-" ++ string_of_N (dateNow now);
                           text := "";
                           sender := USER;
                           timestamp := dateNow now |}]
                  else [])
              ++ (if truthy (currentOutputTranscription s)
                  then [{| id := "model-voice-" ++ string_of_N (dateNow now);
                           text := "";
                           sender := MODEL;
                           timestamp := dateNow now |}]
                  else [])
         /\ queuedChatUpdates s' = []
         /\ currentInputTranscription s' = EmptyString
         /\ currentOutputTranscription s' = EmptyString).
Proof.
  split.
  - intros env1 env2 env3 now s Hin Hout Hq. cbv zeta.
    change [(env1, message_of (InputTranscriptChunk "Hello "));
            (env2, message_of (InputTranscriptChunk "world"));
            (env3, message_of TurnComplete)]
      with (map (fun et => (fst et, message_of (InputTranscriptChunk (snd et))))
              [(env1, "Hello "%string); (env2, "world"%string)]
            ++ [(env3, message_of TurnComplete)]).
    rewrite deliver_app, deliver_input_chunks, Hin.
    unfold deliver. cbn [fold_left fst snd map chunks_text String.append].
    rewrite onmessage_TurnComplete. cbn [fst].
    set (t := set_currentInputTranscription "Hello world" s).
    assert (Ht : queuedChatUpdates t = []) by exact Hq.
    split; [|repeat split].
    rewrite (render_flushed now t Ht).
    unfold t. cbn [currentInputTranscription currentOutputTranscription chatMessages
                   set_currentInputTranscription truthy].
    rewrite Hout. cbn [truthy]. rewrite app_nil_r. reflexivity.
  - intros env now s Hq. cbv zeta. rewrite onmessage_TurnComplete. cbn [fst snd].
    split; [reflexivity|]. split; [apply render_flushed, Hq|]. repeat split.
Qed.

Lemma turn_flush_loses_text_witness :
  map (fun m => (sender m, text m))
    (chatMessages
       (render {| currentTime := 3; dateNow := 1700000000950 |}
          (deliver
             [({| currentTime := 1; dateNow := 1700000000000 |},
               message_of (InputTranscriptChunk "Hello "));
              ({| currentTime := 2; dateNow := 1700000000400 |},
               message_of (InputTranscriptChunk "world"));
              ({| currentTime := 3; dateNow := 1700000000900 |},
               message_of TurnComplete)] sessionOpened)))
  = [(USER, ""%string)].
Proof.
  destruct turn_flush_loses_text as [Hflush _].
  destruct (Hflush {| currentTime := 1; dateNow := 1700000000000 |}
              {| currentTime := 2; dateNow := 1700000000400 |}
              {| currentTime := 3; dateNow := 1700000000900 |}
              {| currentTime := 3; dateNow := 1700000000950 |}
              sessionOpened eq_refl eq_refl eq_refl) as [Hchat _].
  rewrite Hchat. reflexivity.
Defined.

Section Scheduling.

Lemma contiguous_le (l : list (Q * Q)) (lo hi : Q) :
  contiguous lo l hi -> (lo <= hi)%Q.
Proof.
  revert lo. induction l as [|[w d] l IH]; intros lo H; [exact H|].
  destruct H as (Hlo & Hd & Hrest). apply IH in Hrest.
  apply Qle_trans with w; [exact Hlo|].
  apply Qle_trans with (w + d)%Q; [|exact Hrest].
  rewrite <- (Qplus_0_r w) at 1. apply Qplus_le_r. exact Hd.
Qed.

Lemma contiguous_weaken (l : list (Q * Q)) (lo lo' hi : Q) :
  (lo' <= lo)%Q -> contiguous lo l hi -> contiguous lo' l hi.
Proof.
  destruct l as [|[w d] l]; cbn [contiguous]; intros Hle H.
  - apply Qle_trans with lo; assumption.
  - destruct H as (Hlo & Hrest). split; [|exact Hrest].
    apply Qle_trans with lo; assumption.
Qed.

Lemma contiguous_app (l1 l2 : list (Q * Q)) (lo mid hi : Q) :
  contiguous lo l1 mid -> contiguous mid l2 hi -> contiguous lo (l1 ++ l2) hi.
Proof.
  revert lo. induction l1 as [|[w d] l1 IH]; intros lo H1 H2.
  - cbn [app]. apply contiguous_weaken with mid; assumption.
  - cbn [app contiguous] in *. destruct H1 as (Hlo & Hd & Hrest).
    split; [exact Hlo|]. split; [exact Hd|]. apply IH; assumption.
Qed.

Lemma contiguous_adjacent (l : list (Q * Q)) (lo hi : Q) :
  contiguous lo l hi ->
  forall i w1 d1 w2 d2,
    l !! i = Some (w1, d1) -> l !! S i = Some (w2, d2) -> (w1 + d1 <= w2)%Q.
Proof.
  revert lo. induction l as [|[w d] l IH]; intros lo H i w1 d1 w2 d2 H1 H2.
  - discriminate.
  - destruct H as (_ & _ & Hrest). destruct i as [|i].
    + cbn in H1. injection H1 as -> ->.
      destruct l as [|[w' d'] l]; [discriminate|].
      cbn in H2. injection H2 as -> ->.
      cbn [contiguous] in Hrest. destruct Hrest as [Hle _]. exact Hle.
    + apply (IH _ Hrest i w1 d1 w2 d2); assumption.
Qed.

Lemma contiguous_within (l : list (Q * Q)) (lo hi : Q) :
  contiguous lo l hi ->
  forall w d, In (w, d) l -> (lo <= w)%Q /\ (w + d <= hi)%Q.
Proof.
  revert lo. induction l as [|[w' d'] l IH]; intros lo H w d Hin; [destruct Hin|].
  destruct H as (Hlo & Hd & Hrest). destruct Hin as [E|Hin].
  - injection E as -> ->. split; [exact Hlo|]. apply (contiguous_le _ _ _ Hrest).
  - destruct (IH _ Hrest w d Hin) as [H1 H2]. split; [|exact H2].
    apply Qle_trans with w'; [exact Hlo|].
    apply Qle_trans with (w' + d')%Q; [|exact H1].
    rewrite <- (Qplus_0_r w') at 1. apply Qplus_le_r. exact Hd.
Qed.

Lemma follows_same (s s' : VoiceState) :
  effects s' = effects s -> nextStartTimeRef s' = nextStartTimeRef s -> follows s s'.
Proof.
  intros He Hc. exists []. rewrite He, Hc, app_nil_r.
  split; [reflexivity | apply Qle_refl].
Qed.

Lemma follows_trans (s1 s2 s3 : VoiceState) :
  follows s1 s2 -> follows s2 s3 -> follows s1 s3.
Proof.
  intros (new1 & E1 & H1) (new2 & E2 & H2). exists (new1 ++ new2).
  rewrite E2, E1, app_assoc. split; [reflexivity|].
  apply contiguous_app with (nextStartTimeRef s2); assumption.
Qed.

Lemma scheduled_app (es1 es2 : list Effect) :
  scheduled (es1 ++ es2) = scheduled es1 ++ scheduled es2.
Proof. unfold scheduled. apply flat_map_app. Qed.

Lemma duration_nonneg (b : AudioBuffer) : (0 <= duration b)%Q.
Proof. unfold duration, Qle. cbn. lia. Qed.

(** The three ways [schedule] can end. *)
Lemma schedule_cases (env : Env) (audio : string) (ctx : AudioContext) (s : VoiceState) :
  let start := Qmax (nextStartTimeRef s) (currentTime env) in
  schedule env audio ctx s
  = match decode audio with
    | Throw e => (set_nextStartTimeRef start s, Throw e)
    | Ok bytes =>
        match decodeAudioData bytes ctx 24000 1 with
        | Throw e => (set_nextStartTimeRef start s, Throw e)
        | Ok audioBuffer =>
            (set_audioSourcesRef (audioSourcesRef s ++ [nextSource s])
               (set_nextStartTimeRef (start + duration audioBuffer)%Q
                  (perform [SourceStart (nextSource s) audioBuffer start]
                     (set_nextSource (S (nextSource s)) s))),
             Ok tt)
        end
    end.
Proof.
  cbv zeta. unfold schedule, bind, lift, modify, get.
  destruct (decode audio) as [bytes|e]; [|reflexivity].
  destruct (decodeAudioData bytes ctx 24000 1) as [audioBuffer|e]; reflexivity.
Qed.

Lemma follows_schedule (env : Env) (audio : string) (ctx : AudioContext) (s : VoiceState) :
  follows s (fst (schedule env audio ctx s)).
Proof.
  rewrite schedule_cases. cbv zeta.
  assert (Hmax : follows s (set_nextStartTimeRef
                              (Qmax (nextStartTimeRef s) (currentTime env)) s)).
  { exists []. cbn. rewrite app_nil_r. split; [reflexivity | apply Q.le_max_l]. }
  destruct (decode audio) as [bytes|e]; [|exact Hmax].
  destruct (decodeAudioData bytes ctx 24000 1) as [audioBuffer|e]; [|exact Hmax].
  exists [(Qmax (nextStartTimeRef s) (currentTime env), duration audioBuffer)].
  cbn [fst set_audioSourcesRef set_nextStartTimeRef perform set_nextSource effects
       nextStartTimeRef contiguous].
  rewrite scheduled_app. split; [reflexivity|].
  split; [apply Q.le_max_l|]. split; [apply duration_nonneg | apply Qle_refl].
Qed.

Lemma follows_refl (s : VoiceState) : follows s s.
Proof. apply follows_same; reflexivity. Qed.

Lemma preserved_schedule (env : Env) (audio : string) (ctx : AudioContext) :
  preserved follows (schedule env audio ctx).
Proof. intros s. apply follows_schedule. Qed.

End Scheduling.

(** ** Relations that every step of a callback preserves *)

Section Preserved.

Variable R : VoiceState -> VoiceState -> Prop.
Hypothesis R_refl : forall s, R s s.
Hypothesis R_trans : forall s1 s2 s3, R s1 s2 -> R s2 s3 -> R s1 s3.

Lemma preserved_ret {A : Type} (a : A) : preserved R (ret a).
Proof using R_refl. intros s. apply R_refl. Qed.

Lemma preserved_get : preserved R get.
Proof using R_refl. intros s. apply R_refl. Qed.

Lemma preserved_lift {A : Type} (r : result A) : preserved R (lift r).
Proof using R_refl. intros s. apply R_refl. Qed.

Lemma preserved_modify (f : VoiceState -> VoiceState) :
  (forall s, R s (f s)) -> preserved R (modify f).
Proof using Type. intros H s. apply H. Qed.

Lemma preserved_bind {A B : Type} (m : M A) (k : A -> M B) :
  preserved R m -> (forall a, preserved R (k a)) -> preserved R (bind m k).
Proof using R_trans.
  intros Hm Hk s. unfold bind. specialize (Hm s).
  destruct (m s) as [s' [a|e]]; cbn [fst] in *.
  - apply R_trans with s'; [exact Hm | apply Hk].
  - exact Hm.
Qed.

(** The continuation of [get] runs on the state it was handed. *)
Lemma preserved_bind_get {B : Type} (k : VoiceState -> M B) :
  (forall s, R s (fst (k s s))) -> preserved R (bind get k).
Proof using Type. intros H s. apply H. Qed.

Lemma preserved_when (b : bool) (m : M unit) :
  preserved R m -> preserved R (when_ b m).
Proof using R_refl. intros H. destruct b; [exact H | apply preserved_ret]. Qed.

Lemma preserved_deliver (ms : list (Env * LiveServerMessage)) :
  Forall (fun em => preserved R (onmessage (fst em) (snd em))) ms ->
  forall s, R s (deliver ms s).
Proof using R_refl R_trans.
  induction 1 as [|[env m] ms Hm _ IH]; intros s.
  - apply R_refl.
  - change (deliver ((env, m) :: ms) s) with (deliver ms (fst (onmessage env m s))).
    apply R_trans with (fst (onmessage env m s)); [apply Hm | apply IH].
Qed.

End Preserved.

(** One step through the structure of a callback; [leaf] proves that an
    assignment respects the relation. *)
Ltac preserved_step refl trans leaf :=
  first
    [ apply (preserved_ret _ refl)
    | apply (preserved_get _ refl)
    | apply (preserved_lift _ refl)
    | apply preserved_modify; leaf
    | apply (preserved_when _ refl)
    | apply (preserved_bind _ trans); [|intros ?]
    | match goal with
      | |- preserved _ (match ?x with _ => _ end) => destruct x
      end ].

Section Sessions.

(** A message that carries no interruption moves the state forward. *)
Lemma follows_onmessage (env : Env) (message : LiveServerMessage) :
  flag interrupted message = false ->
  preserved follows (onmessage env message).
Proof.
  intros H. unfold onmessage. rewrite H. unfold setChatMessages.
  repeat first
    [ apply preserved_schedule
    | preserved_step follows_refl follows_trans
        ltac:(intros []; apply follows_same; reflexivity) ].
Qed.

Lemma follows_deliver (ms : list (Env * LiveServerMessage)) (s : VoiceState) :
  Forall (fun em => flag interrupted (snd em) = false) ms ->
  follows s (deliver ms s).
Proof.
  intros H. apply (preserved_deliver _ follows_refl follows_trans).
  apply Forall_forall. intros [env m] Hin. rewrite Forall_forall in H.
  apply follows_onmessage, (H _ Hin).
Qed.

Lemma playback_untouched_refl (s : VoiceState) : playback_untouched s s.
Proof. intros H. repeat split. exact H. Qed.

Lemma playback_untouched_trans (s1 s2 s3 : VoiceState) :
  playback_untouched s1 s2 -> playback_untouched s2 s3 -> playback_untouched s1 s3.
Proof.
  intros H12 H23 H1. destruct (H12 H1) as (H2 & Hc & Hs & Hn & He).
  destruct (H23 H2) as (H3 & Hc' & Hs' & Hn' & He').
  repeat split; congruence.
Qed.

(** With the output context released, a message that carries no
    interruption leaves the playback state alone, whatever it carries. *)
Lemma playback_untouched_onmessage (env : Env) (message : LiveServerMessage) :
  flag interrupted message = false ->
  preserved playback_untouched (onmessage env message).
Proof.
  intros H. unfold onmessage. rewrite H. unfold setChatMessages.
  pose proof playback_untouched_refl as Hrefl.
  pose proof playback_untouched_trans as Htrans.
  do 3 (apply (preserved_bind _ Htrans);
        [ repeat preserved_step Hrefl Htrans
            ltac:(intros [] Hnone; repeat split; exact Hnone)
        | intros _ ]).
  apply (preserved_bind _ Htrans); [apply (preserved_lift _ Hrefl) | intros audio].
  apply preserved_bind_get. intros s Hnone.
  unfold bind. rewrite Hnone.
  destruct audio as [audio|]; cbn; repeat split; exact Hnone.
Qed.

(** An audio chunk that decodes, handled while the output context lives. *)
Lemma onmessage_AudioChunk_live (env : Env) (payload : string) (ctx : AudioContext)
    (bytes : list byte) (audioBuffer : AudioBuffer) (s : VoiceState) :
  outputAudioContextRef s = Some ctx ->
  truthy payload = true ->
  decode payload = Ok bytes ->
  decodeAudioData bytes ctx 24000 1 = Ok audioBuffer ->
  onmessage env (message_of (AudioChunk payload)) s
  = (set_audioSourcesRef (audioSourcesRef s ++ [nextSource s])
       (set_nextStartTimeRef
          (Qmax (nextStartTimeRef s) (currentTime env) + duration audioBuffer)%Q
          (perform
             [SourceStart (nextSource s) audioBuffer
                (Qmax (nextStartTimeRef s) (currentTime env))]
             (set_nextSource (S (nextSource s)) s))),
     Ok tt).
Proof.
  intros Hctx Htruthy Hdecode Hbuffer.
  pose proof (schedule_cases env payload ctx s) as Hs. cbv zeta in Hs.
  rewrite Hdecode, Hbuffer in Hs.
  unfold onmessage, bind, ret, lift, get, when_. cbn.
  rewrite Hctx, Htruthy, Hs. reflexivity.
Qed.

End Sessions.

(** C8.  An audio chunk that arrives once the output context has been
    released is ignored: when the output context reference is null,
    [onmessage] on an AudioChunk event returns normally and leaves the whole
    state as it was, so nothing is decoded, no source is created or started
    and the cursor and the active set are untouched.  [handleCleanup] nulls
    that reference, so this is the case for every chunk that arrives after
    cleanup.  The same holds of the playback state when the audio comes in
    a message that carries other fields too, short of an interruption: over
    every sequence of such messages the reference stays null and the
    cursor, the active set and the calls made stay as they were. *)
Theorem audio_after_teardown_ignored :
  (forall (env : Env) (payload : string) (s : VoiceState),
      outputAudioContextRef s = None ->
      onmessage env (message_of (AudioChunk payload)) s = (s, Ok tt))
  /\ (forall (env : Env) (payload : string) (s : VoiceState),
         outputAudioContextRef (handleCleanup s) = None
         /\ onmessage env (message_of (AudioChunk payload)) (handleCleanup s)
            = (handleCleanup s, Ok tt))
  /\ (forall (ms : list (Env * LiveServerMessage)) (s : VoiceState),
         outputAudioContextRef s = None ->
         Forall (fun em => flag interrupted (snd em) = false) ms ->
         outputAudioContextRef (deliver ms s) = None
         /\ nextStartTimeRef (deliver ms s) = nextStartTimeRef s
         /\ audioSourcesRef (deliver ms s) = audioSourcesRef s
         /\ nextSource (deliver ms s) = nextSource s
         /\ effects (deliver ms s) = effects s).
Proof.
  split; [exact onmessage_AudioChunk_released|]. split.
  - intros env payload s.
    assert (H : outputAudioContextRef (handleCleanup s) = None)
      by (rewrite handleCleanup_fields; reflexivity).
    split; [exact H | apply onmessage_AudioChunk_released, H].
  - intros ms s Hnone Hms. revert Hnone.
    apply (preserved_deliver _ playback_untouched_refl playback_untouched_trans).
    apply Forall_forall. intros [env m] Hin. rewrite Forall_forall in Hms.
    apply playback_untouched_onmessage, (Hms _ Hin).
Qed.

Lemma audio_after_teardown_ignored_witness :
  let torn_down := onclose {| currentTime := 3; dateNow := 1700000000000 |} sessionOpened in
  let env := {| currentTime := 4; dateNow := 1700000000500 |} in
  onmessage env (message_of (AudioChunk "AAAAAAAA")) torn_down = (torn_down, Ok tt)
  /\ effects
       (deliver
          [(env, {| serverContent := Some
                     {| inputTranscription := Some {| transcript := Some "late"%string |};
                        outputTranscription := None;
                        turnComplete := true;
                        modelTurn :=
                          Some {| parts :=
                                  Some [{| inlineData := Some (Some "AAAAAAAA"%string) |}] |};
                        interrupted := false |} |})] torn_down)
     = effects torn_down.
Proof.
  cbv zeta. destruct audio_after_teardown_ignored as (Hnull & _ & Hany). split.
  - apply Hnull. reflexivity.
  - apply Hany; [reflexivity | repeat constructor].
Defined.

(** C4.  The cursor.  An audio chunk handled while the output context
    lives, and that decodes, is started at the maximum of the cursor and
    the output clock, and the cursor is set at once to that start time plus
    the duration of the chunk.  Over every sequence of messages none of
    which carries an interruption, whatever else they carry and whether
    their handling returns or throws, the cursor never decreases and the
    chunks started during the sequence follow one another: each starts no
    earlier than the start time of the one before plus its duration, the
    first no earlier than the cursor at the beginning, and the last ends no
    later than the cursor at the end. *)
Theorem cursor_monotonic :
  (forall (env : Env) (payload : string) (ctx : AudioContext) (bytes : list byte)
          (audioBuffer : AudioBuffer) (s : VoiceState),
      outputAudioContextRef s = Some ctx ->
      truthy payload = true ->
      decode payload = Ok bytes ->
      decodeAudioData bytes ctx 24000 1 = Ok audioBuffer ->
      let start := Qmax (nextStartTimeRef s) (currentTime env) in
      let s' := fst (onmessage env (message_of (AudioChunk payload)) s) in
      snd (onmessage env (message_of (AudioChunk payload)) s) = Ok tt
      /\ effects s' = effects s ++ [SourceStart (nextSource s) audioBuffer start]
      /\ nextStartTimeRef s' = (start + duration audioBuffer)%Q
      /\ audioSourcesRef s' = audioSourcesRef s ++ [nextSource s])
  /\ (forall (ms : list (Env * LiveServerMessage)) (s : VoiceState),
         Forall (fun em => flag interrupted (snd em) = false) ms ->
         (nextStartTimeRef s <= nextStartTimeRef (deliver ms s))%Q
         /\ exists new,
             scheduled (effects (deliver ms s)) = scheduled (effects s) ++ new
             /\ (forall i start1 length1 start2 length2,
                    new !! i = Some (start1, length1) ->
                    new !! S i = Some (start2, length2) ->
                    (start1 + length1 <= start2)%Q)
             /\ (forall start length,
                    In (start, length) new ->
                    (nextStartTimeRef s <= start)%Q
                    /\ (start + length <= nextStartTimeRef (deliver ms s))%Q)).
Proof.
  split.
  - intros env payload ctx bytes audioBuffer s Hctx Htruthy Hdecode Hbuffer.
    cbv zeta.
    rewrite (onmessage_AudioChunk_live env payload ctx bytes audioBuffer s) by assumption.
    cbn [fst snd]. destruct s; repeat split.
  - intros ms s Hms. destruct (follows_deliver ms s Hms) as (new & Enew & Hnew).
    split; [apply (contiguous_le new), Hnew|].
    exists new. split; [exact Enew|]. split.
    + exact (contiguous_adjacent _ _ _ Hnew).
    + exact (contiguous_within _ _ _ Hnew).
Qed.

Lemma cursor_monotonic_witness :
  let env1 := {| currentTime := 1 # 10; dateNow := 1700000000000 |} in
  let env2 := {| currentTime := 1 # 10; dateNow := 1700000000010 |} in
  let env3 := {| currentTime := 2; dateNow := 1700000002000 |} in
  let ms :=
    [(env1, message_of (AudioChunk "AAAAAAAA"));
     (env2, message_of (AudioChunk "AAA="));
     (env3, message_of (AudioChunk "AAAAAAAAAAAAAAAA"))] in
  nextStartTimeRef (fst (onmessage env1 (message_of (AudioChunk "AAAAAAAA")) sessionOpened))
  = (Qmax 0 (1 # 10) + (3 # 24000))%Q
  /\ (nextStartTimeRef sessionOpened <= nextStartTimeRef (deliver ms sessionOpened))%Q
  /\ scheduled (effects (deliver ms sessionOpened))
     = [(1 # 10, 3 # 24000); ((1 # 10) + (3 # 24000), 1 # 24000); (2, 6 # 24000)]%Q.
Proof.
  cbv zeta. destruct cursor_monotonic as [Hone Hseq]. split; [|split].
  - destruct (Hone {| currentTime := 1 # 10; dateNow := 1700000000000 |}
                   "AAAAAAAA"%string (standardContext 2)
                   [x00; x00; x00; x00; x00; x00]
                   {| numberOfChannels := 1; frames := 3; sampleRate := 24000;
                      channels := [[Fin (0 # 32768); Fin (0 # 32768); Fin (0 # 32768)]] |}
                   sessionOpened eq_refl eq_refl eq_refl eq_refl)
      as (_ & _ & Hcursor & _).
    exact Hcursor.
  - apply Hseq. repeat constructor.
  - reflexivity.
Defined.

(** * Further properties of the code *)

(** ** Source nodes are started once and stopped at most once *)

Section Sources.

Lemma started_app (es new : list Effect) (source : nat) :
  started (es ++ new) source <-> started es source \/ started new source.
Proof.
  unfold started. split.
  - intros (b & w & H). apply in_app_iff in H. destruct H; eauto.
  - intros [(b & w & H) | (b & w & H)]; exists b, w; apply in_app_iff; auto.
Qed.

Lemma stopped_app (es new : list Effect) (source : nat) :
  stopped (es ++ new) source <-> stopped es source \/ stopped new source.
Proof. unfold stopped. apply in_app_iff. Qed.

Lemma started_quiet (new : list Effect) (source : nat) :
  Forall quiet new -> ~ started new source.
Proof.
  intros H (b & w & Hin). rewrite Forall_forall in H.
  apply (H (SourceStart source b w)), list_elem_of_In, Hin.
Qed.

Lemma stopped_quiet (new : list Effect) (source : nat) :
  Forall quiet new -> ~ stopped new source.
Proof.
  intros H Hin. rewrite Forall_forall in H.
  apply (H (SourceStop source)), list_elem_of_In, Hin.
Qed.

Lemma stopped_stops (l : list nat) (source : nat) :
  stopped (map SourceStop l) source <-> In source l.
Proof.
  unfold stopped. rewrite in_map_iff. split.
  - intros (x & E & H). injection E as ->. exact H.
  - intros H. exists source. auto.
Qed.

Lemma started_stops (l : list nat) (source : nat) : ~ started (map SourceStop l) source.
Proof.
  intros (b & w & H). apply in_map_iff in H. destruct H as (x & E & _). discriminate.
Qed.

Lemma orderly_app_quiet (es new : list Effect) :
  orderly es -> Forall quiet new -> orderly (es ++ new).
Proof.
  intros Hes. induction new as [|e new IH] using rev_ind; intros Hq.
  - rewrite app_nil_r. exact Hes.
  - apply Forall_app in Hq. destruct Hq as [Hnew He].
    rewrite app_assoc. apply orderly_quiet; [apply IH, Hnew|].
    inversion He; assumption.
Qed.

Lemma orderly_app_stops (l : list nat) (es : list Effect) :
  orderly es -> NoDup l ->
  (forall source, In source l -> started es source /\ ~ stopped es source) ->
  orderly (es ++ map SourceStop l).
Proof.
  revert es. induction l as [|x l IH]; intros es Hes Hnd Hl.
  - cbn [map]. rewrite app_nil_r. exact Hes.
  - apply NoDup_cons in Hnd. destruct Hnd as [Hx Hnd].
    cbn [map].
    change (es ++ SourceStop x :: map SourceStop l)
      with (es ++ [SourceStop x] ++ map SourceStop l).
    rewrite app_assoc.
    destruct (Hl x (or_introl eq_refl)) as [Hstarted Hnot].
    apply IH; [apply orderly_stop; assumption | exact Hnd |].
    intros source Hin. destruct (Hl source (or_intror Hin)) as [Hs Hn]. split.
    + apply started_app. left. exact Hs.
    + intros H. apply stopped_app in H. destruct H as [H | [H | []]]; [auto|].
      injection H as ->. apply Hx, list_elem_of_In, Hin.
Qed.

Lemma orderly_stopped_started (es : list Effect) (source : nat) :
  orderly es -> stopped es source -> started es source.
Proof.
  induction 1 as [| es x b w _ IH _ | es x _ IH Hs _ | es e _ IH Hq]; intros H.
  - destruct H.
  - apply stopped_app in H. destruct H as [H | [H | []]]; [|discriminate].
    apply started_app. left. auto.
  - apply started_app. left.
    apply stopped_app in H. destruct H as [H | [H | []]]; [auto|].
    injection H as <-. exact Hs.
  - apply started_app. left.
    apply stopped_app in H. destruct H as [H | [H | []]]; [auto|].
    subst e. destruct Hq.
Qed.

(** The three ways a callback extends the trace. *)

Lemma consistent_same (s s' : VoiceState) :
  effects s' = effects s -> audioSourcesRef s' = audioSourcesRef s ->
  nextSource s' = nextSource s ->
  sources_consistent s -> sources_consistent s'.
Proof.
  intros He Ha Hn [H1 H2 H3 H4].
  split; rewrite ?He, ?Ha, ?Hn; assumption.
Qed.

Lemma consistent_release (s s' : VoiceState) (before : list Effect) :
  Forall quiet before ->
  effects s' = effects s ++ before ++ map SourceStop (audioSourcesRef s) ->
  audioSourcesRef s' = [] ->
  nextSource s' = nextSource s ->
  sources_consistent s -> sources_consistent s'.
Proof.
  intros Hq He Ha Hn [H1 H2 H3 H4].
  split; rewrite ?He, ?Ha, ?Hn.
  - constructor.
  - intros source [].
  - intros source H. apply H3.
    apply started_app in H. destruct H as [H|H]; [exact H|].
    apply started_app in H. destruct H as [H|H].
    + destruct (started_quiet _ _ Hq H).
    + destruct (started_stops _ _ H).
  - rewrite app_assoc. apply orderly_app_stops.
    + apply orderly_app_quiet; assumption.
    + exact H1.
    + intros source Hin. destruct (H2 source Hin) as [Hs Hn']. split.
      * apply started_app. left. exact Hs.
      * intros H. apply stopped_app in H. destruct H as [H|H]; [auto|].
        destruct (stopped_quiet _ _ Hq H).
Qed.

Lemma consistent_start (s s' : VoiceState) (buffer : AudioBuffer) (when : Q) :
  effects s' = effects s ++ [SourceStart (nextSource s) buffer when] ->
  audioSourcesRef s' = audioSourcesRef s ++ [nextSource s] ->
  nextSource s' = S (nextSource s) ->
  sources_consistent s -> sources_consistent s'.
Proof.
  intros He Ha Hn [H1 H2 H3 H4].
  assert (Hfresh : ~ started (effects s) (nextSource s)).
  { intros H. apply H3 in H. lia. }
  split; rewrite ?He, ?Ha, ?Hn.
  - apply NoDup_app. split; [exact H1|]. split; [|apply NoDup_singleton].
    intros x Hx Hx'. apply list_elem_of_In in Hx.
    apply list_elem_of_singleton in Hx'. subst x.
    apply Hfresh, (H2 _ Hx).
  - intros source Hin. apply in_app_iff in Hin. destruct Hin as [Hin | [<- | []]].
    + destruct (H2 source Hin) as [Hs Hn']. split.
      * apply started_app. left. exact Hs.
      * intros H. apply stopped_app in H. destruct H as [H | [H | []]]; [auto|discriminate].
    + split.
      * apply started_app. right. exists buffer, when. left. reflexivity.
      * intros H. apply stopped_app in H. destruct H as [H | [H | []]]; [|discriminate].
        apply Hfresh, (orderly_stopped_started _ _ H4 H).
  - intros source H. apply started_app in H. destruct H as [H | (b & w & [E | []])].
    + apply H3 in H. lia.
    + injection E as -> _ _. lia.
  - apply orderly_start; assumption.
Qed.

Lemma consistent_quiet (s s' : VoiceState) (new : list Effect) :
  Forall quiet new ->
  effects s' = effects s ++ new ->
  audioSourcesRef s' = audioSourcesRef s ->
  nextSource s' = nextSource s ->
  sources_consistent s -> sources_consistent s'.
Proof.
  intros Hq He Ha Hn [H1 H2 H3 H4].
  split; rewrite ?He, ?Ha, ?Hn.
  - exact H1.
  - intros source Hin. destruct (H2 source Hin) as [Hs Hn']. split.
    + apply started_app. left. exact Hs.
    + intros H. apply stopped_app in H. destruct H as [H|H]; [auto|].
      destruct (stopped_quiet _ _ Hq H).
  - intros source H. apply H3. apply started_app in H. destruct H as [H|H]; [exact H|].
    destruct (started_quiet _ _ Hq H).
  - apply orderly_app_quiet; assumption.
Qed.

Lemma consistent_onended (source : nat) (s : VoiceState) :
  sources_consistent s -> sources_consistent (onended source s).
Proof.
  intros [H1 H2 H3 H4]. unfold onended. split; cbn.
  - apply NoDup_filter, H1.
  - intros x Hin. apply H2.
    apply list_elem_of_In, list_elem_of_filter in Hin. apply list_elem_of_In, Hin.
  - exact H3.
  - exact H4.
Qed.

Lemma quiet_releases (s : VoiceState) :
  Forall quiet (stops (mediaStreamRef s) ++ closes (inputAudioContextRef s)
                ++ closes (outputAudioContextRef s)).
Proof.
  repeat apply Forall_app_2.
  - unfold stops. destruct (mediaStreamRef s) as [stream|]; [|constructor].
    apply Forall_forall. intros e He.
    apply list_elem_of_In, in_map_iff in He. destruct He as (t & <- & _). exact I.
  - unfold closes. destruct (inputAudioContextRef s) as [ctx|]; [|constructor].
    destruct (is_closed (ctx_state ctx)); repeat constructor.
  - unfold closes. destruct (outputAudioContextRef s) as [ctx|]; [|constructor].
    destruct (is_closed (ctx_state ctx)); repeat constructor.
Qed.

Lemma consistent_handleCleanup (s : VoiceState) :
  sources_consistent s -> sources_consistent (handleCleanup s).
Proof.
  apply (consistent_release s (handleCleanup s)
           (stops (mediaStreamRef s) ++ closes (inputAudioContextRef s)
            ++ closes (outputAudioContextRef s))).
  - apply quiet_releases.
  - rewrite handleCleanup_effects, <- !app_assoc. reflexivity.
  - rewrite handleCleanup_fields. reflexivity.
  - rewrite handleCleanup_fields. reflexivity.
Qed.

Lemma consistent_onclose (env : Env) (s : VoiceState) :
  sources_consistent s -> sources_consistent (onclose env s).
Proof.
  intros H. unfold onclose. apply consistent_handleCleanup.
  revert H. apply consistent_same; reflexivity.
Qed.

Lemma consistent_onerror (env : Env) (message : string) (s : VoiceState) :
  sources_consistent s -> sources_consistent (onerror env message s).
Proof.
  intros H. unfold onerror. apply consistent_handleCleanup.
  revert H. apply (consistent_quiet _ _ [ConsoleError "Live session error:"]);
    [repeat constructor | reflexivity..].
Qed.

Lemma keeps_consistent_refl (s : VoiceState) : keeps_consistent s s.
Proof. intros H. exact H. Qed.

Lemma keeps_consistent_trans (s1 s2 s3 : VoiceState) :
  keeps_consistent s1 s2 -> keeps_consistent s2 s3 -> keeps_consistent s1 s3.
Proof. intros H12 H23 H. apply H23, H12, H. Qed.

Lemma consistent_schedule (env : Env) (audio : string) (ctx : AudioContext) :
  preserved keeps_consistent (schedule env audio ctx).
Proof.
  intros s. rewrite schedule_cases. cbv zeta.
  assert (Hmax : keeps_consistent s
                   (set_nextStartTimeRef (Qmax (nextStartTimeRef s) (currentTime env)) s)).
  { unfold keeps_consistent. apply consistent_same; reflexivity. }
  destruct (decode audio) as [bytes|e]; [|exact Hmax].
  destruct (decodeAudioData bytes ctx 24000 1) as [audioBuffer|e]; [|exact Hmax].
  cbn [fst]. unfold keeps_consistent.
  apply (consistent_start _ _ audioBuffer (Qmax (nextStartTimeRef s) (currentTime env)));
    reflexivity.
Qed.

Lemma consistent_interrupt : preserved keeps_consistent interrupt.
Proof.
  intros s. unfold keeps_consistent.
  apply (consistent_release _ _ []); [constructor | reflexivity..].
Qed.

Lemma consistent_onmessage (env : Env) (message : LiveServerMessage) :
  preserved keeps_consistent (onmessage env message).
Proof.
  unfold onmessage, setChatMessages.
  repeat first
    [ apply consistent_schedule
    | apply consistent_interrupt
    | preserved_step keeps_consistent_refl keeps_consistent_trans
        ltac:(intros []; unfold keeps_consistent; apply consistent_same; reflexivity) ].
Qed.

Lemma consistent_step (c : Callback) (s : VoiceState) :
  sources_consistent s -> sources_consistent (step s c).
Proof.
  destruct c as [env message | source | env | env message | env]; cbn [step].
  - apply consistent_onmessage.
  - apply consistent_onended.
  - apply consistent_onclose.
  - apply consistent_onerror.
  - apply consistent_same; reflexivity.
Qed.

End Sources.

(** X1.  Whatever callbacks run, in whatever order, the calls on source
    nodes stay orderly: no node is started twice, [stop] is only ever called
    on a node that has been started and has not been stopped yet, and the
    active set holds distinct nodes, each started and not stopped. *)
Theorem sources_stay_consistent (cs : list Callback) (s : VoiceState) :
  sources_consistent s -> sources_consistent (run cs s).
Proof.
  revert s. induction cs as [|c cs IH]; intros s H; [exact H|].
  change (run (c :: cs) s) with (run cs (step s c)).
  apply IH, consistent_step, H.
Qed.

Lemma sources_stay_consistent_witness :
  let env := {| currentTime := 1 # 10; dateNow := 1700000000000 |} in
  let cs :=
    [Message env (message_of (AudioChunk "AAAAAAAA"));
     Message env (message_of (AudioChunk "AAAAAAAA"));
     Ended 0;
     Message env (message_of Interrupted);
     Message env (message_of (AudioChunk "AAA="));
     Failed env "lost";
     Closed env] in
  sources_consistent (run cs sessionOpened)
  /\ map (fun e => match e with SourceStop source => Some source | _ => None end)
       (List.filter (fun e => match e with SourceStop _ => true | _ => false end)
          (effects (run cs sessionOpened)))
     = [Some 1%nat; Some 2%nat].
Proof.
  cbv zeta. split; [|reflexivity].
  apply sources_stay_consistent.
  split; cbn.
  - constructor.
  - intros source [].
  - intros source (b & w & []).
  - constructor.
Defined.

(** ** Back-to-back playback *)

Section Gapless.


Lemma Qmax_ahead (cursor clock : Q) : (cursor < clock)%Q -> Qmax cursor clock = clock.
Proof.
  intros H. unfold Qmax, GenericMinMax.gmax.
  destruct (cursor ?= clock)%Q eqn:E; try reflexivity.
  - apply Qeq_alt in E. rewrite E in H. destruct (Qlt_irrefl _ H).
  - apply Qgt_alt in E. destruct (Qlt_irrefl _ (Qlt_trans _ _ _ H E)).
Qed.

Lemma deliver_cons (env : Env) (message : LiveServerMessage)
    (ms : list (Env * LiveServerMessage)) (s : VoiceState) :
  deliver ((env, message) :: ms) s = deliver ms (fst (onmessage env message s)).
Proof. reflexivity. Qed.


End Gapless.



(** X3.  A chunk that arrives after the output clock has passed the cursor
    starts at the clock, and the cursor is moved to the clock plus the
    length of the chunk. *)
Theorem late_chunk_starts_at_clock (ctx : AudioContext) (env : Env) (payload : string)
    (s : VoiceState) :
  outputAudioContextRef s = Some ctx ->
  decodes ctx payload ->
  (nextStartTimeRef s < currentTime env)%Q ->
  exists audioBuffer,
    effects (fst (onmessage env (message_of (AudioChunk payload)) s))
    = effects s ++ [SourceStart (nextSource s) audioBuffer (currentTime env)]
    /\ nextStartTimeRef (fst (onmessage env (message_of (AudioChunk payload)) s))
       = (currentTime env + duration audioBuffer)%Q.
Proof.
  intros Hctx [Htruthy (bytes & audioBuffer & Hdecode & Hbuffer)] Hlate.
  exists audioBuffer.
  rewrite (onmessage_AudioChunk_live env payload ctx bytes audioBuffer s) by assumption.
  cbn [fst]. rewrite (Qmax_ahead _ _ Hlate). split; reflexivity.
Qed.

Lemma late_chunk_starts_at_clock_witness :
  exists audioBuffer,
    effects (fst (onmessage {| currentTime := 3 # 2; dateNow := 1700000000000 |}
                    (message_of (AudioChunk "AAAAAAAA")) sessionOpened))
    = effects sessionOpened
      ++ [SourceStart (nextSource sessionOpened) audioBuffer
            (currentTime {| currentTime := 3 # 2; dateNow := 1700000000000 |})]
    /\ nextStartTimeRef
         (fst (onmessage {| currentTime := 3 # 2; dateNow := 1700000000000 |}
                 (message_of (AudioChunk "AAAAAAAA")) sessionOpened))
       = (currentTime {| currentTime := 3 # 2; dateNow := 1700000000000 |}
          + duration audioBuffer)%Q.
Proof.
  apply (late_chunk_starts_at_clock (standardContext 2)
           {| currentTime := 3 # 2; dateNow := 1700000000000 |} "AAAAAAAA" sessionOpened).
  - reflexivity.
  - split; [reflexivity|]. do 2 eexists; split; vm_compute; reflexivity.
  - reflexivity.
Defined.

(** ** Failures, transcripts and the end of a session *)

Lemma onmessage_without_audio (env : Env) (message : LiveServerMessage) (s : VoiceState) :
  onmessage env (without_audio message) s
  = (fst (onmessage env (without_audio message) s), Ok tt)
  /\ onmessage env message s
     = audio_part env message (fst (onmessage env (without_audio message) s)).
Proof.
  destruct message as [[[it ot tc mt intr]|]];
    unfold onmessage, without_audio, field, flag, audio_part;
    cbn [serverContent inputTranscription outputTranscription turnComplete modelTurn
         interrupted base64Audio].
  - destruct it as [it|], ot as [ot|], tc;
      cbv [bind when_ modify get ret lift setChatMessages];
      cbn [currentInputTranscription currentOutputTranscription
           set_currentInputTranscription set_currentOutputTranscription];
      repeat match goal with
        | |- context [truthy ?x] => destruct (truthy x)
        end;
      split; reflexivity.
  - cbv [bind when_ modify get ret lift]. split; reflexivity.
Qed.

Section Text.

Lemma without_audio_text (env : Env) (message : LiveServerMessage) (s : VoiceState) :
  let s0 := fst (onmessage env (without_audio message) s) in
  same_playback s s0
  /\ chatMessages s0 = chatMessages s
  /\ queuedChatUpdates s0
     = queuedChatUpdates s
       ++ (if flag turnComplete message then flushed (transcribed message s) else [])
  /\ currentInputTranscription s0
     = (if flag turnComplete message then EmptyString
        else currentInputTranscription (transcribed message s))
  /\ currentOutputTranscription s0
     = (if flag turnComplete message then EmptyString
        else currentOutputTranscription (transcribed message s)).
Proof.
  destruct message as [[[it ot tc mt intr]|]];
    unfold onmessage, without_audio, field, flag, transcribed, input_text, output_text,
      flushed, same_playback, field;
    cbn [serverContent inputTranscription outputTranscription turnComplete modelTurn
         interrupted base64Audio].
  - destruct it as [it|], ot as [ot|], tc;
      cbv [bind when_ modify get ret lift setChatMessages];
      cbn [currentInputTranscription currentOutputTranscription
           set_currentInputTranscription set_currentOutputTranscription];
      rewrite ?append_empty_r;
      repeat match goal with
        | |- context [truthy ?x] => destruct (truthy x)
        end;
      cbn; rewrite ?app_nil_r, <- ?app_assoc; repeat split; reflexivity.
  - cbv [bind when_ modify get ret lift]. cbn. rewrite ?append_empty_r, ?app_nil_r.
    repeat split; reflexivity.
Qed.

End Text.

Section Failures.

Lemma audio_part_throws (env : Env) (message : LiveServerMessage) (e : Exception)
    (s : VoiceState) :
  base64Audio message = Throw e ->
  audio_part env message s = (s, Throw e).
Proof.
  intros H. unfold audio_part. rewrite H. reflexivity.
Qed.

Lemma audio_part_undecodable (env : Env) (message : LiveServerMessage) (payload : string)
    (ctx : AudioContext) (e : Exception) (s : VoiceState) :
  base64Audio message = Ok (Some payload) ->
  truthy payload = true ->
  outputAudioContextRef s = Some ctx ->
  bind_result (decode payload) (fun bytes => decodeAudioData bytes ctx 24000 1) = Throw e ->
  audio_part env message s
  = (set_nextStartTimeRef (Qmax (nextStartTimeRef s) (currentTime env)) s, Throw e).
Proof.
  intros Haudio Htruthy Hctx Hfail. unfold audio_part. rewrite Haudio.
  unfold bind at 1. unfold lift at 1. unfold bind at 1. unfold bind at 1. unfold get at 1.
  rewrite Hctx, Htruthy. cbn [when_]. rewrite schedule_cases. cbv zeta.
  destruct (decode payload) as [bytes|e']; cbn [bind_result] in Hfail.
  - rewrite Hfail. reflexivity.
  - injection Hfail as ->. reflexivity.
Qed.

End Failures.

(** X4.  Audio that cannot be decoded makes [onmessage] fail after the
    transcripts and the turn of the message have been handled as usual: the
    cursor has been raised to the clock, no source node has been created or
    started, and an interruption carried by the same message is not acted
    on. *)
Theorem undecodable_audio_throws (env : Env) (message : LiveServerMessage)
    (payload : string) (ctx : AudioContext) (e : Exception) (s : VoiceState) :
  base64Audio message = Ok (Some payload) ->
  truthy payload = true ->
  outputAudioContextRef s = Some ctx ->
  bind_result (decode payload) (fun bytes => decodeAudioData bytes ctx 24000 1) = Throw e ->
  onmessage env message s
  = (set_nextStartTimeRef (Qmax (nextStartTimeRef s) (currentTime env))
       (fst (onmessage env (without_audio message) s)),
     Throw e).
Proof.
  intros Haudio Htruthy Hctx Hfail.
  destruct (onmessage_without_audio env message s) as [_ ->].
  destruct (without_audio_text env message s) as [(_ & _ & Hout & _ & _ & Hcursor & _) _].
  rewrite (audio_part_undecodable env message payload ctx e); try assumption.
  - rewrite Hcursor. reflexivity.
  - rewrite Hout. exact Hctx.
Qed.

Lemma undecodable_audio_throws_witness :
  onmessage {| currentTime := 2; dateNow := 1700000000000 |}
    {| serverContent := Some
         {| inputTranscription := Some {| transcript := Some "hi"%string |};
            outputTranscription := None;
            turnComplete := false;
            modelTurn := Some {| parts := Some [{| inlineData := Some (Some "AA=="%string) |}] |};
            interrupted := true |} |}
    sessionOpened
  = (set_nextStartTimeRef
       (Qmax (nextStartTimeRef sessionOpened)
          (currentTime {| currentTime := 2; dateNow := 1700000000000 |}))
       (fst (onmessage {| currentTime := 2; dateNow := 1700000000000 |}
               (without_audio
                  {| serverContent := Some
                       {| inputTranscription := Some {| transcript := Some "hi"%string |};
                          outputTranscription := None;
                          turnComplete := false;
                          modelTurn :=
                            Some {| parts := Some [{| inlineData := Some (Some "AA=="%string) |}] |};
                          interrupted := true |} |})
               sessionOpened)),
     Throw RangeError).
Proof.
  apply (undecodable_audio_throws _ _ "AA==" (standardContext 2) RangeError sessionOpened).
  - reflexivity.
  - reflexivity.
  - reflexivity.
  - vm_compute. reflexivity.
Defined.

(** X5.  A model turn without a [parts] array makes [onmessage] fail with a
    [TypeError] once the transcripts and the turn of the message have been
    handled: nothing is scheduled and an interruption carried by the same
    message is not acted on. *)
Theorem missing_parts_throws (env : Env) (message : LiveServerMessage)
    (content : ServerContent) (turn : Content) (s : VoiceState) :
  serverContent message = Some content ->
  modelTurn content = Some turn ->
  parts turn = None ->
  onmessage env message s
  = (fst (onmessage env (without_audio message) s), Throw TypeError).
Proof.
  intros Hcontent Hturn Hparts.
  destruct (onmessage_without_audio env message s) as [_ ->].
  apply audio_part_throws. unfold base64Audio. rewrite Hcontent, Hturn, Hparts. reflexivity.
Qed.

Lemma missing_parts_throws_witness :
  onmessage {| currentTime := 2; dateNow := 1700000000000 |}
    {| serverContent := Some
         {| inputTranscription := None;
            outputTranscription := Some {| transcript := Some "ok"%string |};
            turnComplete := true;
            modelTurn := Some {| parts := None |};
            interrupted := true |} |}
    sessionOpened
  = (fst (onmessage {| currentTime := 2; dateNow := 1700000000000 |}
            (without_audio
               {| serverContent := Some
                    {| inputTranscription := None;
                       outputTranscription := Some {| transcript := Some "ok"%string |};
                       turnComplete := true;
                       modelTurn := Some {| parts := None |};
                       interrupted := true |} |})
            sessionOpened),
     Throw TypeError).
Proof.
  apply (missing_parts_throws _ _
           {| inputTranscription := None;
              outputTranscription := Some {| transcript := Some "ok"%string |};
              turnComplete := true;
              modelTurn := Some {| parts := None |};
              interrupted := true |}
           {| parts := None |}); reflexivity.
Defined.

Section Transcripts.

Lemma same_text_refl (s : VoiceState) : same_text s s.
Proof. repeat split. Qed.

Lemma same_text_trans (s1 s2 s3 : VoiceState) :
  same_text s1 s2 -> same_text s2 s3 -> same_text s1 s3.
Proof.
  intros (H1 & H2 & H3 & H4) (H5 & H6 & H7 & H8). repeat split; congruence.
Qed.

Lemma same_text_audio_part (env : Env) (message : LiveServerMessage) :
  preserved same_text (audio_part env message).
Proof.
  unfold audio_part, schedule, interrupt.
  repeat preserved_step same_text_refl same_text_trans ltac:(intros s; repeat split).
Qed.

Lemma onmessage_text (env : Env) (message : LiveServerMessage) (s : VoiceState) :
  let s' := fst (onmessage env message s) in
  chatMessages s' = chatMessages s
  /\ queuedChatUpdates s'
     = queuedChatUpdates s
       ++ (if flag turnComplete message then flushed (transcribed message s) else [])
  /\ currentInputTranscription s'
     = (if flag turnComplete message then EmptyString
        else currentInputTranscription (transcribed message s))
  /\ currentOutputTranscription s'
     = (if flag turnComplete message then EmptyString
        else currentOutputTranscription (transcribed message s)).
Proof.
  cbv zeta. destruct (onmessage_without_audio env message s) as [_ ->].
  destruct (same_text_audio_part env message (fst (onmessage env (without_audio message) s)))
    as (-> & -> & -> & ->).
  apply without_audio_text.
Qed.

Lemma chunks_text_cons (t : string) (ts : list string) :
  chunks_text (t :: ts) = (t ++ chunks_text ts)%string.
Proof.
  unfold chunks_text at 1. cbn [fold_left]. apply fold_append.
Qed.

Lemma transcripts_deliver (ms : list (Env * LiveServerMessage)) (s : VoiceState) :
  Forall (fun em => flag turnComplete (snd em) = false) ms ->
  chatMessages (deliver ms s) = chatMessages s
  /\ queuedChatUpdates (deliver ms s) = queuedChatUpdates s
  /\ currentInputTranscription (deliver ms s)
     = (currentInputTranscription s
        ++ chunks_text (map (fun em => input_text (snd em)) ms))%string
  /\ currentOutputTranscription (deliver ms s)
     = (currentOutputTranscription s
        ++ chunks_text (map (fun em => output_text (snd em)) ms))%string.
Proof.
  revert s. induction ms as [|[env message] ms IH]; intros s Hall.
  - cbn. rewrite !append_empty_r. repeat split.
  - apply Forall_cons in Hall. destruct Hall as [Hm Hall]. cbn [snd] in Hm.
    rewrite deliver_cons.
    destruct (IH (fst (onmessage env message s)) Hall) as (-> & -> & -> & ->).
    destruct (onmessage_text env message s) as (-> & -> & -> & ->). rewrite Hm.
    cbn [map snd]. rewrite !chunks_text_cons, <- !append_assoc, app_nil_r.
    repeat split.
Qed.

End Transcripts.

(** X6.  Transcripts accumulate whatever else the messages carry.  Over
    any messages that do not complete a turn, including ones whose audio
    fails to decode and ones that interrupt, nothing is added to the
    conversation or queued for it, and each transcript variable grows by
    exactly the transcript texts of the messages, in order. *)
Theorem transcripts_accumulate (ms : list (Env * LiveServerMessage)) (s : VoiceState) :
  Forall (fun em => flag turnComplete (snd em) = false) ms ->
  chatMessages (deliver ms s) = chatMessages s
  /\ queuedChatUpdates (deliver ms s) = queuedChatUpdates s
  /\ currentInputTranscription (deliver ms s)
     = (currentInputTranscription s
        ++ chunks_text (map (fun em => input_text (snd em)) ms))%string
  /\ currentOutputTranscription (deliver ms s)
     = (currentOutputTranscription s
        ++ chunks_text (map (fun em => output_text (snd em)) ms))%string.
Proof.
  apply transcripts_deliver.
Qed.

Lemma transcripts_accumulate_witness :
  currentInputTranscription
    (deliver
       [({| currentTime := 1; dateNow := 1700000000000 |},
         {| serverContent := Some
              {| inputTranscription := Some {| transcript := Some "turn "%string |};
                 outputTranscription := None;
                 turnComplete := false;
                 modelTurn :=
                   Some {| parts := Some [{| inlineData := Some (Some "AA=="%string) |}] |};
                 interrupted := false |} |});
        ({| currentTime := 2; dateNow := 1700000000500 |},
         {| serverContent := Some
              {| inputTranscription := Some {| transcript := Some "left"%string |};
                 outputTranscription := Some {| transcript := None |};
                 turnComplete := false;
                 modelTurn := None;
                 interrupted := true |} |})]
       sessionOpened)
  = "turn left"%string
  /\ currentOutputTranscription
       (deliver
          [({| currentTime := 1; dateNow := 1700000000000 |},
            {| serverContent := Some
                 {| inputTranscription := Some {| transcript := Some "turn "%string |};
                    outputTranscription := None;
                    turnComplete := false;
                    modelTurn :=
                      Some {| parts := Some [{| inlineData := Some (Some "AA=="%string) |}] |};
                    interrupted := false |} |});
           ({| currentTime := 2; dateNow := 1700000000500 |},
            {| serverContent := Some
                 {| inputTranscription := Some {| transcript := Some "left"%string |};
                    outputTranscription := Some {| transcript := None |};
                    turnComplete := false;
                    modelTurn := None;
                    interrupted := true |} |})]
          sessionOpened)
     = "undefined"%string.
Proof.
  destruct (transcripts_accumulate
              [({| currentTime := 1; dateNow := 1700000000000 |},
                {| serverContent := Some
                     {| inputTranscription := Some {| transcript := Some "turn "%string |};
                        outputTranscription := None;
                        turnComplete := false;
                        modelTurn :=
                          Some {| parts := Some [{| inlineData := Some (Some "AA=="%string) |}] |};
                        interrupted := false |} |});
               ({| currentTime := 2; dateNow := 1700000000500 |},
                {| serverContent := Some
                     {| inputTranscription := Some {| transcript := Some "left"%string |};
                        outputTranscription := Some {| transcript := None |};
                        turnComplete := false;
                        modelTurn := None;
                        interrupted := true |} |})]
              sessionOpened) as (_ & _ & Hin & Hout).
  - repeat constructor.
  - split; [exact Hin | exact Hout].
Defined.

Section Released.

Lemma stays_released_refl (s : VoiceState) : stays_released s s.
Proof.
  intros H. split; [exact H|]. exists []. split; [symmetry; apply app_nil_r | constructor].
Qed.

Lemma stays_released_trans (s1 s2 s3 : VoiceState) :
  stays_released s1 s2 -> stays_released s2 s3 -> stays_released s1 s3.
Proof.
  intros H12 H23 H1. destruct (H12 H1) as (H2 & l1 & E1 & L1).
  destruct (H23 H2) as (H3 & l2 & E2 & L2). split; [exact H3|].
  exists (l1 ++ l2). split; [rewrite E2, E1; symmetry; apply app_assoc|].
  apply Forall_app. split; assumption.
Qed.

Lemma stays_released_same (s s' : VoiceState) :
  mediaStreamRef s' = mediaStreamRef s ->
  inputAudioContextRef s' = inputAudioContextRef s ->
  outputAudioContextRef s' = outputAudioContextRef s ->
  audioSourcesRef s' = audioSourcesRef s ->
  effects s' = effects s ->
  stays_released s s'.
Proof.
  intros E1 E2 E3 E4 E5 (H1 & H2 & H3 & H4).
  split; [repeat split; congruence|].
  exists []. split; [rewrite E5; symmetry; apply app_nil_r | constructor].
Qed.

Lemma stays_released_interrupt : preserved stays_released interrupt.
Proof.
  intros s (H1 & H2 & H3 & H4). split; [repeat split; assumption|].
  exists []. split; [|constructor]. cbn. rewrite H4. reflexivity.
Qed.

Lemma stays_released_audio_part (env : Env) (message : LiveServerMessage) :
  preserved stays_released (audio_part env message).
Proof.
  unfold audio_part.
  apply (preserved_bind _ stays_released_trans);
    [apply (preserved_lift _ stays_released_refl) | intros audio].
  apply preserved_bind_get. intros s Hs.
  assert (E : (match audio, outputAudioContextRef s with
               | Some audio, Some ctx => when_ (truthy audio) (schedule env audio ctx)
               | _, _ => ret tt
               end ;;; when_ (flag interrupted message) interrupt) s
              = when_ (flag interrupted message) interrupt s).
  { destruct Hs as (_ & _ & H3 & _). unfold bind. rewrite H3. destruct audio; reflexivity. }
  rewrite E.
  exact (preserved_when _ stays_released_refl _ _ stays_released_interrupt s Hs).
Qed.

Lemma stays_released_onmessage (env : Env) (message : LiveServerMessage) (s : VoiceState) :
  stays_released s (fst (onmessage env message s)).
Proof.
  destruct (onmessage_without_audio env message s) as [_ ->].
  apply stays_released_trans with (fst (onmessage env (without_audio message) s)).
  - destruct (without_audio_text env message s)
      as [(_ & _ & E3 & E2 & E1 & _ & E4 & _ & E5) _].
    apply stays_released_same; assumption.
  - apply stays_released_audio_part.
Qed.

Lemma stays_released_handleCleanup (s : VoiceState) : stays_released s (handleCleanup s).
Proof.
  intros (H1 & H2 & H3 & H4).
  destruct (handleCleanup_refs s) as (E1 & E2 & E3 & E4 & _).
  split; [repeat split; assumption|].
  exists []. rewrite handleCleanup_released by assumption.
  split; [symmetry; apply app_nil_r | constructor].
Qed.

Lemma stays_released_step (c : Callback) (s : VoiceState) : stays_released s (step s c).
Proof.
  destruct c as [env message | source | env | env message | env]; cbn [step].
  - apply stays_released_onmessage.
  - intros (H1 & H2 & H3 & H4). unfold onended. split.
    + repeat split; try assumption. cbn. rewrite H4. reflexivity.
    + exists []. split; [symmetry; apply app_nil_r | constructor].
  - unfold onclose. cbv zeta.
    eapply stays_released_trans; [|apply stays_released_handleCleanup].
    apply stays_released_same; reflexivity.
  - unfold onerror. cbv zeta.
    eapply stays_released_trans; [|apply stays_released_handleCleanup].
    eapply stays_released_trans; [|apply stays_released_same; reflexivity].
    intros H. split; [exact H|].
    exists [ConsoleError "Live session error:"]. split; [reflexivity|].
    repeat constructor.
  - apply stays_released_same; reflexivity.
Qed.

End Released.

(** X7.  The end of a session is final.  Once the media stream, both audio
    contexts and the active set have been released, no callback that still
    arrives (late messages, [ended] events, a second [onclose] or
    [onerror]) starts, stops or closes anything: the session stays
    released and only console output is added to the calls made. *)
Theorem released_session_stays_released (cs : list Callback) (s : VoiceState) :
  released s ->
  released (run cs s)
  /\ exists logs, effects (run cs s) = effects s ++ logs /\ log_only logs.
Proof.
  revert s. induction cs as [|c cs IH]; intros s H.
  - apply stays_released_refl, H.
  - change (run (c :: cs) s) with (run cs (step s c)).
    apply (stays_released_trans s (step s c)); [apply stays_released_step | | exact H].
    intros H'. apply IH, H'.
Qed.

Lemma released_session_stays_released_witness :
  released
    (run [Message {| currentTime := 4; dateNow := 1700000001000 |}
            (message_of (AudioChunk "AAAAAAAA"));
          Message {| currentTime := 5; dateNow := 1700000002000 |} (message_of Interrupted);
          Ended 0;
          Failed {| currentTime := 6; dateNow := 1700000003000 |} "closed";
          Closed {| currentTime := 7; dateNow := 1700000004000 |}]
       (onclose {| currentTime := 3; dateNow := 1700000000000 |} sessionOpened))
  /\ exists logs,
      effects
        (run [Message {| currentTime := 4; dateNow := 1700000001000 |}
                (message_of (AudioChunk "AAAAAAAA"));
              Message {| currentTime := 5; dateNow := 1700000002000 |}
                (message_of Interrupted);
              Ended 0;
              Failed {| currentTime := 6; dateNow := 1700000003000 |} "closed";
              Closed {| currentTime := 7; dateNow := 1700000004000 |}]
           (onclose {| currentTime := 3; dateNow := 1700000000000 |} sessionOpened))
      = effects (onclose {| currentTime := 3; dateNow := 1700000000000 |} sessionOpened)
        ++ logs
      /\ log_only logs.
Proof.
  apply released_session_stays_released.
  repeat split; reflexivity.
Defined.

Section Ended.

Variable source : nat.

Lemma leaves_alone_refl (s : VoiceState) : leaves_alone source s s.
Proof.
  intros H1 H2. split; [exact H1|]. split; [exact H2|].
  exists []. split; [symmetry; apply app_nil_r|]. split.
  - intros (b & w & []).
  - intros [].
Qed.

Lemma leaves_alone_trans (s1 s2 s3 : VoiceState) :
  leaves_alone source s1 s2 -> leaves_alone source s2 s3 -> leaves_alone source s1 s3.
Proof.
  intros H12 H23 H1 H2. destruct (H12 H1 H2) as (H3 & H4 & l1 & E1 & A1 & B1).
  destruct (H23 H3 H4) as (H5 & H6 & l2 & E2 & A2 & B2).
  split; [exact H5|]. split; [exact H6|].
  exists (l1 ++ l2). split; [rewrite E2, E1; symmetry; apply app_assoc|]. split.
  - rewrite started_app. tauto.
  - rewrite stopped_app. tauto.
Qed.

Lemma leaves_alone_same (s s' : VoiceState) :
  nextSource s' = nextSource s ->
  audioSourcesRef s' = audioSourcesRef s ->
  effects s' = effects s ->
  leaves_alone source s s'.
Proof.
  intros E1 E2 E3 H1 H2. rewrite E1, E2, E3. apply leaves_alone_refl; assumption.
Qed.

Lemma leaves_alone_stops (s s' : VoiceState) (before : list Effect) :
  Forall quiet before ->
  effects s' = effects s ++ before ++ map SourceStop (audioSourcesRef s) ->
  audioSourcesRef s' = [] ->
  nextSource s' = nextSource s ->
  leaves_alone source s s'.
Proof.
  intros Hq E1 E2 E3 H1 H2. rewrite E2, E3. split; [exact H1|]. split; [intros []|].
  exists (before ++ map SourceStop (audioSourcesRef s)). split; [exact E1|]. split.
  - rewrite started_app. intros [H|H].
    + exact (started_quiet _ _ Hq H).
    + exact (started_stops _ _ H).
  - rewrite stopped_app. intros [H|H].
    + exact (stopped_quiet _ _ Hq H).
    + apply stopped_stops in H. exact (H2 H).
Qed.

Lemma leaves_alone_schedule (env : Env) (audio : string) (ctx : AudioContext) :
  preserved (leaves_alone source) (schedule env audio ctx).
Proof.
  intros s. rewrite schedule_cases. cbv zeta.
  assert (Hmax : leaves_alone source s
                   (set_nextStartTimeRef (Qmax (nextStartTimeRef s) (currentTime env)) s))
    by (apply leaves_alone_same; reflexivity).
  destruct (decode audio) as [bytes|e]; [|exact Hmax].
  destruct (decodeAudioData bytes ctx 24000 1) as [audioBuffer|e]; [|exact Hmax].
  cbn [fst]. intros H1 H2. cbn. split; [lia|]. split.
  - rewrite in_app_iff. intros [H|[H|[]]]; [exact (H2 H) | lia].
  - eexists. split; [reflexivity|]. split.
    + intros (b & w & [H|[]]). injection H as H _ _. lia.
    + intros [H|[]]. discriminate H.
Qed.

Lemma leaves_alone_interrupt : preserved (leaves_alone source) interrupt.
Proof.
  intros s. apply (leaves_alone_stops _ _ []); [constructor | reflexivity..].
Qed.

Lemma leaves_alone_onmessage (env : Env) (message : LiveServerMessage) :
  preserved (leaves_alone source) (onmessage env message).
Proof.
  unfold onmessage, setChatMessages.
  repeat first
    [ apply leaves_alone_schedule
    | apply leaves_alone_interrupt
    | preserved_step leaves_alone_refl leaves_alone_trans
        ltac:(intros []; apply leaves_alone_same; reflexivity) ].
Qed.

Lemma leaves_alone_handleCleanup (s : VoiceState) :
  leaves_alone source s (handleCleanup s).
Proof.
  apply (leaves_alone_stops _ _
           (stops (mediaStreamRef s) ++ closes (inputAudioContextRef s)
            ++ closes (outputAudioContextRef s))).
  - apply quiet_releases.
  - rewrite handleCleanup_effects, <- !app_assoc. reflexivity.
  - apply handleCleanup_refs.
  - rewrite handleCleanup_fields. reflexivity.
Qed.

Lemma leaves_alone_step (c : Callback) (s : VoiceState) :
  leaves_alone source s (step s c).
Proof.
  destruct c as [env message | other | env | env message | env]; cbn [step].
  - apply leaves_alone_onmessage.
  - intros H1 H2. unfold onended. cbn. split; [exact H1|]. split.
    + rewrite <- list_elem_of_In, list_elem_of_filter, list_elem_of_In. tauto.
    + exists []. split; [symmetry; apply app_nil_r|]. split.
      * intros (b & w & []).
      * intros [].
  - unfold onclose. cbv zeta.
    eapply leaves_alone_trans; [|apply leaves_alone_handleCleanup].
    apply leaves_alone_same; reflexivity.
  - unfold onerror. cbv zeta.
    eapply leaves_alone_trans; [|apply leaves_alone_handleCleanup].
    eapply leaves_alone_trans; [|apply leaves_alone_same; reflexivity].
    intros H1 H2. split; [exact H1|]. split; [exact H2|].
    exists [ConsoleError "Live session error:"]. split; [reflexivity|]. split.
    + intros (b & w & [H|[]]). discriminate H.
    + intros [H|[]]. discriminate H.
  - apply leaves_alone_same; reflexivity.
Qed.

Lemma leaves_alone_run (cs : list Callback) (s : VoiceState) :
  leaves_alone source s (run cs s).
Proof.
  revert s. induction cs as [|c cs IH]; intros s.
  - apply leaves_alone_refl.
  - change (run (c :: cs) s) with (run cs (step s c)).
    apply (leaves_alone_trans s (step s c)); [apply leaves_alone_step | apply IH].
Qed.

End Ended.

(** X8.  A source node that has played to its end is left alone.  After
    the [ended] event of a node that the session handed out, whatever
    callbacks run next (messages with audio or interruptions, the end of
    the session), no call starts that node again and none stops it. *)
Theorem ended_source_left_alone (source : nat) (cs : list Callback) (s : VoiceState) :
  (source < nextSource s)%nat ->
  exists new,
    effects (run cs (onended source s)) = effects s ++ new
    /\ ~ started new source
    /\ ~ stopped new source.
Proof.
  intros H.
  destruct (leaves_alone_run source cs (onended source s)) as (_ & _ & new & E & A & B).
  - exact H.
  - unfold onended. cbn.
    rewrite <- list_elem_of_In, list_elem_of_filter. tauto.
  - exists new. split; [exact E|]. split; assumption.
Qed.

Lemma ended_source_left_alone_witness :
  exists new,
    effects
      (run [Message {| currentTime := 1; dateNow := 1700000001000 |} (message_of Interrupted);
            Closed {| currentTime := 2; dateNow := 1700000002000 |}]
         (onended 0
            (deliver
               [({| currentTime := 0; dateNow := 1700000000000 |},
                 message_of (AudioChunk "AAAAAAAA"));
                ({| currentTime := 0; dateNow := 1700000000100 |},
                 message_of (AudioChunk "AAAAAAAA"))]
               sessionOpened)))
    = effects
        (deliver
           [({| currentTime := 0; dateNow := 1700000000000 |},
             message_of (AudioChunk "AAAAAAAA"));
            ({| currentTime := 0; dateNow := 1700000000100 |},
             message_of (AudioChunk "AAAAAAAA"))]
           sessionOpened)
      ++ new
    /\ ~ started new 0%nat
    /\ ~ stopped new 0%nat.
Proof.
  apply ended_source_left_alone.
  vm_compute. repeat constructor.
Defined.

(** ** The codec on any input *)

Section Codec.

Lemma length_btoa_groups (l : list N) :
  length (btoa_groups l) = (4 * ((length l + 2) / 3))%nat.
Proof.
  induction l as [| a | a b | a b c rest IH] using list_ind_triples; try reflexivity.
  cbn [btoa_groups length]. rewrite IH.
  replace (S (S (S (length rest))) + 2)%nat with (1 * 3 + (length rest + 2))%nat by lia.
  rewrite Nat.div_add_l by lia. lia.
Qed.

Lemma length_string_of_list_ascii (l : list ascii) :
  String.length (string_of_list_ascii l) = length l.
Proof.
  induction l as [|c l IH]; [reflexivity|]. cbn. rewrite IH. reflexivity.
Qed.

Lemma ToInt16_range (x : number) : -32768 <= ToInt16 x <= 32767.
Proof.
  destruct x as [q| | |]; cbn; try lia.
  destruct (Z.leb_spec 32768 (Qtrunc q mod 65536)); div_lia.
Qed.

Lemma byte_of_Z_of_byte (b : byte) : byte_of_Z (Z_of_byte b) = b.
Proof.
  destruct b; reflexivity.
Qed.

Lemma byte_of_Z_mod (a b : Z) : a mod 256 = b mod 256 -> byte_of_Z a = byte_of_Z b.
Proof.
  intros H. unfold byte_of_Z. rewrite H. reflexivity.
Qed.

Lemma Z_of_byte_range (b : byte) : 0 <= Z_of_byte b < 256.
Proof.
  unfold Z_of_byte. pose proof (Byte.to_N_bounded b). lia.
Qed.

Lemma bytes_of_int16_of_bytes (lo hi : byte) :
  byte_of_Z (int16_of_bytes lo hi mod 256) = lo
  /\ byte_of_Z ((int16_of_bytes lo hi / 256) mod 256) = hi.
Proof.
  pose proof (Z_of_byte_range lo) as Hlo. pose proof (Z_of_byte_range hi) as Hhi.
  unfold int16_of_bytes. cbv zeta.
  destruct (Z.leb_spec 32768 (Z_of_byte lo + 256 * Z_of_byte hi)); split.
  - rewrite <- (byte_of_Z_of_byte lo) at 2. apply byte_of_Z_mod. div_lia.
  - rewrite <- (byte_of_Z_of_byte hi) at 2. apply byte_of_Z_mod. div_lia.
  - rewrite <- (byte_of_Z_of_byte lo) at 2. apply byte_of_Z_mod. div_lia.
  - rewrite <- (byte_of_Z_of_byte hi) at 2. apply byte_of_Z_mod. div_lia.
Qed.

Lemma int16_of_bytes_range (lo hi : byte) : -32768 <= int16_of_bytes lo hi <= 32767.
Proof.
  pose proof (Z_of_byte_range lo) as Hlo. pose proof (Z_of_byte_range hi) as Hhi.
  unfold int16_of_bytes. cbv zeta.
  destruct (Z.leb_spec 32768 (Z_of_byte lo + 256 * Z_of_byte hi)); lia.
Qed.

Lemma list_ind_pairs {A : Type} (P : list A -> Prop) :
  P [] -> (forall a, P [a]) -> (forall a b rest, P rest -> P (a :: b :: rest)) ->
  forall l, P l.
Proof.
  intros H0 H1 H2.
  assert (H : forall l, P l /\ forall a, P (a :: l)).
  { induction l as [|x l [IH1 IH2]]; split; auto. }
  apply H.
Qed.

Lemma int16_elements_range (buf : list byte) :
  Forall (fun v => -32768 <= v <= 32767) (int16_elements buf).
Proof.
  induction buf as [| a | lo hi rest IH] using list_ind_pairs; try constructor.
  - apply int16_of_bytes_range.
  - exact IH.
Qed.

Lemma Uint8Array_of_int16_elements (buf : list byte) :
  Nat.even (length buf) = true ->
  Uint8Array_of_Int16Array (int16_elements buf) = buf.
Proof.
  induction buf as [| a | lo hi rest IH] using list_ind_pairs; intros H.
  - reflexivity.
  - discriminate H.
  - cbn [int16_elements Uint8Array_of_Int16Array flat_map app].
    destruct (bytes_of_int16_of_bytes lo hi) as [-> ->].
    fold (Uint8Array_of_Int16Array (int16_elements rest)). rewrite IH; [reflexivity|].
    exact H.
Qed.

Lemma Qtrunc_div_32768 (v : Z) : Qtrunc ((v # 32768) * 32768) = v.
Proof.
  unfold Qtrunc. cbn [Qmult Qnum Qden]. 
  change (Z.pos (32768 * 1)) with 32768. apply Z.quot_mul. lia.
Qed.

Lemma createBlob_int16_decoded (a : list Z) :
  Forall (fun v => -32768 <= v <= 32767) a ->
  createBlob_int16 (map (fun v => div_32768 (Some v)) a) = a.
Proof.
  intros H. rewrite createBlob_int16_map, map_map.
  induction H as [|v a Hv _ IH]; [reflexivity|].
  cbn [map]. rewrite IH. f_equal.
  cbn [div_32768 mul_const]. rewrite ToInt16_fits; rewrite Qtrunc_div_32768; [reflexivity|exact Hv].
Qed.

Lemma decodeAudioData_mono (bytes : list byte) (ctx : AudioContext) (rate : positive) :
  Nat.even (length bytes) = true ->
  supports ctx 1 (length bytes / 2) rate = true ->
  decodeAudioData bytes ctx rate 1
  = Ok {| numberOfChannels := 1;
          frames := length bytes / 2;
          sampleRate := rate;
          channels := [map (fun v => div_32768 (Some v)) (int16_elements bytes)] |}.
Proof.
  intros Heven Hsupports.
  assert (Hlen : length bytes = (2 * 1 * (length bytes / 2))%nat).
  { apply Nat.even_spec in Heven. destruct Heven as [k ->].
    rewrite (Nat.mul_comm 2 k), Nat.div_mul by lia. lia. }
  rewrite (decodeAudioData_whole_frames bytes ctx rate 1 (length bytes / 2));
    [|lia|exact Hlen|exact Hsupports].
  do 2 f_equal. cbn [seq map]. f_equal.
  rewrite <- (length_int16_elements bytes (length bytes / 2)) by lia.
  rewrite <- map_lookup_seq. apply map_ext. intros i. do 2 f_equal. lia.
Qed.

End Codec.

(** X9.  The text [encode] returns is well-formed base64: four characters
    for every three bytes or part of three, each one from the base64
    alphabet or the padding character. *)
Theorem encode_well_formed (bytes : list byte) :
  String.length (encode bytes) = (4 * ((length bytes + 2) / 3))%nat
  /\ Forall (fun c => In c b64_alphabet \/ c = pad) (list_ascii_of_string (encode bytes)).
Proof.
  rewrite encode_binary. unfold btoa. split.
  - rewrite length_string_of_list_ascii, length_btoa_groups, length_map,
      list_ascii_of_string_of_list_ascii, length_map. reflexivity.
  - rewrite list_ascii_of_string_of_list_ascii, btoa_groups_split.
    apply Forall_app. split.
    + apply Forall_forall. intros c Hc.
      apply list_elem_of_In, in_map_iff in Hc. destruct Hc as (n & <- & _).
      unfold b64_char. destruct (nth_in_or_default (N.to_nat n) b64_alphabet pad); auto.
    + match goal with
      | |- Forall _ (padding ?l) => destruct (padding_cases l) as [-> | [-> | ->]]
      end; repeat (apply List.Forall_cons; [right; reflexivity|]); apply List.Forall_nil.
Qed.

(** X10.  [createBlob] never fails and loses no sample, whatever the input
    holds: the text it returns decodes to two bytes per sample, and these
    bytes read as 16-bit integers are the converted samples, each within
    the 16-bit range; a sample that is not a finite number is sent as 0. *)
Theorem createBlob_any_samples (samples : list number) :
  exists bytes,
    decode (data (createBlob samples)) = Ok bytes
    /\ length bytes = (2 * length samples)%nat
    /\ Int16Array_of_buffer bytes = Ok (map (fun x => ToInt16 (mul_const x 32768)) samples)
    /\ Forall (fun v => -32768 <= v <= 32767)
         (map (fun x => ToInt16 (mul_const x 32768)) samples)
    /\ forall i x,
        samples !! i = Some x -> (forall q, x <> Fin q) ->
        map (fun x => ToInt16 (mul_const x 32768)) samples !! i = Some 0.
Proof.
  exists (Uint8Array_of_Int16Array (createBlob_int16 samples)).
  assert (Hrange : Forall (fun v => -32768 <= v <= 32767)
                     (map (fun x => ToInt16 (mul_const x 32768)) samples)).
  { apply Forall_forall. intros v Hv.
    apply list_elem_of_In, in_map_iff in Hv. destruct Hv as (x & <- & _).
    apply ToInt16_range. }
  split; [apply createBlob_data|].
  rewrite createBlob_int16_map. split.
  - rewrite length_Uint8Array_of_Int16Array, length_map. reflexivity.
  - split; [apply Int16Array_of_Uint8Array, Hrange|]. split; [exact Hrange|].
    intros i x Hx Hnot. rewrite list_lookup_fmap, Hx. cbn [fmap option_fmap option_map].
    destruct x as [q| | |]; [destruct (Hnot q eq_refl) | reflexivity..].
Qed.

(** X11.  Received audio survives a trip through the two converters.  For
    a payload of whole 16-bit samples that the context accepts,
    [decodeAudioData] returns a mono buffer, and [createBlob] applied to
    the samples of that buffer encodes exactly the bytes of the payload. *)
Theorem pcm_round_trip (bytes : list byte) (ctx : AudioContext) (rate : positive) :
  Nat.even (length bytes) = true ->
  supports ctx 1 (length bytes / 2) rate = true ->
  exists buffer,
    decodeAudioData bytes ctx rate 1 = Ok buffer
    /\ frames buffer = (length bytes / 2)%nat
    /\ decode (data (createBlob (getChannelData buffer 0))) = Ok bytes.
Proof.
  intros Heven Hsupports. eexists. split; [apply decodeAudioData_mono; assumption|].
  split; [reflexivity|].
  rewrite createBlob_data. unfold getChannelData. cbn [channels lookup list_lookup default].
  unfold Datatypes.id.
  rewrite createBlob_int16_decoded by apply int16_elements_range.
  rewrite Uint8Array_of_int16_elements by exact Heven. reflexivity.
Qed.

Lemma pcm_round_trip_witness :
  exists buffer,
    decodeAudioData [x00; x40; x00; xc0; xff; x7f; x00; x80] (standardContext 1) 24000 1
    = Ok buffer
    /\ frames buffer = (length [x00; x40; x00; xc0; xff; x7f; x00; x80] / 2)%nat
    /\ decode (data (createBlob (getChannelData buffer 0)))
       = Ok [x00; x40; x00; xc0; xff; x7f; x00; x80].
Proof.
  apply (pcm_round_trip [x00; x40; x00; xc0; xff; x7f; x00; x80] (standardContext 1) 24000);
    reflexivity.
Defined.

(** X12.  Every sample [decodeAudioData] produces is a finite number in
    [-1, 1).  For a payload of whole frames that the context accepts, each
    channel of the buffer holds one such sample per frame. *)
Theorem decoded_samples_nominal (bytes : list byte) (ctx : AudioContext)
    (rate : positive) (numChannels k : nat) :
  (0 < numChannels)%nat ->
  length bytes = (2 * numChannels * k)%nat ->
  supports ctx numChannels k rate = true ->
  exists buffer,
    decodeAudioData bytes ctx rate numChannels = Ok buffer
    /\ length (channels buffer) = numChannels
    /\ Forall (fun channelData => length channelData = k /\ Forall nominal channelData)
         (channels buffer).
Proof.
  intros Hn Hlen Hsupports. eexists.
  split; [apply decodeAudioData_whole_frames; eassumption|].
  cbn [channels]. split; [rewrite length_map, length_seq; reflexivity|].
  apply Forall_forall. intros channelData Hc.
  apply list_elem_of_In, in_map_iff in Hc. destruct Hc as (channel & <- & Hchannel).
  apply in_seq in Hchannel.
  split; [rewrite length_map, length_seq; reflexivity|].
  apply Forall_forall. intros x Hx.
  apply list_elem_of_In, in_map_iff in Hx. destruct Hx as (i & <- & Hi).
  apply in_seq in Hi.
  assert (Hlt : (i * numChannels + channel < length (int16_elements bytes))%nat).
  { rewrite (length_int16_elements bytes (numChannels * k)) by lia. nia. }
  destruct (lookup_lt_is_Some_2 _ _ Hlt) as [v Hv]. rewrite Hv.
  pose proof (int16_elements_range bytes) as Hrange.
  rewrite Forall_forall in Hrange.
  specialize (Hrange v (list_elem_of_lookup_2 _ _ _ Hv)).
  exists (v # 32768)%Q. split; [reflexivity|].
  unfold Qle, Qlt. cbn. lia.
Qed.

Lemma decoded_samples_nominal_witness :
  exists buffer,
    decodeAudioData [x00; x40; x00; xc0; xff; x7f; x00; x80] (standardContext 1) 24000 2
    = Ok buffer
    /\ length (channels buffer) = 2%nat
    /\ Forall (fun channelData => length channelData = 2%nat /\ Forall nominal channelData)
         (channels buffer).
Proof.
  apply (decoded_samples_nominal [x00; x40; x00; xc0; xff; x7f; x00; x80]
           (standardContext 1) 24000 2 2); [lia | reflexivity | reflexivity].
Defined.

(** ** WAV files: [createWavBlob] *)

Section Wav.

Import AudioService.

Lemma totalLength_concat (chunks : list (list number)) (acc : nat) :
  fold_left (fun acc chunk => (acc + length chunk)%nat) chunks acc
  = (acc + length (concat chunks))%nat.
Proof.
  revert acc. induction chunks as [|chunk chunks IH]; intros acc; cbn [fold_left concat].
  - cbn. lia.
  - rewrite IH, length_app. lia.
Qed.

Lemma set_fill {A : Type} (pre source : list A) (zero : A) (m : nat) :
  (length source <= m)%nat ->
  set (pre ++ replicate m zero) source (length pre)
  = Ok (pre ++ source ++ replicate (m - length source) zero).
Proof.
  intros H. unfold set.
  rewrite length_app, length_replicate.
  destruct (Nat.leb_spec (length pre + length source) (length pre + m)); [|lia].
  rewrite take_app_length, drop_app_add, drop_replicate. reflexivity.
Qed.

Lemma pcmData_concat (chunks : list (list number)) (pre : list number) (m : nat) :
  (length (concat chunks) <= m)%nat ->
  fold_left
    (fun '(pcmData, offset) chunk =>
       (bind_result pcmData (fun pcmData => set pcmData chunk offset),
        (offset + length chunk)%nat))
    chunks (Ok (pre ++ replicate m (Fin 0)), length pre)
  = (Ok (pre ++ concat chunks ++ replicate (m - length (concat chunks)) (Fin 0)),
     (length pre + length (concat chunks))%nat).
Proof.
  revert pre m. induction chunks as [|chunk chunks IH]; intros pre m H; cbn [fold_left concat].
  - cbn. rewrite Nat.sub_0_r, Nat.add_0_r. reflexivity.
  - cbn [concat] in H. rewrite length_app in H. cbn [bind_result]. rewrite set_fill by lia.
    rewrite app_assoc, <- length_app.
    assert (H' : (length (concat chunks) <= m - length chunk)%nat) by (clear IH; lia).
    rewrite (IH _ _ H').
    rewrite <- !app_assoc, !length_app. rewrite Nat.sub_add_distr. f_equal. lia.
Qed.

Lemma length_pcm_bytes (l : list number) :
  length (Uint8Array_of_Int16Array (map pcm16 l)) = (2 * length l)%nat.
Proof.
  rewrite length_Uint8Array_of_Int16Array, length_map. reflexivity.
Qed.

Lemma floatTo16BitPCM_prefix (pre : list byte) (input : list number) (k : nat) :
  (k <= length input)%nat ->
  for_loop k
    (fun i '(output, offset) =>
       (bind_result output (fun output =>
          setInt16 output offset (scaled (default NaN (input !! i)))),
        (offset + 2)%nat))
    (Ok (pre ++ replicate (2 * length input) x00), length pre)
  = (Ok (pre ++ Uint8Array_of_Int16Array (map pcm16 (take k input))
             ++ replicate (2 * (length input - k)) x00),
     (length pre + 2 * k)%nat).
Proof.
  induction k as [|k IH]; intros Hk.
  - unfold for_loop. cbn [seq fold_left]. rewrite Nat.sub_0_r, Nat.mul_0_r, Nat.add_0_r.
    reflexivity.
  - rewrite for_loop_S, IH by lia. cbn [bind_result].
    destruct (lookup_lt_is_Some_2 input k) as [x Hx]; [lia|].
    rewrite Hx. cbn [default]. unfold Datatypes.id.
    rewrite (take_S_r _ _ _ Hx), map_app. cbn [map].
    assert (E : Uint8Array_of_Int16Array (map pcm16 (take k input) ++ [pcm16 x])
                = Uint8Array_of_Int16Array (map pcm16 (take k input))
                  ++ le_bytes 2 (pcm16 x)).
    { unfold Uint8Array_of_Int16Array. rewrite flat_map_app. reflexivity. }
    rewrite E. clear E.
    unfold setInt16. fold (pcm16 x).
    replace (length pre + 2 * k)%nat
      with (length (pre ++ Uint8Array_of_Int16Array (map pcm16 (take k input))))
      by (rewrite length_app, length_pcm_bytes, length_take; lia).
    rewrite app_assoc.
    rewrite (set_fill _ (le_bytes 2 (pcm16 x)) x00) by (cbn [le_bytes length]; lia).
    rewrite <- !app_assoc, length_app, length_pcm_bytes, length_take.
    cbn [le_bytes length].
    replace (2 * (length input - k) - 2)%nat with (2 * (length input - S k))%nat by lia.
    f_equal. lia.
Qed.

Lemma floatTo16BitPCM_fill (pre : list byte) (input : list number) :
  floatTo16BitPCM (pre ++ replicate (2 * length input) x00) (length pre) input
  = Ok (pre ++ Uint8Array_of_Int16Array (map pcm16 input)).
Proof.
  unfold floatTo16BitPCM. rewrite floatTo16BitPCM_prefix by lia. cbn [fst].
  rewrite firstn_all, Nat.sub_diag. cbn. rewrite app_nil_r. reflexivity.
Qed.

Lemma set_next {A : Type} (pre source : list A) (zero : A) (m offset : nat) :
  offset = length pre ->
  set (pre ++ replicate (length source + m) zero) source offset
  = Ok ((pre ++ source) ++ replicate m zero).
Proof.
  intros ->. rewrite set_fill by lia. rewrite <- app_assoc.
  replace (length source + m - length source)%nat with m by lia. reflexivity.
Qed.

Lemma byte_of_charCode (c : ascii) :
  le_bytes 1 (ToUint 8 (Fin (inject_Z (Z.of_N (N_of_ascii c))))) = [byte_of_ascii c].
Proof.
  cbn [le_bytes ToUint]. f_equal. unfold byte_of_Z, Qtrunc. cbn [inject_Z Qnum Qden].
  rewrite Z.quot_1_r.
  pose proof (N_ascii_bounded c) as Hc.
  change (2 ^ 8) with 256.
  rewrite !(Z.mod_small (Z.of_N (N_of_ascii c)) 256) by lia.
  rewrite N2Z.id, ascii_N_embedding. reflexivity.
Qed.

Lemma substring_0_0 (str : string) : substring 0 0 str = EmptyString.
Proof. destruct str; reflexivity. Qed.

Lemma substring_snoc (str : string) (k : nat) :
  (k < String.length str)%nat ->
  exists c,
    String.get k str = Some c
    /\ string_bytes (substring 0 (S k) str)
       = string_bytes (substring 0 k str) ++ [byte_of_ascii c].
Proof.
  revert k. induction str as [|c0 str IH]; intros k Hk; [cbn in Hk; lia|].
  destruct k as [|k].
  - exists c0. split; [reflexivity|]. cbn. rewrite substring_0_0. reflexivity.
  - cbn in Hk. destruct (IH k) as (c & Hc & E); [lia|]. exists c. split; [exact Hc|].
    change (substring 0 (S (S k)) (String c0 str)) with (String c0 (substring 0 (S k) str)).
    change (substring 0 (S k) (String c0 str)) with (String c0 (substring 0 k str)).
    unfold string_bytes in *. cbn [list_ascii_of_string map]. rewrite E. reflexivity.
Qed.

Lemma length_substring_prefix (str : string) (k : nat) :
  (k <= String.length str)%nat -> String.length (substring 0 k str) = k.
Proof.
  revert k. induction str as [|c0 str IH]; intros k Hk.
  - cbn in Hk. replace k with 0%nat by lia. reflexivity.
  - destruct k as [|k]; [reflexivity|]. cbn in Hk.
    change (substring 0 (S k) (String c0 str)) with (String c0 (substring 0 k str)).
    cbn [String.length]. rewrite IH by lia. reflexivity.
Qed.

Lemma substring_all (str : string) : substring 0 (String.length str) str = str.
Proof.
  induction str as [|c str IH]; [reflexivity|]. cbn. rewrite IH. reflexivity.
Qed.

Lemma writeString_prefix (pre : list byte) (str : string) (m k : nat) :
  (k <= String.length str)%nat ->
  for_loop k
    (fun i view => bind_result view (fun view =>
       setUint8 view (length pre + i) (charCodeAt str i)))
    (Ok (pre ++ replicate (String.length str + m) x00))
  = Ok ((pre ++ string_bytes (substring 0 k str))
        ++ replicate (String.length str - k + m) x00).
Proof.
  induction k as [|k IH]; intros Hk.
  - unfold for_loop. cbn [seq fold_left]. rewrite Nat.sub_0_r, substring_0_0.
    cbn [string_bytes list_ascii_of_string map]. rewrite app_nil_r. reflexivity.
  - rewrite for_loop_S, IH by lia. cbn [bind_result].
    destruct (substring_snoc str k) as (c & Hc & E); [lia|].
    unfold setUint8, charCodeAt. rewrite Hc, E, byte_of_charCode.
    replace (String.length str - k + m)%nat
      with (length [byte_of_ascii c] + (String.length str - S k + m))%nat
      by (cbn [length]; lia).
    rewrite (app_assoc pre). apply set_next.
    rewrite length_app. unfold string_bytes.
    rewrite length_map, length_list_ascii, length_substring_prefix by lia. reflexivity.
Qed.

Lemma writeString_next (pre : list byte) (str : string) (m offset : nat) :
  offset = length pre ->
  writeString (pre ++ replicate (String.length str + m) x00) offset str
  = Ok ((pre ++ string_bytes str) ++ replicate m x00).
Proof.
  intros ->. unfold writeString. rewrite writeString_prefix by lia.
  rewrite Nat.sub_diag, substring_all. reflexivity.
Qed.

Lemma floatTo16BitPCM_next (pre : list byte) (input : list number) (offset : nat) :
  offset = length pre ->
  floatTo16BitPCM (pre ++ replicate (2 * length input) x00) offset input
  = Ok (pre ++ Uint8Array_of_Int16Array (map pcm16 input)).
Proof.
  intros ->. apply floatTo16BitPCM_fill.
Qed.

Lemma bind_result_Ok {A B : Type} (r : result A) (a : A) (k : A -> result B) :
  r = Ok a -> bind_result r k = k a.
Proof. intros ->. reflexivity. Qed.

Ltac written :=
  lazymatch goal with
  | |- bind_result ?w ?k = _ =>
      let H := fresh in
      eassert (H : w = Ok _)
        by first [apply writeString_next; reflexivity | apply set_next; reflexivity];
      rewrite (bind_result_Ok _ _ k H); clear H
  end.

Lemma createWavBlob_bytes (chunks : list (list number)) (sampleRate : number) :
  createWavBlob chunks sampleRate
  = Ok {| bytes := wav_header (length (concat chunks)) sampleRate
                   ++ Uint8Array_of_Int16Array (map pcm16 (concat chunks));
          type := "audio/wav" |}.
Proof.
  unfold createWavBlob.
  rewrite totalLength_concat.
  change (0 + length (concat chunks))%nat with (length (concat chunks)).
  change (Ok (replicate (length (concat chunks)) (Fin 0)), 0%nat)
    with (Ok ([] ++ replicate (length (concat chunks)) (Fin 0)), @length number []).
  rewrite pcmData_concat by lia. rewrite Nat.sub_diag.
  change (replicate 0 (Fin 0)) with (@nil number). rewrite app_nil_r.
  change ([] ++ concat chunks) with (concat chunks).
  cbv beta iota zeta. rewrite (bind_result_Ok _ _ _ eq_refl).
  set (pcmData := concat chunks).
  change (16 / 8)%nat with 2%nat. change (1 * 2)%nat with 2%nat.
  rewrite (Nat.mul_comm (length pcmData) 2).
  set (d := (2 * length pcmData)%nat).
  change (replicate (44 + d) x00)
    with ([] ++ replicate
                  (4 + (4 + (4 + (4 + (4 + (2 + (2 + (4 + (4 + (2 + (2 + (4 + (4 + d)))))))))))))
                  x00).
  do 13 written.
  lazymatch goal with
  | |- bind_result ?w ?k = _ =>
      eassert (H : w = Ok _) by (apply floatTo16BitPCM_next; reflexivity);
      rewrite (bind_result_Ok _ _ k H); clear H
  end.
  unfold wav_header. rewrite <- !app_assoc. reflexivity.
Qed.

End Wav.

Section WavFile.

Import AudioService.

Lemma pcm16_range (l : list number) : Forall (fun v => -32768 <= v <= 32767) (map pcm16 l).
Proof.
  apply Forall_forall. intros v Hv.
  apply list_elem_of_In, in_map_iff in Hv. destruct Hv as (x & <- & _).
  apply ToInt16_range.
Qed.

Lemma length_wav_header (samples : nat) (sampleRate : number) :
  length (wav_header samples sampleRate) = 44%nat.
Proof. reflexivity. Qed.

Lemma getUint_le_bytes (n : nat) (v : Z) (rest : list byte) :
  getUint n (le_bytes n v ++ rest) 0 = v mod 256 ^ Z.of_nat n.
Proof.
  unfold getUint. rewrite drop_0. revert v. induction n as [|n IH]; intros v.
  - cbn. rewrite Z.mod_1_r. reflexivity.
  - cbn [le_bytes app take fold_right]. rewrite IH, Z_of_byte_of_Z, Z.mod_mod by lia.
    rewrite Nat2Z.inj_succ, Z.pow_succ_r by lia.
    rewrite Z.rem_mul_r by lia. reflexivity.
Qed.

Lemma getUint_skip (n : nat) (pre view : list byte) (offset : nat) :
  offset = length pre -> getUint n (pre ++ view) offset = getUint n view 0.
Proof.
  intros ->. unfold getUint. rewrite drop_app_length. reflexivity.
Qed.


Lemma getUint_app_r (n : nat) (pre view : list byte) (offset : nat) :
  (length pre <= offset)%nat ->
  getUint n (pre ++ view) offset = getUint n view (offset - length pre).
Proof.
  intros H. unfold getUint. f_equal.
  replace offset with (length pre + (offset - length pre))%nat at 1 by lia.
  rewrite drop_app_add. reflexivity.
Qed.

Ltac skip_field :=
  rewrite getUint_app_r by (cbn [length le_bytes string_bytes map list_ascii_of_string]; lia);
  cbn [Nat.sub length le_bytes string_bytes map list_ascii_of_string].

Lemma wav_header_fields (samples : nat) (sampleRate : number) (data : list byte) :
  let view := wav_header samples sampleRate ++ data in
  take 4 view = string_bytes "RIFF"
  /\ getUint 4 view 4 = ToUint 32 (of_length (36 + 2 * samples)) mod 256 ^ 4
  /\ take 8 (drop 8 view) = string_bytes "WAVEfmt "
  /\ getUint 4 view 16 = 16
  /\ getUint 2 view 20 = 1
  /\ getUint 2 view 22 = 1
  /\ getUint 4 view 24 = ToUint 32 sampleRate mod 256 ^ 4
  /\ getUint 4 view 28 = ToUint 32 (mul_const (mul_const sampleRate 1) 2) mod 256 ^ 4
  /\ getUint 2 view 32 = 2
  /\ getUint 2 view 34 = 16
  /\ take 4 (drop 36 view) = string_bytes "data"
  /\ getUint 4 view 40 = ToUint 32 (of_length (2 * samples)) mod 256 ^ 4.
Proof.
  cbv zeta. unfold wav_header. rewrite <- !app_assoc.
  repeat split; try reflexivity.
  - skip_field. apply (getUint_le_bytes 4).
  - do 7 skip_field. apply (getUint_le_bytes 4).
  - do 8 skip_field. apply (getUint_le_bytes 4).
  - do 12 skip_field. apply (getUint_le_bytes 4).
Qed.

End WavFile.

(** X13.  [createWavBlob] never fails, and the file it returns is the
    44-byte header followed by the samples and nothing else: one 16-bit
    little-endian integer for every sample of every chunk, in order. *)
Theorem createWavBlob_layout (chunks : list (list number)) (sampleRate : number) :
  exists blob,
    AudioService.createWavBlob chunks sampleRate = Ok blob
    /\ AudioService.type blob = "audio/wav"%string
    /\ length (AudioService.bytes blob) = (44 + 2 * length (concat chunks))%nat
    /\ take 4 (AudioService.bytes blob) = string_bytes "RIFF"
    /\ take 8 (drop 8 (AudioService.bytes blob)) = string_bytes "WAVEfmt "
    /\ take 4 (drop 36 (AudioService.bytes blob)) = string_bytes "data"
    /\ Int16Array_of_buffer (drop 44 (AudioService.bytes blob))
       = Ok (map pcm16 (concat chunks)).
Proof.
  eexists. split; [apply createWavBlob_bytes|]. cbn [AudioService.type AudioService.bytes].
  destruct (wav_header_fields (length (concat chunks)) sampleRate
              (Uint8Array_of_Int16Array (map pcm16 (concat chunks))))
    as (H1 & _ & H2 & _ & _ & _ & _ & _ & _ & _ & H3 & _).
  split; [reflexivity|]. split.
  - rewrite length_app, length_wav_header, length_pcm_bytes. reflexivity.
  - split; [exact H1|]. split; [exact H2|]. split; [exact H3|].
    rewrite (drop_app_length' _ _ 44 (eq_sym (length_wav_header _ _))).
    apply Int16Array_of_Uint8Array, pcm16_range.
Qed.


(** X15.  Only the samples matter to [createWavBlob], not how they are cut
    into chunks: the file for a list of chunks is the file for the one
    chunk that holds all their samples. *)
Theorem createWavBlob_chunking (chunks : list (list number)) (sampleRate : number) :
  AudioService.createWavBlob chunks sampleRate
  = AudioService.createWavBlob [concat chunks] sampleRate.
Proof.
  rewrite !createWavBlob_bytes. cbn [concat]. rewrite app_nil_r. reflexivity.
Qed.


Section Saturation.

Import AudioService.

Lemma Qtrunc_le (a b : Q) : (a <= b)%Q -> Qtrunc a <= Qtrunc b.
Proof.
  destruct a as [an ad], b as [bn bd]. unfold Qle, Qtrunc. cbn [Qnum Qden]. intros H.
  destruct (quot_bounds an ad) as [Ha1 Ha2]. destruct (quot_bounds bn bd) as [Hb1 Hb2].
  pose proof (Pos2Z.is_pos ad) as Had. pose proof (Pos2Z.is_pos bd) as Hbd.
  set (da := Z.pos ad) in *. set (db := Z.pos bd) in *.
  set (qa := Z.quot an da) in *. set (qb := Z.quot bn db) in *.
  clearbody qa qb. clearbody da db.
  destruct (Z.le_gt_cases qa qb) as [Hle|Hgt]; [exact Hle|exfalso].
  assert (Hq : qb + 1 <= qa) by lia.
  destruct (Z.le_ge_cases 0 an) as [Han|Han], (Z.le_ge_cases 0 bn) as [Hbn|Hbn].
  - specialize (Ha1 Han). specialize (Hb1 Hbn).
    assert (da * (qb + 1) <= da * qa) by (apply Z.mul_le_mono_nonneg_l; lia).
    assert (db * (da * (qb + 1)) <= db * an) by (apply Z.mul_le_mono_nonneg_l; lia).
    assert (da * bn < da * (db * (qb + 1))) by (apply Z.mul_lt_mono_pos_l; lia).
    lia.
  - assert (bn * da <= 0) by (apply Z.mul_nonpos_nonneg; lia).
    assert (0 <= an * db) by (apply Z.mul_nonneg_nonneg; lia).
    assert (an = 0).
    { destruct (Z.eq_dec an 0) as [|Hne]; [assumption|].
      assert (0 < an * db) by (apply Z.mul_pos_pos; lia). lia. }
    assert (bn = 0).
    { destruct (Z.eq_dec bn 0) as [|Hne]; [assumption|].
      assert (bn * da < 0) by (apply Z.mul_neg_pos; lia). lia. }
    subst an bn. specialize (Ha1 ltac:(lia)). specialize (Hb1 ltac:(lia)).
    assert (qa <= 0).
    { destruct (Z.le_gt_cases qa 0); [assumption|].
      assert (0 < da * qa) by (apply Z.mul_pos_pos; lia). lia. }
    assert (0 <= qb).
    { destruct (Z.le_gt_cases 0 qb); [assumption|].
      assert (db * (qb + 1) <= 0) by (apply Z.mul_nonneg_nonpos; lia). lia. }
    lia.
  - specialize (Ha2 Han). specialize (Hb1 Hbn).
    assert (qa <= 0).
    { destruct (Z.le_gt_cases qa 0); [assumption|].
      assert (0 <= da * (qa - 1)) by (apply Z.mul_nonneg_nonneg; lia). lia. }
    assert (0 <= qb).
    { destruct (Z.le_gt_cases 0 qb); [assumption|].
      assert (db * (qb + 1) <= 0) by (apply Z.mul_nonneg_nonpos; lia). lia. }
    lia.
  - specialize (Ha2 Han). specialize (Hb2 Hbn).
    assert (da * qb <= da * (qa - 1)) by (apply Z.mul_le_mono_nonneg_l; lia).
    assert (db * (da * qb) <= db * (da * (qa - 1))) by (apply Z.mul_le_mono_nonneg_l; lia).
    assert (db * (da * (qa - 1)) < db * an) by (apply Z.mul_lt_mono_pos_l; lia).
    assert (da * bn <= da * (db * qb)) by (apply Z.mul_le_mono_nonneg_l; lia).
    lia.
Qed.

Lemma Qtrunc_inject_Z (z : Z) : Qtrunc (inject_Z z) = z.
Proof.
  unfold Qtrunc. cbn [inject_Z Qnum Qden]. apply Z.quot_1_r.
Qed.

Lemma scaled_Fin (q : Q) : scaled (Fin q) = Fin (scaled_Q q).
Proof.
  unfold scaled, scaled_Q. cbn [Math_min Math_max negative]. cbv zeta.
  destruct (negb (Qle_bool 0 (Qmax (-1) (Qmin 1 q)))); reflexivity.
Qed.

Lemma clamp_bounds (q : Q) :
  (-1 <= Qmax (-1) (Qmin 1 q))%Q /\ (Qmax (-1) (Qmin 1 q) <= 1)%Q.
Proof.
  split; [apply Q.le_max_l|].
  apply Q.max_lub; [discriminate | apply Q.le_min_l].
Qed.

Lemma scaled_Q_le (p q : Q) : (p <= q)%Q -> (scaled_Q p <= scaled_Q q)%Q.
Proof.
  intros H. unfold scaled_Q. cbv zeta.
  assert (Hs : (Qmax (-1) (Qmin 1 p) <= Qmax (-1) (Qmin 1 q))%Q)
    by (apply Q.max_le_compat_l, Q.min_le_compat_l, H).
  destruct (clamp_bounds p) as [Hp1 Hp2], (clamp_bounds q) as [Hq1 Hq2].
  set (sp := Qmax (-1) (Qmin 1 p)) in *. set (sq := Qmax (-1) (Qmin 1 q)) in *.
  destruct (Qle_bool 0 sp) eqn:Ep, (Qle_bool 0 sq) eqn:Eq; cbn [negb].
  - lra.
  - apply Qle_bool_iff in Ep.
    assert (~ (0 <= sq)%Q) by (rewrite <- Qle_bool_iff, Eq; discriminate). lra.
  - apply Qle_bool_iff in Eq.
    assert (~ (0 <= sp)%Q) by (rewrite <- Qle_bool_iff, Ep; discriminate). lra.
  - lra.
Qed.

Lemma scaled_Q_bounds (q : Q) : (-32768 <= scaled_Q q)%Q /\ (scaled_Q q <= 32767)%Q.
Proof.
  unfold scaled_Q. cbv zeta. destruct (clamp_bounds q) as [H1 H2].
  set (s := Qmax (-1) (Qmin 1 q)) in *.
  destruct (Qle_bool 0 s) eqn:E; cbn [negb].
  - apply Qle_bool_iff in E. split; lra.
  - assert (~ (0 <= s)%Q) by (rewrite <- Qle_bool_iff, E; discriminate). split; lra.
Qed.

Lemma pcm16_Fin (q : Q) : pcm16 (Fin q) = Qtrunc (scaled_Q q).
Proof.
  unfold pcm16. rewrite scaled_Fin. apply ToInt16_fits.
  destruct (scaled_Q_bounds q) as [H1 H2].
  apply Qtrunc_le in H1, H2.
  change (-32768)%Q with (inject_Z (-32768)) in H1.
  change 32767%Q with (inject_Z 32767) in H2.
  rewrite Qtrunc_inject_Z in H1, H2. lia.
Qed.

Lemma pcm16_le (p q : Q) : (p <= q)%Q -> pcm16 (Fin p) <= pcm16 (Fin q).
Proof.
  intros H. rewrite !pcm16_Fin. apply Qtrunc_le, scaled_Q_le, H.
Qed.

End Saturation.

(** X16.  [floatTo16BitPCM] clamps and never wraps: the 16-bit value it
    writes grows with the sample and stays between -32768 and 32767. *)
Theorem pcm16_monotone (p q : Q) :
  (p <= q)%Q ->
  -32768 <= pcm16 (Fin p) /\ pcm16 (Fin p) <= pcm16 (Fin q) /\ pcm16 (Fin q) <= 32767.
Proof.
  intros H. split; [apply ToInt16_range|]. split; [apply pcm16_le, H | apply ToInt16_range].
Qed.

Lemma pcm16_monotone_witness :
  -32768 <= pcm16 (Fin (9 # 10))
  /\ pcm16 (Fin (9 # 10)) <= pcm16 (Fin (11 # 10))
  /\ pcm16 (Fin (11 # 10)) <= 32767.
Proof.
  apply (pcm16_monotone (9 # 10) (11 # 10)). vm_compute. discriminate.
Defined.

(** X17.  A sample at or beyond full scale is written as the extreme value
    of its sign: 32767 from 1 upward, -32768 from -1 downward. *)
Theorem pcm16_saturates (q : Q) :
  (1 <= Qabs q)%Q ->
  pcm16 (Fin q) = if Qle_bool 0 q then 32767 else -32768.
Proof.
  intros H. destruct (Qle_bool 0 q) eqn:E.
  - apply Qle_bool_iff in E. rewrite Qabs_pos in H by exact E.
    apply Z.le_antisymm; [apply ToInt16_range|].
    change 32767 with (pcm16 (Fin 1)). apply pcm16_le, H.
  - assert (Hneg : (q <= 0)%Q).
    { apply Qnot_lt_le. intros Hlt. apply Qlt_le_weak, Qle_bool_iff in Hlt. congruence. }
    rewrite Qabs_neg in H by exact Hneg.
    apply Z.le_antisymm; [|apply ToInt16_range].
    change (-32768) with (pcm16 (Fin (-1))). apply pcm16_le. lra.
Qed.

Lemma pcm16_saturates_witness :
  pcm16 (Fin (- (3 # 2))) = if Qle_bool 0 (- (3 # 2)) then 32767 else -32768.
Proof.
  apply (pcm16_saturates (- (3 # 2))). vm_compute. discriminate.
Defined.

(** ** The URL groups *)

Section Urls.

Import KnowledgeBase.

Lemma includes_In (l : list string) (x : string) : includes l x = true <-> In x l.
Proof.
  unfold includes. rewrite existsb_exists. split.
  - intros (y & Hy & E). apply String.eqb_eq in E. subst. exact Hy.
  - intros H. exists x. split; [exact H | apply String.eqb_refl].
Qed.

Lemma filter_length_le {A : Type} (f : A -> bool) (l : list A) :
  (length (List.filter f l) <= length l)%nat.
Proof.
  induction l as [|x l IH]; cbn; [lia|]. destruct (f x); cbn; lia.
Qed.

Lemma tidy_step (a : UrlAction) (groups : list URLGroup) :
  Forall tidy groups -> Forall tidy (url_step groups a).
Proof.
  intros H. destruct a as [active url | active url]; cbn [url_step].
  - unfold handleAddUrl. apply Forall_map. apply (Forall_impl _ _ _ H).
    intros group [Hlen Hnodup]. unfold tidy. cbv beta.
    destruct (String.eqb (id group) active); [|split; assumption].
    destruct (Nat.ltb_spec (length (urls group)) MAX_URLS) as [Hlt|]; cbn [andb];
      [|split; assumption].
    destruct (includes (urls group) url) eqn:E; cbn [negb]; [split; assumption|].
    split; cbn [urls].
    + rewrite length_app. cbn. lia.
    + apply List.NoDup_app; [exact Hnodup | repeat constructor; intros [] |].
      intros x Hx [->|[]]. apply includes_In in Hx. congruence.
  - unfold handleRemoveUrl. apply Forall_map. apply (Forall_impl _ _ _ H).
    intros group [Hlen Hnodup]. unfold tidy. cbv beta.
    destruct (String.eqb (id group) active); [|split; assumption].
    split; cbn [urls].
    + pose proof (filter_length_le (fun u => negb (String.eqb u url)) (urls group)). lia.
    + apply List.NoDup_filter, Hnodup.
Qed.

Lemma shape_step (a : UrlAction) (groups : list URLGroup) :
  map (fun group => (id group, name group)) (url_step groups a)
  = map (fun group => (id group, name group)) groups.
Proof.
  destruct a as [active url | active url]; cbn [url_step];
    unfold handleAddUrl, handleRemoveUrl; rewrite map_map; apply map_ext; intros group.
  - destruct (String.eqb (id group) active); [|reflexivity].
    destruct ((length (urls group) <? MAX_URLS)%nat && negb (includes (urls group) url));
      reflexivity.
  - destruct (String.eqb (id group) active); reflexivity.
Qed.

Lemma tidy_run (actions : list UrlAction) (groups : list URLGroup) :
  Forall tidy groups -> Forall tidy (fold_left url_step actions groups).
Proof.
  revert groups. induction actions as [|a actions IH]; intros groups H; [exact H|].
  cbn [fold_left]. apply IH, tidy_step, H.
Qed.

Lemma shape_run (actions : list UrlAction) (groups : list URLGroup) :
  map (fun group => (id group, name group)) (fold_left url_step actions groups)
  = map (fun group => (id group, name group)) groups.
Proof.
  revert groups. induction actions as [|a actions IH]; intros groups; [reflexivity|].
  cbn [fold_left]. rewrite IH. apply shape_step.
Qed.

Lemma filter_added (url : string) (l : list string) :
  List.filter (fun u => negb (String.eqb u url)) (l ++ [url])
  = List.filter (fun u => negb (String.eqb u url)) l.
Proof.
  rewrite List.filter_app. cbn [List.filter]. rewrite String.eqb_refl. cbn [negb].
  apply app_nil_r.
Qed.

Lemma activeGroup_handleAddUrl (active url : string) (groups : list URLGroup) :
  match activeGroup groups active with
  | Some group =>
      currentUrlsForChat (handleAddUrl active url groups) active
      = if (length (urls group) <? MAX_URLS)%nat && negb (includes (urls group) url)
        then urls group ++ [url]
        else urls group
  | None => handleAddUrl active url groups = groups
  end.
Proof.
  unfold currentUrlsForChat, activeGroup, handleAddUrl.
  induction groups as [|group groups IH]; [reflexivity|].
  cbn [find map]. destruct (String.eqb (id group) active) eqn:E.
  - destruct ((length (urls group) <? MAX_URLS)%nat && negb (includes (urls group) url));
      cbn [find id]; rewrite E; reflexivity.
  - cbn [find]. rewrite E.
    destruct (find (fun group0 => String.eqb (id group0) active) groups) as [found|].
    + exact IH.
    + rewrite IH. reflexivity.
Qed.

End Urls.

(** X18.  The URL lists stay within their limit.  When no group holds more
    than [MAX_URLS] URLs and none holds a URL twice, this is still so after
    any sequence of additions and removals, whatever group is active at
    each; the groups themselves, their ids and their names stay as they
    are. *)
Theorem url_groups_stay_tidy (actions : list UrlAction)
    (groups : list KnowledgeBase.URLGroup) :
  Forall tidy groups ->
  Forall tidy (fold_left url_step actions groups)
  /\ map (fun group => (KnowledgeBase.id group, KnowledgeBase.name group))
       (fold_left url_step actions groups)
     = map (fun group => (KnowledgeBase.id group, KnowledgeBase.name group)) groups.
Proof.
  intros H. split; [apply tidy_run, H | apply shape_run].
Qed.

(** X19.  Removing a URL undoes adding it: removing [url] from the active
    group right after adding it there gives the groups that removing it
    alone gives, whether the addition took place or was refused. *)
Theorem handleRemoveUrl_after_handleAddUrl (active url : string)
    (groups : list KnowledgeBase.URLGroup) :
  KnowledgeBase.handleRemoveUrl active url (KnowledgeBase.handleAddUrl active url groups)
  = KnowledgeBase.handleRemoveUrl active url groups.
Proof.
  unfold KnowledgeBase.handleRemoveUrl, KnowledgeBase.handleAddUrl.
  rewrite map_map. apply map_ext. intros group.
  destruct (String.eqb (KnowledgeBase.id group) active) eqn:E; [|rewrite E; reflexivity].
  destruct ((length (KnowledgeBase.urls group) <? KnowledgeBase.MAX_URLS)%nat
            && negb (KnowledgeBase.includes (KnowledgeBase.urls group) url));
    cbn [KnowledgeBase.id KnowledgeBase.name KnowledgeBase.urls]; rewrite E;
    rewrite ?filter_added; reflexivity.
Qed.

(** X20.  What the chat sees of an addition.  The list of URLs used for the
    chat is the list of the first group with the active id; adding a URL
    puts it at the end of that list when the list holds fewer than
    [MAX_URLS] URLs and not this one yet, and leaves the list as it is
    otherwise.  When no group has the active id, nothing changes at all. *)
Theorem handleAddUrl_current (active url : string) (groups : list KnowledgeBase.URLGroup) :
  match KnowledgeBase.activeGroup groups active with
  | Some group =>
      KnowledgeBase.currentUrlsForChat (KnowledgeBase.handleAddUrl active url groups) active
      = if (length (KnowledgeBase.urls group) <? KnowledgeBase.MAX_URLS)%nat
           && negb (KnowledgeBase.includes (KnowledgeBase.urls group) url)
        then KnowledgeBase.urls group ++ [url]
        else KnowledgeBase.urls group
  | None => KnowledgeBase.handleAddUrl active url groups = groups
  end.
Proof.
  apply activeGroup_handleAddUrl.
Qed.

Lemma url_groups_stay_tidy_witness :
  Forall tidy
    (fold_left url_step
       [AddUrl "custom-docs" "https://example.com/a";
        AddUrl "custom-docs" "https://example.com/a";
        RemoveUrl "gemini-overview" "https://ai.google.dev/gemini-api/docs"]%string
       KnowledgeBase.INITIAL_URL_GROUPS)
  /\ map (fun group => (KnowledgeBase.id group, KnowledgeBase.name group))
       (fold_left url_step
          [AddUrl "custom-docs" "https://example.com/a";
           AddUrl "custom-docs" "https://example.com/a";
           RemoveUrl "gemini-overview" "https://ai.google.dev/gemini-api/docs"]%string
          KnowledgeBase.INITIAL_URL_GROUPS)
     = map (fun group => (KnowledgeBase.id group, KnowledgeBase.name group))
         KnowledgeBase.INITIAL_URL_GROUPS.
Proof.
  apply url_groups_stay_tidy.
  repeat apply List.Forall_cons; try apply List.Forall_nil;
    (split; [vm_compute; lia|]);
    repeat (apply List.NoDup_cons;
            [cbn [In]; intros H;
             repeat (destruct H as [H|H]; [discriminate H|]); exact H|]);
    apply List.NoDup_nil.
Defined.
